(** * Barnes-Hut quadtree of the solar-system simulation

    A shallow embedding of the quadtree core that [quadTree2.c], [solar.c],
    [asteriod.c] and the [barnes_hut] translation unit share: construction
    and insertion, mass aggregation, the opening-angle force traversal, the
    integration step and the bounds computation of the stepper.

    The C code computes in [double].  The embedding is written once against
    an interface of the arithmetic it uses ([Arith]) and is instantiated
    twice: with the real numbers (exact arithmetic, in which the algebraic
    properties are proved) and with binary64 machine floats (the arithmetic
    the compiled program runs, in which the code can be executed). *)

From Stdlib Require Import Floats.
From Stdlib Require Import Reals Lra Lia List Bool PeanoNat Permutation.
Import ListNotations.

Set Warnings "-inexact-float".

(** ** The arithmetic interface *)

Class Arith (F : Type) : Type := {
  f0 : F;                      (* 0.0 *)
  f2 : F;                      (* 2.0 *)
  f0_1 : F;                    (* 0.1 *)
  EPSILON : F;                 (* #define EPSILON 1e-9 *)
  fadd : F -> F -> F;
  fsub : F -> F -> F;
  fneg : F -> F;
  fmul : F -> F -> F;
  fdiv : F -> F -> F;
  fsqrt : F -> F;              (* sqrt of <math.h> *)
  fmax : F -> F -> F;          (* fmax of <math.h> *)
  flt : F -> F -> bool;        (* a < b *)
  fle : F -> F -> bool;        (* a <= b *)
  feq : F -> F -> bool         (* a == b *)
}.

Declare Scope arith_scope.
Delimit Scope arith_scope with A.
Infix "+" := fadd : arith_scope.
Infix "-" := fsub : arith_scope.
Infix "*" := fmul : arith_scope.
Infix "/" := fdiv : arith_scope.
Notation "- a" := (fneg a) : arith_scope.
Infix "<?" := flt : arith_scope.
Infix "<=?" := fle : arith_scope.
Infix "=?" := feq : arith_scope.

(** Exact arithmetic: the comparisons decide the order of the reals. *)

Definition R_ltb (a b : R) : bool := if Rlt_dec a b then true else false.
Definition R_leb (a b : R) : bool := if Rle_dec a b then true else false.
Definition R_eqb (a b : R) : bool := if Req_dec_T a b then true else false.

#[export] Instance Exact : Arith R := {|
  f0 := 0%R;
  f2 := 2%R;
  f0_1 := (1 / 10)%R;
  EPSILON := (1 / 1000000000)%R;
  fadd := Rplus;
  fsub := Rminus;
  fneg := Ropp;
  fmul := Rmult;
  fdiv := Rdiv;
  fsqrt := R_sqrt.sqrt;
  fmax := Rmax;
  flt := R_ltb;
  fle := R_leb;
  feq := R_eqb
|}.

(** Machine arithmetic: IEEE 754 binary64, the [double] of the compiled
    program.  [fmax] returns the other argument when one is a NaN. *)

Definition float_fmax (a b : float) : float :=
  if PrimFloat.is_nan a then b
  else if PrimFloat.is_nan b then a
  else if PrimFloat.ltb a b then b else a.

#[export] Instance Binary64 : Arith float := {|
  f0 := 0%float;
  f2 := 2%float;
  f0_1 := 0.1%float;
  EPSILON := 1e-9%float;
  fadd := PrimFloat.add;
  fsub := PrimFloat.sub;
  fneg := PrimFloat.opp;
  fmul := PrimFloat.mul;
  fdiv := PrimFloat.div;
  fsqrt := PrimFloat.sqrt;
  fmax := float_fmax;
  flt := PrimFloat.ltb;
  fle := PrimFloat.leb;
  feq := PrimFloat.eqb
|}.

(** ** Bodies and the store they live in

    The tree never owns a body: a node holds a [CelestialBody*] (a [Planet*]
    in the [barnes_hut] unit) into an array owned by the caller.  A pointer
    is the index of the array cell, and the store maps it to the cell's
    current contents, so that a write through one alias is seen through
    every other. *)

Definition ptr := nat.

(** What the tree reads through a body pointer: [->x], [->y], [->mass]. *)
Class Body (F B : Type) : Type := {
  pos_x : B -> F;
  pos_y : B -> F;
  mass_of : B -> F
}.

(** [CelestialBody] of solar.c and asteriod.c ([quadTree2.c] has the same
    record without [fx], [fy]). *)
Record CelestialBody (F : Type) : Type := mkBody {
  x : F; y : F;
  vx : F; vy : F;
  mass : F;
  radius : F;
  fx : F; fy : F
}.
Arguments mkBody {F}.
Arguments x {F}. Arguments y {F}. Arguments vx {F}. Arguments vy {F}.
Arguments mass {F}. Arguments radius {F}. Arguments fx {F}. Arguments fy {F}.

(** [Planet] of planet.h, without its name, colour and trajectory buffer. *)
Record Planet (F : Type) : Type := mkPlanet {
  p_mass : F;
  p_x : F; p_y : F;
  p_vx : F; p_vy : F;
  p_ax : F; p_ay : F;
  p_radius : F
}.
Arguments mkPlanet {F}.
Arguments p_mass {F}. Arguments p_x {F}. Arguments p_y {F}.
Arguments p_vx {F}. Arguments p_vy {F}. Arguments p_ax {F}.
Arguments p_ay {F}. Arguments p_radius {F}.

#[export] Instance CelestialBody_Body (F : Type) : Body F (CelestialBody F) :=
  {| pos_x := x; pos_y := y; mass_of := mass |}.

#[export] Instance Planet_Body (F : Type) : Body F (Planet F) :=
  {| pos_x := p_x; pos_y := p_y; mass_of := p_mass |}.

Definition Store (B : Type) : Type := ptr -> B.

(** [st[p] = b] *)
Definition store_set {B : Type} (st : Store B) (p : ptr) (b : B) : Store B :=
  fun q => if Nat.eqb q p then b else st q.

(** ** Quadtree nodes *)

(** The scalar fields of [struct QuadTreeNode]. *)
Record NodeData (F : Type) : Type := mkNode {
  node_x : F; node_y : F;
  width : F; height : F;
  body : option ptr;            (* NULL is [None] *)
  total_mass : F;
  center_x : F; center_y : F
}.
Arguments mkNode {F}.
Arguments node_x {F}. Arguments node_y {F}. Arguments width {F}.
Arguments height {F}. Arguments body {F}. Arguments total_mass {F}.
Arguments center_x {F}. Arguments center_y {F}.

(** The four child pointers are NULL together ([Leaf]) or set together by
    [subdivide] ([Internal]); [node->nw == NULL] is the test for [Leaf]. *)
Inductive QuadTreeNode (F : Type) : Type :=
| Leaf (d : NodeData F)
| Internal (d : NodeData F) (nw ne sw se : QuadTreeNode F).
Arguments Leaf {F}.
Arguments Internal {F}.

Inductive Quadrant : Type := NW | NE | SW | SE.

Definition Quadrant_eq_dec (q q' : Quadrant) : {q = q'} + {q <> q'}.
Proof. decide equality. Defined.

Definition data {F : Type} (n : QuadTreeNode F) : NodeData F :=
  match n with
  | Leaf d => d
  | Internal d _ _ _ _ => d
  end.

Definition set_body {F : Type} (d : NodeData F) (b : option ptr) : NodeData F :=
  mkNode (node_x d) (node_y d) (width d) (height d) b
         (total_mass d) (center_x d) (center_y d).

Definition set_aggregate {F : Type} (d : NodeData F) (m cx cy : F) : NodeData F :=
  mkNode (node_x d) (node_y d) (width d) (height d) (body d) m cx cy.

Definition child {F : Type} (q : Quadrant) (nw ne sw se : QuadTreeNode F)
  : QuadTreeNode F :=
  match q with NW => nw | NE => ne | SW => sw | SE => se end.

(** The parent [Internal d ...] with the child in quadrant [q] replaced. *)
Definition set_child {F : Type} (q : Quadrant) (c : QuadTreeNode F)
    (d : NodeData F) (nw ne sw se : QuadTreeNode F) : QuadTreeNode F :=
  match q with
  | NW => Internal d c ne sw se
  | NE => Internal d nw c sw se
  | SW => Internal d nw ne c se
  | SE => Internal d nw ne sw c
  end.

Definition bind {X Y : Type} (o : option X) (k : X -> option Y) : option Y :=
  match o with
  | Some v => k v
  | None => None
  end.

Notation "v <- o ;; k" := (bind o (fun v => k))
  (at level 61, o at next level, right associativity).

Section Construction.
Context {F : Type} {AF : Arith F} {B : Type} {BB : Body F B}.
Local Open Scope arith_scope.

Definition create_quadtree (x y width height : F) : QuadTreeNode F :=
  Leaf (mkNode x y width height None f0 f0 f0).

Definition is_in_bounds (st : Store B) (d : NodeData F) (b : ptr) : bool :=
  (node_x d <=? pos_x (st b)) &&
  (pos_x (st b) <? node_x d + width d) &&
  (node_y d <=? pos_y (st b)) &&
  (pos_y (st b) <? node_y d + height d).

(** The four children [subdivide] allocates, in the order nw, ne, sw, se. *)
Definition subdivide (d : NodeData F)
  : QuadTreeNode F * QuadTreeNode F * QuadTreeNode F * QuadTreeNode F :=
  let half_width := width d / f2 in
  let half_height := height d / f2 in
  (create_quadtree (node_x d) (node_y d) half_width half_height,
   create_quadtree (node_x d + half_width) (node_y d) half_width half_height,
   create_quadtree (node_x d) (node_y d + half_height) half_width half_height,
   create_quadtree (node_x d + half_width) (node_y d + half_height)
                   half_width half_height).

Definition get_quadrant (st : Store B) (d : NodeData F) (b : ptr) : Quadrant :=
  let mid_x := node_x d + width d / f2 in
  let mid_y := node_y d + height d / f2 in
  if pos_y (st b) <? mid_y then
    if pos_x (st b) <? mid_x then NW else NE
  else
    if pos_x (st b) <? mid_x then SW else SE.

(** [insert_body(get_quadrant(node, b), b)]: the call mutates the selected
    child in place; here it rebuilds the parent around the new child. *)
Definition insert_into_quadrant
    (rec : QuadTreeNode F -> ptr -> option (QuadTreeNode F))
    (st : Store B) (d : NodeData F) (nw ne sw se : QuadTreeNode F) (b : ptr)
  : option (QuadTreeNode F) :=
  let q := get_quadrant st d b in
  c <- rec (child q nw ne sw se) b ;; Some (set_child q c d nw ne sw se).

(** [insert_body].  The C recursion has no depth bound; [fuel] bounds the
    depth of the call stack, and [None] says the bound was reached. *)
Fixpoint insert_body (fuel : nat) (st : Store B) (node : QuadTreeNode F)
    (b : ptr) : option (QuadTreeNode F) :=
  match fuel with
  | O => None
  | S fuel' =>
    if negb (is_in_bounds st (data node) b) then Some node
    else
      match node with
      | Leaf d =>
        match body d with
        | None => Some (Leaf (set_body d (Some b)))          (* case 1 *)
        | Some existing_body =>                              (* case 2 *)
          let '(nw, ne, sw, se) := subdivide d in
          let d' := set_body d None in
          node' <- insert_into_quadrant (insert_body fuel' st) st d'
                     nw ne sw se existing_body ;;
          match node' with
          | Internal d1 nw1 ne1 sw1 se1 =>                   (* case 3 *)
            insert_into_quadrant (insert_body fuel' st) st d1
              nw1 ne1 sw1 se1 b
          | Leaf _ => Some node'      (* not reached: the node was subdivided *)
          end
        end
      | Internal d nw ne sw se =>                            (* case 3 *)
        insert_into_quadrant (insert_body fuel' st) st d nw ne sw se b
      end
  end.

(** [for (i = 0; i < n; i++) insert_body(root, &bodies[i]);] *)
Fixpoint insert_all (fuel : nat) (st : Store B) (root : QuadTreeNode F)
    (ps : list ptr) : option (QuadTreeNode F) :=
  match ps with
  | [] => Some root
  | p :: ps' =>
    root' <- insert_body fuel st root p ;; insert_all fuel st root' ps'
  end.

Definition build (fuel : nat) (st : Store B) (root : QuadTreeNode F)
    (n : nat) : option (QuadTreeNode F) :=
  insert_all fuel st root (seq 0 n).

(** The bodies a tree holds, nw to se. *)
Fixpoint bodies_of (t : QuadTreeNode F) : list ptr :=
  match t with
  | Leaf d => match body d with Some p => [p] | None => [] end
  | Internal d nw ne sw se =>
    (match body d with Some p => [p] | None => [] end)
      ++ bodies_of nw ++ bodies_of ne ++ bodies_of sw ++ bodies_of se
  end.

Fixpoint depth (t : QuadTreeNode F) : nat :=
  match t with
  | Leaf _ => 0
  | Internal _ nw ne sw se =>
    S (Nat.max (Nat.max (depth nw) (depth ne)) (Nat.max (depth sw) (depth se)))
  end.

End Construction.

(** ** Mass aggregation *)

Section Aggregation.
Context {F : Type} {AF : Arith F} {B : Type} {BB : Body F B}.
Local Open Scope arith_scope.

(** One round of the loop over [children[i]] (unrolled in [quadTree2.c]):
    the running [(total_mass, center_x, center_y)] of the parent. *)
Definition add_child (acc : F * F * F) (c : QuadTreeNode F) : F * F * F :=
  let '(m, cx, cy) := acc in
  if f0 <? total_mass (data c) then
    (m + total_mass (data c),
     cx + center_x (data c) * total_mass (data c),
     cy + center_y (data c) * total_mass (data c))
  else acc.

Fixpoint calculate_center_of_mass (st : Store B) (node : QuadTreeNode F)
  : QuadTreeNode F :=
  match node with
  | Leaf d =>
    match body d with
    | Some p =>
      Leaf (set_aggregate d (mass_of (st p)) (pos_x (st p)) (pos_y (st p)))
    | None =>
      Leaf (set_aggregate d f0 (node_x d + width d / f2)
                          (node_y d + height d / f2))
    end
  | Internal d nw ne sw se =>
    let nw' := calculate_center_of_mass st nw in
    let ne' := calculate_center_of_mass st ne in
    let sw' := calculate_center_of_mass st sw in
    let se' := calculate_center_of_mass st se in
    let '(m, cx, cy) :=
      add_child (add_child (add_child (add_child (f0, f0, f0) nw') ne') sw') se' in
    if f0 <? m then
      Internal (set_aggregate d m (cx / m) (cy / m)) nw' ne' sw' se'
    else
      Internal (set_aggregate d m (node_x d + width d / f2)
                              (node_y d + height d / f2))
               nw' ne' sw' se'
  end.

End Aggregation.

(** ** Force evaluation *)

Section Force.
Context {F : Type} {AF : Arith F} {B : Type} {BB : Body F B}.
Local Open Scope arith_scope.

(** A quotient whose divisor may be zero.  IEEE 754 then delivers an
    infinity or a NaN; [None] stands for that outcome. *)
Definition div_checked (a b : F) : option F :=
  if b =? f0 then None else Some (a / b).

(** The leaf branch: the pull of the body [p] held by the node on [b],
    added to the accumulators [( *fx, *fy )]. *)
Definition leaf_force (G : F) (st : Store B) (b p : ptr) (acc : F * F)
  : option (F * F) :=
  let dx := pos_x (st p) - pos_x (st b) in
  let dy := pos_y (st p) - pos_y (st b) in
  let distance_squared := dx * dx + dy * dy in
  let distance := fsqrt distance_squared in
  if distance <? EPSILON then Some acc
  else
    force_magnitude <-
      div_checked (G * mass_of (st b) * mass_of (st p)) distance_squared ;;
    tx <- div_checked (force_magnitude * dx) distance ;;
    ty <- div_checked (force_magnitude * dy) distance ;;
    Some (fst acc + tx, snd acc + ty).

(** Distance from [b] to the node's centre of mass. *)
Definition com_distance (st : Store B) (b : ptr) (d : NodeData F) : F :=
  let dx := center_x d - pos_x (st b) in
  let dy := center_y d - pos_y (st b) in
  fsqrt (dx * dx + dy * dy).

(** [s / distance < theta].  The quotient by a zero distance is an infinity
    (a NaN when [s] is zero too), which is not below any [theta]. *)
Definition opening_test (st : Store B) (b : ptr) (d : NodeData F) (theta : F)
  : bool :=
  let s := fmax (width d) (height d) in
  match div_checked s (com_distance st b d) with
  | Some ratio => ratio <? theta
  | None => false
  end.

(** The approximation branch: the node as one body at its centre of mass. *)
Definition node_force (G : F) (st : Store B) (b : ptr) (d : NodeData F)
    (acc : F * F) : option (F * F) :=
  let dx := center_x d - pos_x (st b) in
  let dy := center_y d - pos_y (st b) in
  let distance := fsqrt (dx * dx + dy * dy) in
  if distance <? EPSILON then Some acc
  else
    force_magnitude <-
      div_checked (G * mass_of (st b) * total_mass d) (distance * distance) ;;
    tx <- div_checked (force_magnitude * dx) distance ;;
    ty <- div_checked (force_magnitude * dy) distance ;;
    Some (fst acc + tx, snd acc + ty).

(** [node->body != NULL && node->body != body] *)
Definition holds_other (d : NodeData F) (b : ptr) : option ptr :=
  match body d with
  | Some p => if Nat.eqb p b then None else Some p
  | None => None
  end.

(** [calculate_force_from_quadtree] of quadTree2.c (and of the second
    program in solar.c; [bh_calculate_force] is the same function with
    [theta] fixed to the macro THETA): the internal branch is guarded by
    [node->nw != NULL]. *)
Fixpoint calculate_force_from_quadtree (G : F) (st : Store B) (b : ptr)
    (node : QuadTreeNode F) (theta : F) (acc : F * F) : option (F * F) :=
  if total_mass (data node) =? f0 then Some acc
  else
    match holds_other (data node) b with
    | Some p => leaf_force G st b p acc
    | None =>
      match node with
      | Leaf _ => Some acc
      | Internal d nw ne sw se =>
        if opening_test st b d theta then node_force G st b d acc
        else
          acc1 <- calculate_force_from_quadtree G st b nw theta acc ;;
          acc2 <- calculate_force_from_quadtree G st b ne theta acc1 ;;
          acc3 <- calculate_force_from_quadtree G st b sw theta acc2 ;;
          calculate_force_from_quadtree G st b se theta acc3
      end
    end.

(** [calculate_force_from_quadtree] of asteriod.c and of the first program
    in solar.c: no [node->nw != NULL] guard, so a leaf that is not handled
    by the leaf branch runs the opening test too; its four children are
    NULL and the recursive calls on them return at once. *)
Fixpoint calculate_force_unguarded (G : F) (st : Store B) (b : ptr)
    (node : QuadTreeNode F) (theta : F) (acc : F * F) : option (F * F) :=
  if total_mass (data node) =? f0 then Some acc
  else
    match holds_other (data node) b with
    | Some p => leaf_force G st b p acc
    | None =>
      if opening_test st b (data node) theta
      then node_force G st b (data node) acc
      else
        match node with
        | Leaf _ => Some acc
        | Internal d nw ne sw se =>
          acc1 <- calculate_force_unguarded G st b nw theta acc ;;
          acc2 <- calculate_force_unguarded G st b ne theta acc1 ;;
          acc3 <- calculate_force_unguarded G st b sw theta acc2 ;;
          calculate_force_unguarded G st b se theta acc3
        end
    end.

End Force.

(** ** Integration *)

Section Integration.
Context {F : Type} {AF : Arith F}.
Local Open Scope arith_scope.

(** [update_body] of solar.c and asteriod.c. *)
Definition update_body (b : CelestialBody F) (fx fy dt : F) : CelestialBody F :=
  let ax := fx / mass b in
  let ay := fy / mass b in
  let vx' := vx b + ax * dt in
  let vy' := vy b + ay * dt in
  mkBody (x b + vx' * dt) (y b + vy' * dt) vx' vy' (mass b) (radius b) fx fy.

(** [update_body] of quadTree2.c: its record has no [fx], [fy] to store
    the force in. *)
Definition update_body_quadTree2 (b : CelestialBody F) (fx' fy' dt : F)
  : CelestialBody F :=
  let ax := fx' / mass b in
  let ay := fy' / mass b in
  let vx' := vx b + ax * dt in
  let vy' := vy b + ay * dt in
  mkBody (x b + vx' * dt) (y b + vy' * dt) vx' vy' (mass b) (radius b)
         (fx b) (fy b).

End Integration.

(** ** The simulation tick *)

Section Stepper.
Context {F : Type} {AF : Arith F}.
Local Open Scope arith_scope.

(** *** solar.c and asteriod.c: one loop evaluates and integrates *)

(** [for (i...) { fx = fy = 0; calculate_force_from_quadtree(&all_bodies[i],
    root, THETA, &fx, &fy); update_body(&all_bodies[i], fx, fy, dt); }]
    The leaves of [root] point into [all_bodies], the array that
    [update_body] writes. *)
Fixpoint force_and_update (G theta dt : F) (root : QuadTreeNode F)
    (ps : list ptr) (all_bodies : Store (CelestialBody F))
  : option (Store (CelestialBody F)) :=
  match ps with
  | [] => Some all_bodies
  | i :: ps' =>
    f <- calculate_force_unguarded G all_bodies i root theta (f0, f0) ;;
    force_and_update G theta dt root ps'
      (store_set all_bodies i (update_body (all_bodies i) (fst f) (snd f) dt))
  end.

(** [update_simulation_barnes_hut] of solar.c, from the filled
    [all_bodies] array on; [region] is SIMULATION_REGION. *)
Definition update_simulation_barnes_hut (fuel : nat) (G theta region dt : F)
    (all_bodies : Store (CelestialBody F)) (total_bodies : nat)
  : option (Store (CelestialBody F)) :=
  root <- build fuel all_bodies
            (create_quadtree (- region) (- region) (f2 * region) (f2 * region))
            total_bodies ;;
  force_and_update G theta dt (calculate_center_of_mass all_bodies root)
                   (seq 0 total_bodies) all_bodies.

(** *** The barnes_hut unit: three loops over [planets] *)

(** One round of the scan for [min_x], [max_x], [min_y], [max_y]. *)
Definition scan_step (planets : Store (Planet F)) (acc : F * F * F * F)
    (i : ptr) : F * F * F * F :=
  let '(min_x, max_x, min_y, max_y) := acc in
  (if p_x (planets i) <? min_x then p_x (planets i) else min_x,
   if max_x <? p_x (planets i) then p_x (planets i) else max_x,
   if p_y (planets i) <? min_y then p_y (planets i) else min_y,
   if max_y <? p_y (planets i) then p_y (planets i) else max_y).

(** The scan, started from [planets[0]]; the loop visits index 0 again. *)
Definition scan_bounds (planets : Store (Planet F)) (num_planets : nat)
  : F * F * F * F :=
  fold_left (scan_step planets) (seq 0 num_planets)
    (p_x (planets 0), p_x (planets 0), p_y (planets 0), p_y (planets 0)).

(** The padded, squared region and the root created over it. *)
Definition bounding_root (planets : Store (Planet F)) (num_planets : nat)
  : QuadTreeNode F :=
  let '(min_x, max_x, min_y, max_y) := scan_bounds planets num_planets in
  let padding := fmax (max_x - min_x) (max_y - min_y) * f0_1 in
  let min_x := min_x - padding in
  let max_x := max_x + padding in
  let min_y := min_y - padding in
  let max_y := max_y + padding in
  let width := max_x - min_x in
  let height := max_y - min_y in
  let max_dim := fmax width height in
  create_quadtree min_x min_y max_dim max_dim.

Definition set_acceleration (p : Planet F) (ax ay : F) : Planet F :=
  mkPlanet (p_mass p) (p_x p) (p_y p) (p_vx p) (p_vy p) ax ay (p_radius p).

(** "Calculate forces on all planets": only [ax], [ay] are written. *)
Fixpoint bh_forces (G theta : F) (root : QuadTreeNode F) (ps : list ptr)
    (planets : Store (Planet F)) : option (Store (Planet F)) :=
  match ps with
  | [] => Some planets
  | i :: ps' =>
    f <- calculate_force_from_quadtree G planets i root theta (f0, f0) ;;
    bh_forces G theta root ps'
      (store_set planets i
         (set_acceleration (planets i) (fst f / p_mass (planets i))
                           (snd f / p_mass (planets i))))
  end.

Definition integrate_planet (p : Planet F) (dt : F) : Planet F :=
  let vx' := p_vx p + p_ax p * dt in
  let vy' := p_vy p + p_ay p * dt in
  mkPlanet (p_mass p) (p_x p + vx' * dt) (p_y p + vy' * dt) vx' vy'
           (p_ax p) (p_ay p) (p_radius p).

(** "Update positions and velocities for all planets". *)
Fixpoint bh_integrate (dt : F) (ps : list ptr) (planets : Store (Planet F))
  : Store (Planet F) :=
  match ps with
  | [] => planets
  | i :: ps' =>
    bh_integrate dt ps' (store_set planets i (integrate_planet (planets i) dt))
  end.

(** [update_simulation_barnes_hut] of the barnes_hut unit, without the
    trajectory buffer; [theta] is the macro THETA. *)
Definition bh_update_simulation (fuel : nat) (G theta dt : F)
    (planets : Store (Planet F)) (num_planets : nat)
  : option (Store (Planet F)) :=
  root <- build fuel planets (bounding_root planets num_planets) num_planets ;;
  planets' <- bh_forces G theta (calculate_center_of_mass planets root)
                (seq 0 num_planets) planets ;;
  Some (bh_integrate dt (seq 0 num_planets) planets').

End Stepper.

(** ** Vocabulary of the specification *)

Section Vocabulary.
Context {F : Type} {AF : Arith F} {B : Type} {BB : Body F B}.
Local Open Scope arith_scope.

Definition same_box (a b : NodeData F) : Prop :=
  node_x a = node_x b /\ node_y a = node_y b /\
  width a = width b /\ height a = height b.

(** The shape [insert_body] maintains: an internal node holds no body, has
    a non-empty box and the four boxes of [subdivide] below it; a leaf's
    body lies in the leaf's box. *)
Fixpoint well_formed (st : Store B) (t : QuadTreeNode F) : Prop :=
  match t with
  | Leaf d =>
    match body d with
    | Some p => is_in_bounds st d p = true
    | None => True
    end
  | Internal d nw ne sw se =>
    body d = None /\
    (f0 <? width d) = true /\ (f0 <? height d) = true /\
    same_box (data nw) (data (fst (fst (fst (subdivide d))))) /\
    same_box (data ne) (data (snd (fst (fst (subdivide d))))) /\
    same_box (data sw) (data (snd (fst (subdivide d)))) /\
    same_box (data se) (data (snd (subdivide d))) /\
    well_formed st nw /\ well_formed st ne /\
    well_formed st sw /\ well_formed st se
  end.

(** "Every internal node's total_mass equals the sum of its four
    children's total_mass." *)
Fixpoint mass_additive (t : QuadTreeNode F) : Prop :=
  match t with
  | Leaf _ => True
  | Internal d nw ne sw se =>
    total_mass d =
      total_mass (data nw) + total_mass (data ne)
      + total_mass (data sw) + total_mass (data se) /\
    mass_additive nw /\ mass_additive ne /\
    mass_additive sw /\ mass_additive se
  end.

Definition mass_sum (st : Store B) (ps : list ptr) : F :=
  fold_right (fun p s => mass_of (st p) + s) f0 ps.

(** The direct all-pairs sum the specification compares the traversal with
    (section 4.4 and the "exact limit" property); the repository has no
    such loop, the definition follows the specification's words.  The pull
    of [j] on [i] is [G * m_i * m_j / r^2] along [(dx, dy) / r], and is left
    out when [r] is below the softening threshold. *)
Definition pairwise_force (G : F) (st : Store B) (i j : ptr) : F * F :=
  let dx := pos_x (st j) - pos_x (st i) in
  let dy := pos_y (st j) - pos_y (st i) in
  let r := fsqrt (dx * dx + dy * dy) in
  if r <? EPSILON then (f0, f0)
  else
    let force := G * mass_of (st i) * mass_of (st j) / (r * r) in
    (force * dx / r, force * dy / r).

(** One round of the direct sum's loop for the target [i]. *)
Definition add_pair (G : F) (st : Store B) (i : ptr) (acc : F * F) (j : ptr)
  : F * F :=
  if Nat.eqb j i then acc
  else (fst acc + fst (pairwise_force G st i j),
        snd acc + snd (pairwise_force G st i j)).

Definition direct_all_pairs_force (G : F) (st : Store B) (n : nat) (i : ptr)
  : F * F :=
  fold_left (add_pair G st i) (seq 0 n) (f0, f0).






(** Two bodies at the same coordinates. *)
Definition same_place (st : Store B) (p q : ptr) : Prop :=
  pos_x (st p) = pos_x (st q) /\ pos_y (st p) = pos_y (st q).

(** Two stores the tree cannot tell apart. *)
Definition same_view (st st' : Store B) : Prop :=
  forall p, pos_x (st p) = pos_x (st' p) /\ pos_y (st p) = pos_y (st' p) /\
            mass_of (st p) = mass_of (st' p).

(** What one call of [insert_body] does to a well-formed tree. *)
Definition insert_post (st : Store B) (t : QuadTreeNode F) (b : ptr)
    (t' : QuadTreeNode F) : Prop :=
  well_formed st t' /\ same_box (data t') (data t) /\
  (is_in_bounds st (data t) b = true ->
   Permutation (bodies_of t') (b :: bodies_of t)) /\
  (is_in_bounds st (data t) b = false -> t' = t).

End Vocabulary.

(** ** Vocabulary of the properties that hold in every arithmetic *)

Section HeldVocabulary.
Context {F : Type} {AF : Arith F} {B : Type} {BB : Body F B}.

(** The part of [well_formed] that no rounding can break: an internal node
    holds no body, and the body of a leaf passed the bounds test of that
    leaf. *)
Fixpoint bodies_in_leaves (st : Store B) (t : QuadTreeNode F) : Prop :=
  match t with
  | Leaf d =>
    match body d with
    | Some p => is_in_bounds st d p = true
    | None => True
    end
  | Internal d nw ne sw se =>
    body d = None /\
    bodies_in_leaves st nw /\ bodies_in_leaves st ne /\
    bodies_in_leaves st sw /\ bodies_in_leaves st se
  end.

(** How often the tree holds the body [p]. *)
Definition held (t : QuadTreeNode F) (p : ptr) : nat :=
  count_occ Nat.eq_dec (bodies_of t) p.

(** What one call of [insert_body] does in every arithmetic: it keeps the
    box, stores no body twice and none but [b], and stores [b] only after
    the bounds test of the node. *)
Definition insert_keeps (st : Store B) (t : QuadTreeNode F) (b : ptr)
    (t' : QuadTreeNode F) : Prop :=
  bodies_in_leaves st t' /\ same_box (data t') (data t) /\
  (forall p, held t' p <= held t p + (if Nat.eq_dec b p then 1 else 0)) /\
  (is_in_bounds st (data t) b = false -> t' = t).

End HeldVocabulary.

(** ** Vocabulary of the proofs in exact arithmetic *)

Section ExactVocabulary.
Local Open Scope R_scope.



End ExactVocabulary.

(** ** Sample inputs *)

(** What a run of the build leaves behind: the depth of the tree and the
    bodies it holds. *)
Definition build_report {F B : Type} {AF : Arith F} {BB : Body F B}
    (fuel : nat) (st : Store B) (root : QuadTreeNode F) (n : nat)
  : option (nat * list ptr) :=
  option_map (fun t => (depth t, bodies_of t)) (build fuel st root n).

Section ExactSamples.
Local Open Scope R_scope.

(** Two bodies of mass 16 at (-2, 0) and (2, 0). *)
Definition pair_store : Store (CelestialBody R) :=
  fun p =>
    match p with
    | O => mkBody (-2) 0 0 0 16 1 0 0
    | _ => mkBody 2 0 0 0 16 1 0 0
    end.

(** The region of solar.c: SIMULATION_REGION is 50. *)
Definition solar_root : QuadTreeNode R := create_quadtree (-50) (-50) 100 100.



(** The tree [insert_body] builds from [pair_store] in [solar_root]. *)
Definition pair_tree : QuadTreeNode R :=
  Internal (mkNode (-50) (-50) 100 100 None 0 0 0)
    (create_quadtree (-50) (-50) (100 / 2) (100 / 2))
    (create_quadtree (-50 + 100 / 2) (-50) (100 / 2) (100 / 2))
    (Leaf (mkNode (-50) (-50 + 100 / 2) (100 / 2) (100 / 2) (Some 0%nat) 0 0 0))
    (Leaf (mkNode (-50 + 100 / 2) (-50 + 100 / 2) (100 / 2) (100 / 2)
                  (Some 1%nat) 0 0 0)).




(** Every planet at (1, 1). *)
Definition lone_planet : Store (Planet R) :=
  fun _ => mkPlanet 1 1 1 0 0 0 0 1.

End ExactSamples.

Section Binary64Samples.
Local Open Scope float_scope.

Definition pair_store64 : Store (CelestialBody float) :=
  fun p =>
    match p with
    | O => mkBody (-2) 0 0 0 16 1 0 0
    | _ => mkBody 2 0 0 0 16 1 0 0
    end.

Definition solar_root64 : QuadTreeNode float :=
  create_quadtree (-50) (-50) 100 100.

Definition coincident_store64 : Store (CelestialBody float) :=
  fun _ => mkBody 1 1 0 0 1 1 0 0.



(** Two bodies of mass 1 at distance 1. *)
Definition unit_pair64 : Store (CelestialBody float) :=
  fun p =>
    match p with
    | O => mkBody 0 0 0 0 1 1 0 0
    | _ => mkBody 1 0 0 0 1 1 0 0
    end.

Definition lone_planet64 : Store (Planet float) :=
  fun _ => mkPlanet 1 1 1 0 0 0 0 1.

End Binary64Samples.

Section Binary64LastPlace.
Local Open Scope float_scope.

(** Two bodies of mass 1 four units in the last place apart, at (-30, -30)
    and (-30 + 2^-46, -30), and a third one at (-30, 2); all inside the
    region of solar.c. *)
Definition near_trio64 : Store (CelestialBody float) :=
  fun p =>
    match p with
    | O => mkBody (-30) (-30) 0 0 1 1 0 0
    | S O => mkBody (-30 + 0x1p-46) (-30) 0 0 1 1 0 0
    | _ => mkBody (-30) 2 0 0 1 1 0 0
    end.





End Binary64LastPlace.

(** * The rest of the programs

    What the four programs do around the quadtree core: the Sun-only
    stepper of the planets program, the trajectory buffer every stepper
    fills, the asteroid tick of asteriod.c, the mouse controls of the main
    loops, the drawing routines and the initial conditions. *)

(** ** The Sun-only stepper of the planets program *)

Section SunOnly.
Context {F : Type} {AF : Arith F}.
Local Open Scope arith_scope.

(** [calculate_force] of the planets program: the pull of the Sun alone.
    The result is stored into [*fx], [*fy], not added to them.  [G] is the
    macro of that program. *)
Definition calculate_force (G : F) (planet sun : Planet F) : F * F :=
  let dx := p_x sun - p_x planet in
  let dy := p_y sun - p_y planet in
  let r_squared := dx * dx + dy * dy in
  if r_squared =? f0 then (f0, f0)
  else
    let r := fsqrt r_squared in
    let force := (G * p_mass planet * p_mass sun) / r_squared in
    (force * (dx / r), force * (dy / r)).

(** The body of the loop for [planets[i]]: the acceleration is stored, the
    velocity is advanced with it and the position with the new velocity. *)
Definition sun_step (G dt : F) (sun planet : Planet F) : Planet F :=
  let f := calculate_force G planet sun in
  integrate_planet
    (set_acceleration planet (fst f / p_mass planet) (snd f / p_mass planet))
    dt.

(** [for (i = 1; i < num_planets; i++) ...] with [sun = &planets[0]], read
    through the pointer at every round. *)
Fixpoint sun_forces_and_update (G dt : F) (ps : list ptr)
    (planets : Store (Planet F)) : Store (Planet F) :=
  match ps with
  | [] => planets
  | i :: ps' =>
    sun_forces_and_update G dt ps'
      (store_set planets i (sun_step G dt (planets 0) (planets i)))
  end.

End SunOnly.

(** ** The trajectory buffer *)

(** [int] is a 32-bit integer; an operation that leaves its range is
    undefined behaviour, which the embedding reports as [None]. *)
Definition INT_MAX : Z := 2147483647.
Definition INT_MIN : Z := -2147483648.

Definition MAX_TRAJECTORY_POINTS : Z := 1000.

(** The indices [0 .. n - 1] of a counting loop. *)
Definition indices (n : Z) : list Z := map Z.of_nat (seq 0 (Z.to_nat n)).

(** The last [n] elements of a list. *)
Definition last_points {A : Type} (n : nat) (l : list A) : list A :=
  skipn (length l - n) l.

Section Trajectories.
Context {F : Type}.
Local Open Scope Z_scope.

(** [trajectory_x], [trajectory_y], [trajectory_count] of a [Planet] (and of
    a [CelestialBody] in the second program of solar.c).  An array is the
    map from the index to the cell; the cells are those of the indices
    [0 .. MAX_TRAJECTORY_POINTS - 1]. *)
Record Trajectory : Type := mkTrajectory {
  trajectory_x : Z -> F;
  trajectory_y : Z -> F;
  trajectory_count : Z
}.

Definition in_array (j : Z) : bool :=
  (0 <=? j) && (j <? MAX_TRAJECTORY_POINTS).

(** [a[j]] and [a[j] = v]: an index outside the array is undefined
    behaviour. *)
Definition array_read (a : Z -> F) (j : Z) : option F :=
  if in_array j then Some (a j) else None.

Definition array_write (a : Z -> F) (j : Z) (v : F) : option (Z -> F) :=
  if in_array j then Some (fun k => if k =? j then v else a k) else None.

(** One round of the shift that discards the oldest point:
    [trajectory_x[j] = trajectory_x[j + 1]; trajectory_y[j] = trajectory_y[j + 1];] *)
Definition shift_step (t : Trajectory) (j : Z) : option Trajectory :=
  vx <- array_read (trajectory_x t) (j + 1) ;;
  tx <- array_write (trajectory_x t) j vx ;;
  vy <- array_read (trajectory_y t) (j + 1) ;;
  ty <- array_write (trajectory_y t) j vy ;;
  Some (mkTrajectory tx ty (trajectory_count t)).

Fixpoint shift_points (js : list Z) (t : Trajectory) : option Trajectory :=
  match js with
  | [] => Some t
  | j :: js' => t' <- shift_step t j ;; shift_points js' t'
  end.

(** The body of the trajectory loop for one planet at [(x, y)]. *)
Definition record_point (t : Trajectory) (x y : F) : option Trajectory :=
  if trajectory_count t <? MAX_TRAJECTORY_POINTS then
    tx <- array_write (trajectory_x t) (trajectory_count t) x ;;
    ty <- array_write (trajectory_y t) (trajectory_count t) y ;;
    Some (mkTrajectory tx ty (trajectory_count t + 1))
  else
    t1 <- shift_points (indices (MAX_TRAJECTORY_POINTS - 1)) t ;;
    tx <- array_write (trajectory_x t1) (MAX_TRAJECTORY_POINTS - 1) x ;;
    ty <- array_write (trajectory_y t1) (MAX_TRAJECTORY_POINTS - 1) y ;;
    Some (mkTrajectory tx ty (trajectory_count t1)).

(** The points a buffer holds, oldest first: what the renderer draws. *)
Definition recorded (t : Trajectory) : list (F * F) :=
  map (fun j => (trajectory_x t j, trajectory_y t j))
      (indices (trajectory_count t)).

(** A buffer of a zero-initialised global: no point recorded. *)
Definition empty_trajectory (zero : F) : Trajectory :=
  mkTrajectory (fun _ => zero) (fun _ => zero) 0.

(** The buffer's count is an index into it or one past its end. *)
Definition count_in_range (t : Trajectory) : Prop :=
  0 <= trajectory_count t <= MAX_TRAJECTORY_POINTS.

Context {AF : Arith F} {B : Type} {BB : Body F B}.

(** [for (i = 0; i < n; i++)] over the bodies, recording [bodies[i].x],
    [bodies[i].y]. *)
Fixpoint record_all (ps : list ptr) (bodies : Store B)
    (trs : Store Trajectory) : option (Store Trajectory) :=
  match ps with
  | [] => Some trs
  | i :: ps' =>
    t <- record_point (trs i) (pos_x (bodies i)) (pos_y (bodies i)) ;;
    record_all ps' bodies (store_set trs i t)
  end.

(** [if ( *frame_count % trajectory_interval == 0) { ... }].  The remainder
    by zero is undefined, and so is that of INT_MIN by -1. *)
Definition update_trajectories (frame_count trajectory_interval : Z)
    (ps : list ptr) (bodies : Store B) (trs : Store Trajectory)
  : option (Store Trajectory) :=
  if (trajectory_interval =? 0)
     || ((frame_count =? INT_MIN) && (trajectory_interval =? -1))
  then None
  else if Z.rem frame_count trajectory_interval =? 0
       then record_all ps bodies trs
       else Some trs.

(** [( *frame_count)++] *)
Definition next_frame (frame_count : Z) : option Z :=
  if frame_count <? INT_MAX then Some (frame_count + 1) else None.

End Trajectories.
Arguments Trajectory F : clear implicits.

(** What a stepper works on from one frame to the next: the bodies, their
    trajectory buffers and the frame counter of [main]. *)
Record Frame (F B : Type) : Type := mkFrame {
  frame_bodies : Store B;
  frame_trajectories : Store (Trajectory F);
  frame_count : Z
}.
Arguments mkFrame {F B}.
Arguments frame_bodies {F B}.
Arguments frame_trajectories {F B}.
Arguments frame_count {F B}.

Section Steppers.
Context {F : Type} {AF : Arith F}.
Local Open Scope arith_scope.

(** [update_simulation] of the planets program. *)
Definition update_simulation (G dt : F) (num_planets : nat)
    (trajectory_interval : Z) (s : Frame F (Planet F))
  : option (Frame F (Planet F)) :=
  let planets :=
    sun_forces_and_update G dt (seq 1 (num_planets - 1)) (frame_bodies s) in
  trs <- update_trajectories (frame_count s) trajectory_interval
           (seq 0 num_planets) planets (frame_trajectories s) ;;
  fc <- next_frame (frame_count s) ;;
  Some (mkFrame planets trs fc).

(** [update_simulation_barnes_hut] of the barnes_hut unit, whole: the three
    loops of [bh_update_simulation], then the trajectories and the frame
    counter. *)
Definition bh_update_simulation_frame (fuel : nat) (G theta dt : F)
    (num_planets : nat) (trajectory_interval : Z) (s : Frame F (Planet F))
  : option (Frame F (Planet F)) :=
  planets <- bh_update_simulation fuel G theta dt (frame_bodies s) num_planets ;;
  trs <- update_trajectories (frame_count s) trajectory_interval
           (seq 0 num_planets) planets (frame_trajectories s) ;;
  fc <- next_frame (frame_count s) ;;
  Some (mkFrame planets trs fc).

(** [n] calls of a stepper in a row, as the main loop makes them. *)
Fixpoint run_frames {S : Type} (step : S -> option S) (n : nat) (s : S)
  : option S :=
  match n with
  | O => Some s
  | S n' => s' <- step s ;; run_frames step n' s'
  end.

End Steppers.

(** ** Sums over the bodies *)

Section Sums.
Context {F : Type} {AF : Arith F} {B : Type} {BB : Body F B}.
Local Open Scope arith_scope.

(** The first moment of the bodies [ps] along one axis: the sum of
    [mass * coordinate]. *)
Definition moment_sum (coord : B -> F) (st : Store B) (ps : list ptr) : F :=
  fold_right (fun p s => mass_of (st p) * coord (st p) + s) f0 ps.

(** The sum of [f p] over the bodies [ps]. *)
Definition sum_list (f : ptr -> F) (ps : list ptr) : F :=
  fold_right (fun p s => f p + s) f0 ps.

End Sums.

(** ** Initial conditions

    The initial conditions call [sqrt], [cos], [sin] and [rand]; they are
    embedded in exact arithmetic, where a decimal literal is the rational it
    denotes and [M_PI] is the number pi.  The values that [rand] returns are
    an input: [rands k] is the result of the [k]-th call, and
    [(double)rand() / RAND_MAX] is [unit_rand]. *)

Section InitialConditions.
Local Open Scope R_scope.

Definition NUM_PLANETS : nat := 9.
Definition NUM_ASTEROIDS : nat := 200.
Definition MAX_BODIES : nat := NUM_PLANETS + NUM_ASTEROIDS.

(** The tables shared by the four programs ([masses] is [planet_masses] in
    the second program of solar.c). *)
Definition semi_major_axes : list R :=
  [0; 0.387; 0.723; 1; 1.524; 5.203; 9.539; 19.191; 30.069].

Definition masses : list R :=
  [1; 1.659e-7; 2.447e-6; 3.003e-6; 3.227e-7; 9.545e-4; 2.856e-4; 4.365e-5;
   5.127e-5].

(** [initialize_planets] of the planets program and of asteriod.c, the
    planet [i]. *)
Definition initialize_planets (i : nat) : Planet R :=
  mkPlanet (nth i masses 0) (nth i semi_major_axes 0) 0 0
           (if Nat.eqb i 0 then 0 else sqrt (1 / nth i semi_major_axes 0))
           0 0 15.

Definition unit_rand (RAND_MAX rand : Z) : R := IZR rand / IZR RAND_MAX.

(** One round of [initialize_asteroids] of the first program of solar.c,
    with the results of its two calls of [rand]. *)
Definition initialize_asteroid (G : R) (RAND_MAX rand1 rand2 : Z)
  : CelestialBody R :=
  let r := 2 + unit_rand RAND_MAX rand1 * 2.5 in
  let angle := unit_rand RAND_MAX rand2 * 2 * PI in
  let v_orbital := sqrt (G / r) in
  mkBody (r * cos angle) (r * sin angle)
         (- v_orbital * sin angle) (v_orbital * cos angle)
         1e-8 2 0 0.

(** [initialize_asteroids]: the array it fills, from the array as it was. *)
Definition initialize_asteroids (G : R) (RAND_MAX : Z) (rands : nat -> Z)
    (asteroids : Store (CelestialBody R)) : Store (CelestialBody R) :=
  fun i =>
    if Nat.ltb i NUM_ASTEROIDS
    then initialize_asteroid G RAND_MAX (rands (2 * i)%nat) (rands (2 * i + 1)%nat)
    else asteroids i.

(** [initialize_simulation] of the second program of solar.c.  Its
    [CelestialBody] has a name, a colour and a trajectory buffer where that
    of the first program has [fx], [fy]; the two fields are left as they
    were. *)
Definition initialize_simulation_planet (G SIMULATION_SCALE sun_mass : R)
    (old : CelestialBody R) (i : nat) : CelestialBody R :=
  mkBody (nth i semi_major_axes 0) 0 0
         (if Nat.eqb i 0 then 0
          else sqrt (G * SIMULATION_SCALE * sun_mass
                     / nth i semi_major_axes 0))
         (nth i masses 0) (if Nat.eqb i 0 then 25 else 15) (fx old) (fy old).

(** The asteroid written in one round of the second loop; its five calls of
    [rand] give the radius, the angle, the mass, the variation of the
    velocity and the shade of grey. *)
Definition initialize_simulation_asteroid (G SIMULATION_SCALE : R)
    (RAND_MAX : Z) (sun_mass : R) (old : CelestialBody R)
    (rand1 rand2 rand3 rand4 : Z) : CelestialBody R :=
  let inner_radius := 2.2 in
  let outer_radius := 3.2 in
  let radius := inner_radius
                + (outer_radius - inner_radius) * unit_rand RAND_MAX rand1 in
  let angle := 2 * PI * unit_rand RAND_MAX rand2 in
  let mass := 1e-10 + 1e-9 * unit_rand RAND_MAX rand3 in
  let v_orbital := sqrt (G * SIMULATION_SCALE * sun_mass / radius) in
  let variation := 0.95 + 0.1 * unit_rand RAND_MAX rand4 in
  mkBody (radius * cos angle) (radius * sin angle)
         (- v_orbital * variation * sin angle)
         (v_orbital * variation * cos angle)
         mass 3 (fx old) (fy old).

(** [for (i = 0; i < NUM_PLANETS; i++) { ...; ( *body_count)++; }]; the
    velocity of a planet reads [bodies[0].mass], written in the first
    round. *)
Fixpoint initialize_simulation_planets (G SIMULATION_SCALE : R)
    (rounds : list nat) (bodies : Store (CelestialBody R)) (body_count : nat)
  : Store (CelestialBody R) * nat :=
  match rounds with
  | [] => (bodies, body_count)
  | i :: rounds' =>
    initialize_simulation_planets G SIMULATION_SCALE rounds'
      (store_set bodies i
         (initialize_simulation_planet G SIMULATION_SCALE
            (mass (bodies 0%nat)) (bodies i) i))
      (S body_count)
  end.

(** [for (i = 0; i < NUM_ASTEROIDS && *body_count < MAX_BODIES; i++)]: the
    rounds from [i] on, [todo] of them left. *)
Fixpoint initialize_simulation_asteroids (G SIMULATION_SCALE : R)
    (RAND_MAX : Z) (rands : nat -> Z) (todo i : nat)
    (bodies : Store (CelestialBody R)) (body_count : nat)
  : Store (CelestialBody R) * nat :=
  match todo with
  | O => (bodies, body_count)
  | S todo' =>
    if Nat.ltb body_count MAX_BODIES then
      let idx := body_count in
      initialize_simulation_asteroids G SIMULATION_SCALE RAND_MAX rands
        todo' (S i)
        (store_set bodies idx
           (initialize_simulation_asteroid G SIMULATION_SCALE RAND_MAX
              (mass (bodies 0%nat)) (bodies idx)
              (rands (5 * i)%nat) (rands (5 * i + 1)%nat)
              (rands (5 * i + 2)%nat) (rands (5 * i + 3)%nat)))
        (S body_count)
    else (bodies, body_count)
  end.

Definition initialize_simulation (G SIMULATION_SCALE : R) (RAND_MAX : Z)
    (rands : nat -> Z) (bodies : Store (CelestialBody R)) (body_count : nat)
  : Store (CelestialBody R) * nat :=
  let '(bodies1, body_count1) :=
    initialize_simulation_planets G SIMULATION_SCALE (seq 0 NUM_PLANETS)
      bodies body_count in
  initialize_simulation_asteroids G SIMULATION_SCALE RAND_MAX rands
    NUM_ASTEROIDS 0 bodies1 body_count1.

End InitialConditions.

(** ** The asteroid tick of asteriod.c *)

Section AsteroidTick.
Context {F : Type} {AF : Arith F}.
Local Open Scope arith_scope.

(** [planetBodies[i]]: the [CelestialBody] allocated for a planet and
    filled from it. *)
Definition planet_body (p : Planet F) : CelestialBody F :=
  mkBody (p_x p) (p_y p) (p_vx p) (p_vy p) (p_mass p) (p_radius p) f0 f0.

(** The bodies the tree of asteriod.c points to.  The pointer [q] below
    [num_planets] is [planetBodies[q]], a copy; the pointer
    [num_planets + k] is [&asteroids[k]], the cell of the global array. *)
Definition asteroid_tick_store (planets : Store (Planet F)) (num_planets : nat)
    (asteroids : Store (CelestialBody F)) : Store (CelestialBody F) :=
  fun q =>
    if Nat.ltb q num_planets then planet_body (planets q)
    else asteroids (q - num_planets)%nat.

(** The arguments [log_asteroid_data] hands to [fprintf]: time, position,
    velocity, force and the magnitude of the force. *)
Definition log_asteroid_data (asteroid : CelestialBody F) (time : F) : list F :=
  let force_mag := fsqrt (fx asteroid * fx asteroid + fy asteroid * fy asteroid) in
  [time; x asteroid; y asteroid; vx asteroid; vy asteroid;
   fx asteroid; fy asteroid; force_mag].

(** "For each asteroid, calculate the total gravitational force from the
    quad tree, update its state, and log its data": the store and the rows
    written to the log file so far. *)
Fixpoint force_update_and_log (G theta dt current_time : F)
    (root : QuadTreeNode F) (ps : list ptr) (st : Store (CelestialBody F))
    (log : list (list F)) : option (Store (CelestialBody F) * list (list F)) :=
  match ps with
  | [] => Some (st, log)
  | i :: ps' =>
    f <- calculate_force_unguarded G st i root theta (f0, f0) ;;
    let b := update_body (st i) (fst f) (snd f) dt in
    force_update_and_log G theta dt current_time root ps'
      (store_set st i b) (log ++ [log_asteroid_data b current_time])
  end.

(** [update_asteroids_with_quadtree]; [region] is SIMULATION_REGION and
    [num_asteroids] is NUM_ASTEROIDS.  The planets are inserted first, then
    the asteroids; the result is the [asteroids] array and the rows
    logged. *)
Definition update_asteroids_with_quadtree (fuel : nat)
    (G theta region dt current_time : F) (num_asteroids : nat)
    (planets : Store (Planet F)) (num_planets : nat)
    (asteroids : Store (CelestialBody F))
  : option (Store (CelestialBody F) * list (list F)) :=
  let st := asteroid_tick_store planets num_planets asteroids in
  root <- insert_all fuel st
            (create_quadtree (- region) (- region) (f2 * region) (f2 * region))
            (seq 0 (num_planets + num_asteroids)) ;;
  r <- force_update_and_log G theta dt current_time
         (calculate_center_of_mass st root) (seq num_planets num_asteroids)
         st [] ;;
  Some (fun k => if Nat.ltb k num_asteroids then fst r (num_planets + k)%nat
                 else asteroids k,
        snd r).

End AsteroidTick.

(** ** The mouse controls of the main loops *)

Definition WIDTH : Z := 2400.
Definition HEIGHT : Z := 2400.

Section Controls.
Context {F : Type} {AF : Arith F}.
Local Open Scope arith_scope.

(** The two quantities of [main] that a click changes. *)
Record View : Type := mkView {
  pixels_per_AU : F;
  view_dt : F                     (* dt *)
}.

(** The constants of [main]. *)
Record Controls : Type := mkControls {
  zoom_step : F; min_zoom : F; max_zoom : F;
  dt_step : F; min_dt : F; max_dt : F
}.

(** [x >= WIDTH - 100 && x <= WIDTH - 50 && y >= top && y <= bottom] *)
Definition in_button (x y top bottom : Z) : bool :=
  ((WIDTH - 100 <=? x) && (x <=? WIDTH - 50) && (top <=? y) && (y <=? bottom))%Z.

Definition zoom_in (c : Controls) (v : View) : View :=
  let z := pixels_per_AU v + zoom_step c in
  mkView (if max_zoom c <? z then max_zoom c else z) (view_dt v).

Definition zoom_out (c : Controls) (v : View) : View :=
  let z := pixels_per_AU v - zoom_step c in
  mkView (if z <? min_zoom c then min_zoom c else z) (view_dt v).

Definition dt_up (c : Controls) (v : View) : View :=
  let d := view_dt v + dt_step c in
  mkView (pixels_per_AU v) (if max_dt c <? d then max_dt c else d).

Definition dt_down (c : Controls) (v : View) : View :=
  let d := view_dt v - dt_step c in
  mkView (pixels_per_AU v) (if d <? min_dt c then min_dt c else d).

(** The SDL_MOUSEBUTTONDOWN branch of the planets program and of the first
    program of solar.c: two [if ... else if] in a row. *)
Definition handle_click (c : Controls) (x y : Z) (v : View) : View :=
  let v1 :=
    if in_button x y 20 60 then zoom_in c v
    else if in_button x y 80 120 then zoom_out c v
    else v in
  if in_button x y 200 240 then dt_up c v1
  else if in_button x y 260 300 then dt_down c v1
  else v1.

(** The same branch in the second program of solar.c: the test on [x] is
    made first, the tests on [y] inside it. *)
Definition handle_click_nested (c : Controls) (x y : Z) (v : View) : View :=
  let in_column := ((WIDTH - 100 <=? x) && (x <=? WIDTH - 50))%Z in
  let v1 :=
    if in_column then
      if ((20 <=? y) && (y <=? 60))%Z then zoom_in c v
      else if ((80 <=? y) && (y <=? 120))%Z then zoom_out c v
      else v
    else v in
  if in_column then
    if ((200 <=? y) && (y <=? 240))%Z then dt_up c v1
    else if ((260 <=? y) && (y <=? 300))%Z then dt_down c v1
    else v1
  else v1.

(** Both quantities within the limits of [main]. *)
Definition view_in_range (c : Controls) (v : View) : Prop :=
  (min_zoom c <=? pixels_per_AU v) = true /\
  (pixels_per_AU v <=? max_zoom c) = true /\
  (min_dt c <=? view_dt v) = true /\
  (view_dt v <=? max_dt c) = true.

End Controls.
Arguments View F : clear implicits.
Arguments Controls F : clear implicits.

(** ** Drawing *)

Section Drawing.
Local Open Scope Z_scope.

(** The values of [for (v = lo; v <= hi; v++)]. *)
Definition from_to (lo hi : Z) : list Z :=
  map (fun k => lo + Z.of_nat k) (seq 0 (Z.to_nat (hi - lo + 1))).

(** An expression of type [int]: its value when that lies in the range of
    [int]; an overflow is undefined behaviour, reported as [None]. *)
Definition int_value (z : Z) : option Z :=
  if (INT_MIN <=? z) && (z <=? INT_MAX) then Some z else None.

(** The rounds of a drawing loop, in order: the points each round hands to
    [SDL_RenderDrawPoint]. *)
Fixpoint draw_rounds (round : Z -> option (list (Z * Z))) (vs : list Z)
  : option (list (Z * Z)) :=
  match vs with
  | [] => Some []
  | v :: vs' =>
    drawn <- round v ;;
    rest <- draw_rounds round vs' ;;
    Some (drawn ++ rest)
  end.

(** [for (int v = lo; v <= hi; v++) round(v)].  After the round of [hi]
    the counter is incremented once more, which overflows when [hi] is
    INT_MAX. *)
Definition for_int (lo hi : Z) (round : Z -> option (list (Z * Z)))
  : option (list (Z * Z)) :=
  if (lo <=? hi) && (INT_MAX <=? hi) then None
  else draw_rounds round (from_to lo hi).

(** [draw_circle_border]: the points handed to [SDL_RenderDrawPoint], in
    the order of the two loops.  The second comparison is evaluated only
    when the first holds. *)
Definition draw_circle_border (cx cy radius border_thickness : Z)
  : option (list (Z * Z)) :=
  y_lo <- int_value (cy - radius) ;;
  y_hi <- int_value (cy + radius) ;;
  for_int y_lo y_hi
    (fun y =>
       x_lo <- int_value (cx - radius) ;;
       x_hi <- int_value (cx + radius) ;;
       for_int x_lo x_hi
         (fun x =>
            dx <- int_value (x - cx) ;;
            dx2 <- int_value (dx * dx) ;;
            dy <- int_value (y - cy) ;;
            dy2 <- int_value (dy * dy) ;;
            dist_sq <- int_value (dx2 + dy2) ;;
            inner <- int_value (radius - border_thickness) ;;
            inner2 <- int_value (inner * inner) ;;
            if inner2 <=? dist_sq then
              outer2 <- int_value (radius * radius) ;;
              Some (if dist_sq <=? outer2 then [(x, y)] else [])
            else Some [])).

(** [draw_circle] of the first program of solar.c, and the loops that draw
    an asteroid as a disc in [render_bodies] of the second. *)
Definition draw_circle (cx cy radius : Z) : option (list (Z * Z)) :=
  y_lo <- int_value (- radius) ;;
  for_int y_lo radius
    (fun y =>
       x_lo <- int_value (- radius) ;;
       for_int x_lo radius
         (fun x =>
            x2 <- int_value (x * x) ;;
            y2 <- int_value (y * y) ;;
            dist_sq <- int_value (x2 + y2) ;;
            outer2 <- int_value (radius * radius) ;;
            if dist_sq <=? outer2 then
              px <- int_value (cx + x) ;;
              py <- int_value (cy + y) ;;
              Some [(px, py)]
            else Some [])).

(** What [render_bodies] of the second program of solar.c draws for one
    body, from its screen position: nothing when the body is outside the
    visible area with its margin, a border for a planet, a disc for an
    asteroid.  The four tests are joined by [||] and evaluated in order. *)
Definition render_body (is_planet : bool) (screen_x screen_y radius : Z)
  : option (list (Z * Z)) :=
  left <- int_value (- radius) ;;
  if screen_x <? left then Some []
  else
    right <- int_value (WIDTH + radius) ;;
    if right <=? screen_x then Some []
    else
      top <- int_value (- radius) ;;
      if screen_y <? top then Some []
      else
        bottom <- int_value (HEIGHT + radius) ;;
        if bottom <=? screen_y then Some []
        else if is_planet then draw_circle_border screen_x screen_y radius 2
             else draw_circle screen_x screen_y radius.

(** A point of the window. *)
Definition on_screen (p : Z * Z) : Prop :=
  0 <= fst p < WIDTH /\ 0 <= snd p < HEIGHT.

(** Arguments far from the limits of [int]: a position within a thousand
    million and a length within ten thousand. *)
Definition position_in_range (v : Z) : Prop :=
  -1000000000 <= v <= 1000000000.

Definition length_in_range (v : Z) : Prop :=
  -10000 <= v <= 10000.

(** The colour of an asteroid in [initialize_simulation], from the result
    of its call of [rand]: [gray = 150 + (rand() % 80)], packed as
    [(gray << 16) | (gray << 8) | gray]. *)
Definition asteroid_color (rand : Z) : Z :=
  let gray := 150 + Z.rem rand 80 in
  Z.lor (Z.lor (Z.shiftl gray 16) (Z.shiftl gray 8)) gray.

(** The channels the renderers extract from a colour:
    [(color >> 16) & 0xFF], [(color >> 8) & 0xFF], [color & 0xFF]. *)
Definition color_channels (color : Z) : Z * Z * Z :=
  (Z.land (Z.shiftr color 16) 255, Z.land (Z.shiftr color 8) 255,
   Z.land color 255).

End Drawing.

(** ** More sample inputs *)

Section MoreSamples.
Local Open Scope float_scope.

(** Two planets of mass 16 at (-2, 0) and (2, 0). *)
Definition pair_planets64 : Store (Planet float) :=
  fun p =>
    match p with
    | O => mkPlanet 16 (-2) 0 0 0 0 0 1
    | _ => mkPlanet 16 2 0 0 0 0 0 1
    end.

End MoreSamples.

(** The frame the planets program would start from with two planets: no
    point recorded, frame 0. *)
Definition pair_frame64 : Frame float (Planet float) :=
  mkFrame pair_planets64 (fun _ => empty_trajectory 0%float) 0%Z.

(** A zero-initialised global array of bodies, and a [rand] that returns 0
    at every call. *)
Definition zeroed_bodies : Store (CelestialBody R) :=
  fun _ => mkBody 0%R 0%R 0%R 0%R 0%R 0%R 0%R 0%R.

Definition zero_rands : nat -> Z := fun _ => 0%Z.

(** Two asteroids of mass 1e-6 at (10, 5) and (-10, -7), at rest. *)
Definition two_asteroids64 : Store (CelestialBody float) :=
  fun k =>
    match k with
    | O => mkBody 10%float 5%float 0%float 0%float 1e-6%float 2%float
                  0%float 0%float
    | _ => mkBody (-10)%float (-7)%float 0%float 0%float 1e-6%float 2%float
                  0%float 0%float
    end.

(** The constants and the initial values of [main]. *)
Definition main_controls : Controls R :=
  mkControls 20%R 40%R 400%R 0.001%R 0.0001%R 0.1%R.

Definition main_view : View R := mkView 120%R 0.001%R.

(** * Properties *)

(** ** Facts that hold in every arithmetic *)

Section AnyArithmetic.
Context {F : Type} {AF : Arith F} {B : Type} {BB : Body F B}.

Lemma insert_body_out_of_bounds (fuel : nat) (st : Store B)
    (node : QuadTreeNode F) (b : ptr) :
  is_in_bounds st (data node) b = false ->
  insert_body (S fuel) st node b = Some node.
Proof.
  intros Hout. destruct node; simpl in *; rewrite Hout; reflexivity.
Qed.




(** One call of [insert_body], unfolded. *)
Lemma insert_body_S (fuel : nat) (st : Store B) (node : QuadTreeNode F)
    (b : ptr) :
  insert_body (S fuel) st node b =
  if negb (is_in_bounds st (data node) b) then Some node
  else
    match node with
    | Leaf d =>
      match body d with
      | None => Some (Leaf (set_body d (Some b)))
      | Some existing_body =>
        let '(nw, ne, sw, se) := subdivide d in
        let d' := set_body d None in
        node' <- insert_into_quadrant (insert_body fuel st) st d'
                   nw ne sw se existing_body ;;
        match node' with
        | Internal d1 nw1 ne1 sw1 se1 =>
          insert_into_quadrant (insert_body fuel st) st d1 nw1 ne1 sw1 se1 b
        | Leaf _ => Some node'
        end
      end
    | Internal d nw ne sw se =>
      insert_into_quadrant (insert_body fuel st) st d nw ne sw se b
    end.
Proof. reflexivity. Qed.

Lemma insert_into_quadrant_mono
    (rec1 rec2 : QuadTreeNode F -> ptr -> option (QuadTreeNode F))
    (st : Store B) (d : NodeData F) (nw ne sw se : QuadTreeNode F) (b : ptr)
    (t : QuadTreeNode F) :
  (forall c c', rec1 c b = Some c' -> rec2 c b = Some c') ->
  insert_into_quadrant rec1 st d nw ne sw se b = Some t ->
  insert_into_quadrant rec2 st d nw ne sw se b = Some t.
Proof.
  unfold insert_into_quadrant. intros H.
  destruct (rec1 (child (get_quadrant st d b) nw ne sw se) b) as [c|] eqn:E;
    [|discriminate].
  now rewrite (H _ _ E).
Qed.

(** A deeper stack changes no result. *)
Lemma insert_body_fuel_S (fuel : nat) (st : Store B) :
  forall (t : QuadTreeNode F) (b : ptr) (t' : QuadTreeNode F),
    insert_body fuel st t b = Some t' ->
    insert_body (S fuel) st t b = Some t'.
Proof.
  induction fuel as [|fuel IH]; intros t b t' H; [discriminate|].
  rewrite insert_body_S in H. rewrite insert_body_S.
  destruct (negb (is_in_bounds st (data t) b)); [exact H|].
  destruct t as [d | d nw ne sw se].
  - destruct (body d) as [e|]; [|exact H].
    destruct (subdivide d) as [[[a0 a1] a2] a3]. cbv zeta in H |- *.
    destruct (insert_into_quadrant (insert_body fuel st) st (set_body d None)
                a0 a1 a2 a3 e) as [node'|] eqn:E1; [|discriminate].
    rewrite (insert_into_quadrant_mono _ (insert_body (S fuel) st) _ _ _ _ _ _ _ _
               (fun c c' => IH c e c') E1).
    cbn [bind] in H |- *.
    destruct node' as [d1 | d1 nw1 ne1 sw1 se1]; [exact H|].
    exact (insert_into_quadrant_mono _ _ _ _ _ _ _ _ _ _ (fun c c' => IH c b c') H).
  - exact (insert_into_quadrant_mono _ _ _ _ _ _ _ _ _ _ (fun c c' => IH c b c') H).
Qed.

Lemma insert_body_fuel_le (st : Store B) (fuel fuel' : nat)
    (t : QuadTreeNode F) (b : ptr) (t' : QuadTreeNode F) :
  fuel <= fuel' ->
  insert_body fuel st t b = Some t' ->
  insert_body fuel' st t b = Some t'.
Proof.
  induction 1 as [|m Hle IH]; intros Hi; [exact Hi|].
  apply insert_body_fuel_S. auto.
Qed.

Lemma insert_all_fuel_le (st : Store B) (fuel fuel' : nat) (ps : list ptr) :
  fuel <= fuel' ->
  forall (root t : QuadTreeNode F),
    insert_all fuel st root ps = Some t ->
    insert_all fuel' st root ps = Some t.
Proof.
  intros Hle. induction ps as [|p ps IH]; intros root t H; [exact H|].
  cbn [insert_all] in H |- *.
  destruct (insert_body fuel st root p) as [root'|] eqn:E; [|discriminate].
  rewrite (insert_body_fuel_le st _ _ _ _ _ Hle E). cbn [bind] in H |- *. auto.
Qed.

Lemma child_set_child (q q' : Quadrant) (c : QuadTreeNode F) (d : NodeData F)
    (nw ne sw se : QuadTreeNode F) :
  exists nw' ne' sw' se',
    set_child q' c d nw ne sw se = Internal d nw' ne' sw' se' /\
    child q' nw' ne' sw' se' = c /\
    (q <> q' -> child q nw' ne' sw' se' = child q nw ne sw se).
Proof.
  destruct q'; cbn [set_child]; do 4 eexists; (split; [reflexivity|]);
    (split; [reflexivity|]); destruct q; intros H; try reflexivity;
    contradiction H; reflexivity.
Qed.

End AnyArithmetic.

Section AnyInsertion.
Context {F : Type} {AF : Arith F} {B : Type} {BB : Body F B}.
Variable st : Store B.

Local Ltac count_lia := unfold ptr in *; lia.

Lemma held_internal (d : NodeData F) (nw ne sw se : QuadTreeNode F) (p : ptr) :
  body d = None ->
  held (Internal d nw ne sw se) p = held nw p + held ne p + held sw p + held se p.
Proof.
  intros Hb. unfold held. cbn [bodies_of]. rewrite Hb. cbn [app].
  rewrite !count_occ_app. count_lia.
Qed.


Lemma insert_into_quadrant_keeps
    (rec : QuadTreeNode F -> ptr -> option (QuadTreeNode F))
    (d : NodeData F) (nw ne sw se : QuadTreeNode F) (b : ptr)
    (t' : QuadTreeNode F) :
  (forall c c', bodies_in_leaves st c -> rec c b = Some c' -> insert_keeps st c b c') ->
  bodies_in_leaves st (Internal d nw ne sw se) ->
  insert_into_quadrant rec st d nw ne sw se b = Some t' ->
  exists nw' ne' sw' se',
    t' = Internal d nw' ne' sw' se' /\
    bodies_in_leaves st t' /\
    (forall p, held t' p
               <= held (Internal d nw ne sw se) p
                  + (if Nat.eq_dec b p then 1 else 0)).
Proof.
  intros Hrec (Hb & Lnw & Lne & Lsw & Lse) Hins.
  unfold insert_into_quadrant in Hins.
  destruct (get_quadrant st d b); cbn [child set_child] in Hins;
    match type of Hins with
    | context [rec ?c b] =>
      destruct (rec c b) as [c'|] eqn:Hr; cbn [bind] in Hins; [|discriminate]
    end;
    inversion Hins; subst t'; clear Hins;
    match type of Hr with
    | rec ?c b = _ =>
      assert (Hc : bodies_in_leaves st c) by assumption;
      destruct (Hrec _ _ Hc Hr) as (Lc & _ & Cc & _)
    end;
    do 4 eexists; (split; [reflexivity|]);
    (split; [cbn [bodies_in_leaves]; auto|]);
    intros p; specialize (Cc p); rewrite !held_internal by assumption; count_lia.
Qed.

Lemma insert_body_keeps (fuel : nat) :
  forall (t : QuadTreeNode F) (b : ptr) (t' : QuadTreeNode F),
    bodies_in_leaves st t ->
    insert_body fuel st t b = Some t' ->
    insert_keeps st t b t'.
Proof.
  induction fuel as [|fuel IH]; intros t b t' Hl Hins; [discriminate|].
  rewrite insert_body_S in Hins.
  destruct (is_in_bounds st (data t) b) eqn:Hin; cbn [negb] in Hins.
  2:{ inversion Hins; subst t'. split; [exact Hl|].
      split; [repeat split|]. split; [intros p; count_lia|reflexivity]. }
  destruct t as [d | d nw ne sw se]; unfold insert_keeps; cbn [data] in Hin |- *.
  - destruct (body d) as [e|] eqn:Hbody.
    + destruct (subdivide d) as [[[a0 a1] a2] a3] eqn:Hsub. cbv zeta in Hins.
      assert (Hl1 : bodies_in_leaves st (Internal (set_body d None) a0 a1 a2 a3)).
      { unfold subdivide in Hsub. inversion Hsub; subst.
        cbn [bodies_in_leaves set_body create_quadtree body]. auto. }
      assert (Hnone : forall p,
                 held (Internal (set_body d None) a0 a1 a2 a3) p = 0).
      { intros p. unfold subdivide in Hsub. inversion Hsub; subst. reflexivity. }
      destruct (insert_into_quadrant (insert_body fuel st) st (set_body d None)
                  a0 a1 a2 a3 e) as [node'|] eqn:H1;
        cbn [bind] in Hins; [|discriminate].
      destruct (insert_into_quadrant_keeps _ _ _ _ _ _ _ _
                  (fun c c' => IH c e c') Hl1 H1)
        as (nw1 & ne1 & sw1 & se1 & -> & L1 & C1).
      destruct (insert_into_quadrant_keeps _ _ _ _ _ _ _ _
                  (fun c c' => IH c b c') L1 Hins)
        as (nw2 & ne2 & sw2 & se2 & -> & L2 & C2).
      split; [exact L2|]. split; [repeat split|].
      split; [|intros; congruence].
      intros p. specialize (C1 p). specialize (C2 p). rewrite Hnone in C1.
      unfold held at 2. cbn [bodies_of]. rewrite Hbody. cbn [count_occ].
      destruct (Nat.eq_dec e p); destruct (Nat.eq_dec b p); count_lia.
    + inversion Hins; subst t'.
      split; [cbn [bodies_in_leaves set_body body]; exact Hin|].
      split; [repeat split|]. split; [|intros; congruence].
      intros p. unfold held. cbn [bodies_of set_body body]. rewrite Hbody.
      cbn [count_occ]. destruct (Nat.eq_dec b p); count_lia.
  - destruct (insert_into_quadrant_keeps _ _ _ _ _ _ _ _
                (fun c c' => IH c b c') Hl Hins)
      as (nw' & ne' & sw' & se' & -> & L & C).
    split; [exact L|]. split; [repeat split|].
    split; [exact C|intros; congruence].
Qed.

Lemma is_in_bounds_any_same_box (d d' : NodeData F) (b : ptr) :
  same_box d d' -> is_in_bounds st d b = is_in_bounds st d' b.
Proof.
  intros (Hx & Hy & Hw & Hh). unfold is_in_bounds. now rewrite Hx, Hy, Hw, Hh.
Qed.

(** The insertion loop in every arithmetic. *)
Lemma insert_all_keeps (fuel : nat) (ps : list ptr) :
  forall (root t : QuadTreeNode F),
    bodies_in_leaves st root ->
    insert_all fuel st root ps = Some t ->
    bodies_in_leaves st t /\ same_box (data t) (data root) /\
    (forall p, held t p
               <= held root p
                  + count_occ Nat.eq_dec
                      (filter (is_in_bounds st (data root)) ps) p).
Proof.
  induction ps as [|q ps IH]; intros root t Hl Hall; cbn [insert_all] in Hall.
  - inversion Hall; subst. split; [exact Hl|]. split; [repeat split|].
    intros p. cbn [filter count_occ]. count_lia.
  - destruct (insert_body fuel st root q) as [root'|] eqn:H1;
      cbn [bind] in Hall; [|discriminate].
    destruct (insert_body_keeps _ _ _ _ Hl H1) as (L1 & B1 & C1 & E1).
    destruct (IH _ _ L1 Hall) as (L & Bx & C).
    split; [exact L|].
    split.
    { destruct Bx as (?&?&?&?), B1 as (?&?&?&?). repeat split; congruence. }
    intros p. specialize (C p). specialize (C1 p).
    assert (Hf : filter (is_in_bounds st (data root')) ps =
                 filter (is_in_bounds st (data root)) ps).
    { apply filter_ext. intros a. apply is_in_bounds_any_same_box, B1. }
    rewrite Hf in C. cbn [filter].
    destruct (is_in_bounds st (data root) q) eqn:Hin.
    + cbn [count_occ]. destruct (Nat.eq_dec q p); count_lia.
    + rewrite (E1 eq_refl) in C. count_lia.
Qed.

End AnyInsertion.

Section AnySelf.
Context {F : Type} {AF : Arith F} {B : Type} {BB : Body F B}.



End AnySelf.

Section AnySelection.
Context {F : Type} {AF : Arith F} {B : Type} {BB : Body F B}.


End AnySelection.

(** ** Exact arithmetic *)

Lemma R_ltb_lt (a b : R) : (a < b)%R -> R_ltb a b = true.
Proof. intros H. unfold R_ltb. destruct (Rlt_dec a b); [reflexivity|contradiction]. Qed.

Lemma R_ltb_ge (a b : R) : (b <= a)%R -> R_ltb a b = false.
Proof. intros H. unfold R_ltb. destruct (Rlt_dec a b); [lra|reflexivity]. Qed.

Lemma R_leb_le (a b : R) : (a <= b)%R -> R_leb a b = true.
Proof. intros H. unfold R_leb. destruct (Rle_dec a b); [reflexivity|contradiction]. Qed.

Lemma R_leb_gt (a b : R) : (b < a)%R -> R_leb a b = false.
Proof. intros H. unfold R_leb. destruct (Rle_dec a b); [lra|reflexivity]. Qed.

Lemma R_eqb_eq (a b : R) : a = b -> R_eqb a b = true.
Proof. intros H. unfold R_eqb. destruct (Req_dec_T a b); [reflexivity|contradiction]. Qed.

Lemma R_eqb_neq (a b : R) : a <> b -> R_eqb a b = false.
Proof. intros H. unfold R_eqb. destruct (Req_dec_T a b); [contradiction|reflexivity]. Qed.

Lemma R_ltb_true_iff (a b : R) : R_ltb a b = true <-> (a < b)%R.
Proof. unfold R_ltb. destruct (Rlt_dec a b); split; auto; discriminate. Qed.

Lemma R_ltb_false_iff (a b : R) : R_ltb a b = false <-> (b <= a)%R.
Proof. unfold R_ltb. destruct (Rlt_dec a b); split; auto; try discriminate; lra. Qed.

Lemma R_leb_true_iff (a b : R) : R_leb a b = true <-> (a <= b)%R.
Proof. unfold R_leb. destruct (Rle_dec a b); split; auto; discriminate. Qed.

Lemma R_leb_false_iff (a b : R) : R_leb a b = false <-> (b < a)%R.
Proof. unfold R_leb. destruct (Rle_dec a b); split; auto; try discriminate; lra. Qed.

Lemma R_eqb_true_iff (a b : R) : R_eqb a b = true <-> a = b.
Proof. unfold R_eqb. destruct (Req_dec_T a b); split; auto; discriminate. Qed.

Lemma R_eqb_false_iff (a b : R) : R_eqb a b = false <-> a <> b.
Proof. unfold R_eqb. destruct (Req_dec_T a b); split; auto; try discriminate; contradiction. Qed.

(** Turns the comparisons of the code into facts about the reals. *)
Ltac to_reals :=
  cbn [fadd fsub fmul fdiv fneg fsqrt fmax flt fle feq f0 f2 f0_1 EPSILON Exact] in *;
  repeat match goal with
  | H : R_ltb _ _ = true |- _ => apply R_ltb_true_iff in H
  | H : R_ltb _ _ = false |- _ => apply R_ltb_false_iff in H
  | H : R_leb _ _ = true |- _ => apply R_leb_true_iff in H
  | H : R_leb _ _ = false |- _ => apply R_leb_false_iff in H
  | H : R_eqb _ _ = true |- _ => apply R_eqb_true_iff in H
  | H : R_eqb _ _ = false |- _ => apply R_eqb_false_iff in H
  | H : andb _ _ = true |- _ => apply andb_true_iff in H; destruct H
  end.

(** Decides the comparisons of the code between concrete reals. *)
Ltac decide_reals :=
  cbn [fadd fsub fmul fdiv fneg fsqrt fmax flt fle feq f0 f2 f0_1 EPSILON Exact];
  repeat match goal with
  | |- context [R_ltb ?a ?b] =>
    first [ rewrite (R_ltb_lt a b) by lra | rewrite (R_ltb_ge a b) by lra ]
  | |- context [R_leb ?a ?b] =>
    first [ rewrite (R_leb_le a b) by lra | rewrite (R_leb_gt a b) by lra ]
  | |- context [R_eqb ?a ?b] =>
    first [ rewrite (R_eqb_eq a b) by lra | rewrite (R_eqb_neq a b) by lra ]
  end.

Section ExactGeometry.
Context {B : Type} {BB : Body R B}.
Local Open Scope R_scope.

Lemma is_in_bounds_iff (st : Store B) (d : NodeData R) (b : ptr) :
  is_in_bounds st d b = true <->
  node_x d <= pos_x (st b) < node_x d + width d /\
  node_y d <= pos_y (st b) < node_y d + height d.
Proof.
  unfold is_in_bounds. rewrite !andb_true_iff.
  cbn [fadd fle flt Exact].
  rewrite !R_leb_true_iff, !R_ltb_true_iff. tauto.
Qed.

Lemma is_in_bounds_same_box (st : Store B) (d d' : NodeData R) (b : ptr) :
  same_box d d' -> is_in_bounds st d b = is_in_bounds st d' b.
Proof.
  intros (Hx & Hy & Hw & Hh). unfold is_in_bounds. now rewrite Hx, Hy, Hw, Hh.
Qed.

Lemma get_quadrant_same_box (st : Store B) (d d' : NodeData R) (b : ptr) :
  same_box d d' -> get_quadrant st d b = get_quadrant st d' b.
Proof.
  intros (Hx & Hy & Hw & Hh). unfold get_quadrant. now rewrite Hx, Hy, Hw, Hh.
Qed.

(** The child [get_quadrant] selects contains the body. *)
Lemma quadrant_contains (st : Store B) (d : NodeData R) (b : ptr)
    (nw ne sw se : QuadTreeNode R) :
  subdivide d = (nw, ne, sw, se) ->
  is_in_bounds st d b = true ->
  is_in_bounds st (data (child (get_quadrant st d b) nw ne sw se)) b = true.
Proof.
  intros Hs Hin. apply is_in_bounds_iff in Hin.
  unfold subdivide in Hs. inversion Hs; subst; clear Hs.
  unfold get_quadrant. cbn [fadd fdiv flt f2 Exact].
  destruct (R_ltb (pos_y (st b)) _) eqn:Hy;
    destruct (R_ltb (pos_x (st b)) _) eqn:Hx;
    to_reals; apply is_in_bounds_iff; cbn; lra.
Qed.



End ExactGeometry.

Section ExactInsertion.
Context {B : Type} {BB : Body R B}.
Variable st : Store B.
Local Open Scope R_scope.

Lemma same_box_refl (d : NodeData R) : same_box d d.
Proof. repeat split. Qed.

Lemma same_box_trans (a b c : NodeData R) :
  same_box a b -> same_box b c -> same_box a c.
Proof.
  intros (?&?&?&?) (?&?&?&?). repeat split; congruence.
Qed.

Lemma same_box_set_body (d : NodeData R) (o : option ptr) :
  same_box (set_body d o) d.
Proof. repeat split. Qed.

Lemma subdivide_same_box (d d' : NodeData R) :
  same_box d d' -> subdivide d = subdivide d'.
Proof.
  intros (Hx & Hy & Hw & Hh). unfold subdivide. now rewrite Hx, Hy, Hw, Hh.
Qed.

Ltac wf_internal :=
  do 3 (split; [assumption|]);
  repeat (split;
          [solve [assumption | eapply same_box_trans; eassumption]|]);
  assumption.

Lemma Permutation_insert_1 (b : ptr) (c l1 l2 l3 l4 : list ptr) :
  Permutation c (b :: l1) ->
  Permutation (c ++ l2 ++ l3 ++ l4) (b :: l1 ++ l2 ++ l3 ++ l4).
Proof. intros H. rewrite H. reflexivity. Qed.

Lemma Permutation_insert_2 (b : ptr) (c l1 l2 l3 l4 : list ptr) :
  Permutation c (b :: l2) ->
  Permutation (l1 ++ c ++ l3 ++ l4) (b :: l1 ++ l2 ++ l3 ++ l4).
Proof. intros H. rewrite H. simpl. symmetry. apply Permutation_middle. Qed.

Lemma Permutation_insert_3 (b : ptr) (c l1 l2 l3 l4 : list ptr) :
  Permutation c (b :: l3) ->
  Permutation (l1 ++ l2 ++ c ++ l4) (b :: l1 ++ l2 ++ l3 ++ l4).
Proof.
  intros H. rewrite H. simpl.
  rewrite (app_assoc l1 l2 (b :: _)), (app_assoc l1 l2 (l3 ++ l4)).
  symmetry. apply Permutation_middle.
Qed.

Lemma Permutation_insert_4 (b : ptr) (c l1 l2 l3 l4 : list ptr) :
  Permutation c (b :: l4) ->
  Permutation (l1 ++ l2 ++ l3 ++ c) (b :: l1 ++ l2 ++ l3 ++ l4).
Proof.
  intros H. rewrite H.
  rewrite (app_assoc l2 l3 (b :: _)), (app_assoc l2 l3 l4).
  rewrite (app_assoc l1 (l2 ++ l3) (b :: _)), (app_assoc l1 (l2 ++ l3) l4).
  symmetry. apply Permutation_middle.
Qed.

Lemma insert_into_quadrant_shape
    (rec : QuadTreeNode R -> ptr -> option (QuadTreeNode R))
    (d : NodeData R) (nw ne sw se : QuadTreeNode R) (b : ptr)
    (t' : QuadTreeNode R) :
  insert_into_quadrant rec st d nw ne sw se b = Some t' ->
  exists nw' ne' sw' se', t' = Internal d nw' ne' sw' se'.
Proof.
  unfold insert_into_quadrant.
  destruct (get_quadrant st d b); cbn [child set_child];
    [destruct (rec nw b)|destruct (rec ne b)
    |destruct (rec sw b)|destruct (rec se b)];
    simpl; intros H; inversion H; eauto.
Qed.

Lemma insert_into_quadrant_post
    (rec : QuadTreeNode R -> ptr -> option (QuadTreeNode R))
    (d : NodeData R) (nw ne sw se : QuadTreeNode R) (b : ptr)
    (t' : QuadTreeNode R) :
  (forall c c', well_formed st c -> rec c b = Some c' -> insert_post st c b c') ->
  well_formed st (Internal d nw ne sw se) ->
  is_in_bounds st d b = true ->
  insert_into_quadrant rec st d nw ne sw se b = Some t' ->
  well_formed st t' /\
  Permutation (bodies_of t') (b :: bodies_of (Internal d nw ne sw se)).
Proof.
  intros Hrec Hwf Hin Hins.
  destruct Hwf as (Hb & Hw & Hh & Bnw & Bne & Bsw & Bse & Wnw & Wne & Wsw & Wse).
  destruct (subdivide d) as [[[a0 a1] a2] a3] eqn:Hsub.
  cbn [fst snd] in Bnw, Bne, Bsw, Bse.
  pose proof (quadrant_contains st d b a0 a1 a2 a3 Hsub Hin) as Hq.
  unfold insert_into_quadrant in Hins.
  destruct (get_quadrant st d b) eqn:Eq; cbn [child set_child] in Hq, Hins.
  - destruct (rec nw b) as [c|] eqn:Hr; simpl in Hins; inversion Hins; subst.
    destruct (Hrec _ _ Wnw Hr) as (Wc & Bc & Pc & _).
    rewrite <- (is_in_bounds_same_box st _ _ b Bnw) in Hq.
    split.
    + cbn [well_formed]. rewrite Hsub. cbn [fst snd].
      wf_internal.
    + cbn [bodies_of]. rewrite Hb. cbn [app].
      apply Permutation_insert_1, Pc, Hq.
  - destruct (rec ne b) as [c|] eqn:Hr; simpl in Hins; inversion Hins; subst.
    destruct (Hrec _ _ Wne Hr) as (Wc & Bc & Pc & _).
    rewrite <- (is_in_bounds_same_box st _ _ b Bne) in Hq.
    split.
    + cbn [well_formed]. rewrite Hsub. cbn [fst snd].
      wf_internal.
    + cbn [bodies_of]. rewrite Hb. cbn [app].
      apply Permutation_insert_2, Pc, Hq.
  - destruct (rec sw b) as [c|] eqn:Hr; simpl in Hins; inversion Hins; subst.
    destruct (Hrec _ _ Wsw Hr) as (Wc & Bc & Pc & _).
    rewrite <- (is_in_bounds_same_box st _ _ b Bsw) in Hq.
    split.
    + cbn [well_formed]. rewrite Hsub. cbn [fst snd].
      wf_internal.
    + cbn [bodies_of]. rewrite Hb. cbn [app].
      apply Permutation_insert_3, Pc, Hq.
  - destruct (rec se b) as [c|] eqn:Hr; simpl in Hins; inversion Hins; subst.
    destruct (Hrec _ _ Wse Hr) as (Wc & Bc & Pc & _).
    rewrite <- (is_in_bounds_same_box st _ _ b Bse) in Hq.
    split.
    + cbn [well_formed]. rewrite Hsub. cbn [fst snd].
      wf_internal.
    + cbn [bodies_of]. rewrite Hb. cbn [app].
      apply Permutation_insert_4, Pc, Hq.
Qed.

Lemma insert_body_post (fuel : nat) :
  forall (t : QuadTreeNode R) (b : ptr) (t' : QuadTreeNode R),
    well_formed st t ->
    insert_body fuel st t b = Some t' ->
    insert_post st t b t'.
Proof.
  induction fuel as [|fuel IH]; intros t b t' Hwf Hins; [discriminate|].
  cbn [insert_body] in Hins.
  destruct (is_in_bounds st (data t) b) eqn:Hin; cbn [negb] in Hins.
  2:{ inversion Hins; subst. split; [assumption|].
      split; [apply same_box_refl|]. split; [cbn [data]; intros; congruence|reflexivity]. }
  destruct t as [d | d nw ne sw se]; cbn [data] in Hin.
  - destruct (body d) as [e|] eqn:Hbody.
    + (* case 2 *)
      cbn [well_formed] in Hwf. rewrite Hbody in Hwf.
      destruct (subdivide d) as [[[a0 a1] a2] a3] eqn:Hsub.
      assert (Hsub' : subdivide (set_body d None) = (a0, a1, a2, a3))
        by (rewrite <- Hsub; apply subdivide_same_box, same_box_set_body).
      assert (Hwf1 : well_formed st (Internal (set_body d None) a0 a1 a2 a3)).
      { apply is_in_bounds_iff in Hin.
        cbn [well_formed]. rewrite Hsub'. cbn [fst snd].
        repeat split; try reflexivity;
          try (cbn [set_body width height flt f0 Exact]; apply R_ltb_lt; lra);
          unfold subdivide in Hsub; inversion Hsub; subst; cbn; exact I. }
      destruct (insert_into_quadrant (insert_body fuel st) st (set_body d None)
                  a0 a1 a2 a3 e) as [node'|] eqn:H1;
        cbn [bind] in Hins; [|discriminate].
      destruct (insert_into_quadrant_post _ _ _ _ _ _ _ _
                  (fun c c' => IH c e c') Hwf1 Hwf H1) as (W1 & P1).
      destruct (insert_into_quadrant_shape _ _ _ _ _ _ _ _ H1)
        as (nw1 & ne1 & sw1 & se1 & ->).
      destruct (insert_into_quadrant_post _ _ _ _ _ _ _ _
                  (fun c c' => IH c b c') W1 Hin Hins) as (W2 & P2).
      destruct (insert_into_quadrant_shape _ _ _ _ _ _ _ _ Hins)
        as (nw2 & ne2 & sw2 & se2 & ->).
      split; [exact W2|]. split; [apply same_box_set_body|].
      split; [|cbn [data]; intros; congruence].
      intros _. rewrite P2, P1.
      assert (Hnil : bodies_of (Internal (set_body d None) a0 a1 a2 a3) = []).
      { unfold subdivide in Hsub; inversion Hsub; subst. reflexivity. }
      rewrite Hnil. cbn [bodies_of]. rewrite Hbody. reflexivity.
    + (* case 1 *)
      inversion Hins; subst.
      split; [cbn [well_formed set_body body]; exact Hin|].
      split; [apply same_box_set_body|].
      split; [|cbn [data]; intros; congruence].
      intros _. cbn [bodies_of set_body body]. rewrite Hbody. reflexivity.
  - (* case 3 *)
    destruct (insert_into_quadrant_post _ _ _ _ _ _ _ _
                (fun c c' => IH c b c') Hwf Hin Hins) as (W & P).
    destruct (insert_into_quadrant_shape _ _ _ _ _ _ _ _ Hins)
      as (nw' & ne' & sw' & se' & ->).
    split; [exact W|]. split; [apply same_box_refl|].
    split; [intros _; exact P|cbn [data]; intros; congruence].
Qed.

Lemma insert_all_post (fuel : nat) (ps : list ptr) :
  forall (root t : QuadTreeNode R),
    well_formed st root ->
    insert_all fuel st root ps = Some t ->
    well_formed st t /\ same_box (data t) (data root) /\
    Permutation (bodies_of t)
                (filter (is_in_bounds st (data root)) ps ++ bodies_of root).
Proof.
  induction ps as [|p ps IH]; intros root t Hwf Hall; cbn [insert_all] in Hall.
  - inversion Hall; subst. repeat split; auto.
  - destruct (insert_body fuel st root p) as [root'|] eqn:H1;
      cbn [bind] in Hall; [|discriminate].
    destruct (insert_body_post _ _ _ _ Hwf H1) as (W1 & B1 & P1 & E1).
    destruct (IH _ _ W1 Hall) as (W & Bx & P).
    split; [exact W|]. split; [exact (same_box_trans _ _ _ Bx B1)|].
    rewrite P.
    assert (Hf : filter (is_in_bounds st (data root')) ps =
                 filter (is_in_bounds st (data root)) ps).
    { apply filter_ext. intros a. apply is_in_bounds_same_box, B1. }
    rewrite Hf. cbn [filter].
    destruct (is_in_bounds st (data root) p) eqn:Hin.
    + rewrite (P1 eq_refl). cbn [app]. symmetry. apply Permutation_middle.
    + rewrite (E1 eq_refl). reflexivity.
Qed.

End ExactInsertion.

Section ExactAggregation.
Context {B : Type} {BB : Body R B}.
Variable st : Store B.
Local Open Scope R_scope.

Lemma mass_sum_nil : mass_sum st [] = 0.
Proof. reflexivity. Qed.

Lemma mass_sum_cons (p : ptr) (l : list ptr) :
  mass_sum st (p :: l) = mass_of (st p) + mass_sum st l.
Proof. reflexivity. Qed.

Lemma mass_sum_app (l1 l2 : list ptr) :
  mass_sum st (l1 ++ l2) = mass_sum st l1 + mass_sum st l2.
Proof.
  induction l1 as [|p l1 IH]; cbn [app].
  - rewrite mass_sum_nil. lra.
  - rewrite !mass_sum_cons, IH. lra.
Qed.


Lemma mass_sum_nonneg (l : list ptr) :
  (forall p, In p l -> 0 < mass_of (st p)) -> 0 <= mass_sum st l.
Proof.
  induction l as [|p l IH]; intros H.
  - rewrite mass_sum_nil. lra.
  - assert (0 < mass_of (st p)) by (apply H; left; reflexivity).
    assert (0 <= mass_sum st l) by (apply IH; intros; apply H; right; assumption).
    rewrite mass_sum_cons. lra.
Qed.

Lemma mass_sum_pos (l : list ptr) :
  (forall p, In p l -> 0 < mass_of (st p)) -> l <> [] -> 0 < mass_sum st l.
Proof.
  destruct l as [|p l]; intros H Hne; [contradiction|].
  assert (0 < mass_of (st p)) by (apply H; left; reflexivity).
  assert (0 <= mass_sum st l)
    by (apply mass_sum_nonneg; intros; apply H; right; assumption).
  rewrite mass_sum_cons. lra.
Qed.

Lemma add_child_mass (acc : R * R * R) (c : QuadTreeNode R) :
  0 <= total_mass (data c) ->
  fst (fst (add_child acc c)) = fst (fst acc) + total_mass (data c).
Proof.
  intros H. destruct acc as [[m cx] cy]. unfold add_child.
  cbn [flt fadd fmul f0 Exact].
  destruct (R_ltb 0 (total_mass (data c))) eqn:E; to_reals; cbn [fst]; lra.
Qed.

Lemma calculate_center_of_mass_data (t : QuadTreeNode R) :
  same_box (data (calculate_center_of_mass st t)) (data t) /\
  body (data (calculate_center_of_mass st t)) = body (data t).
Proof.
  destruct t as [d | d nw ne sw se]; cbn [calculate_center_of_mass].
  - destruct (body d) eqn:E; cbn [data]; split;
      try apply same_box_refl; cbn; auto; repeat split.
  - destruct (add_child _ _) as [[m cx] cy].
    destruct (flt f0 m); cbn [data]; split; cbn; auto; repeat split.
Qed.


Lemma well_formed_calculate_center_of_mass (t : QuadTreeNode R) :
  well_formed st t -> well_formed st (calculate_center_of_mass st t).
Proof.
  induction t as [d | d nw IHnw ne IHne sw IHsw se IHse];
    cbn [calculate_center_of_mass].
  - destruct (body d) eqn:E; cbn [well_formed set_aggregate body];
      rewrite ?E; auto.
  - intros (Hb & Hw & Hh & Bnw & Bne & Bsw & Bse & Wnw & Wne & Wsw & Wse).
    assert (Hs : forall m cx cy,
               subdivide (set_aggregate d m cx cy) = subdivide d)
      by (intros; apply subdivide_same_box; repeat split).
    assert (Hgoal : forall m cx cy,
               well_formed st
                 (Internal (set_aggregate d m cx cy)
                    (calculate_center_of_mass st nw)
                    (calculate_center_of_mass st ne)
                    (calculate_center_of_mass st sw)
                    (calculate_center_of_mass st se))).
    { intros m cx cy. cbn [well_formed]. rewrite Hs.
      split; [exact Hb|]. split; [exact Hw|]. split; [exact Hh|].
      split; [eapply same_box_trans;
              [apply calculate_center_of_mass_data|exact Bnw]|].
      split; [eapply same_box_trans;
              [apply calculate_center_of_mass_data|exact Bne]|].
      split; [eapply same_box_trans;
              [apply calculate_center_of_mass_data|exact Bsw]|].
      split; [eapply same_box_trans;
              [apply calculate_center_of_mass_data|exact Bse]|].
      auto. }
    destruct (add_child _ _) as [[m cx] cy].
    destruct (flt f0 m); apply Hgoal.
Qed.

(** After aggregation a node's [total_mass] is the mass of the bodies below
    it, and every internal node is the sum of its children. *)
Lemma aggregate_total_mass (t : QuadTreeNode R) :
  well_formed st t ->
  (forall p, In p (bodies_of t) -> 0 < mass_of (st p)) ->
  total_mass (data (calculate_center_of_mass st t)) = mass_sum st (bodies_of t)
  /\ mass_additive (calculate_center_of_mass st t).
Proof.
  induction t as [d | d nw IHnw ne IHne sw IHsw se IHse]; intros Hwf Hpos.
  - cbn [calculate_center_of_mass bodies_of].
    destruct (body d) as [p|] eqn:E;
      cbn [data set_aggregate total_mass mass_additive f0 Exact];
      rewrite ?mass_sum_cons, ?mass_sum_nil; split; auto; lra.
  - destruct Hwf as (Hb & Hw & Hh & Bnw & Bne & Bsw & Bse & Wnw & Wne & Wsw & Wse).
    cbn [bodies_of] in Hpos |- *. rewrite Hb in Hpos |- *. cbn [app] in Hpos |- *.
    assert (Pnw : forall p, In p (bodies_of nw) -> 0 < mass_of (st p))
      by (intros; apply Hpos; rewrite !in_app_iff; auto).
    assert (Pne : forall p, In p (bodies_of ne) -> 0 < mass_of (st p))
      by (intros; apply Hpos; rewrite !in_app_iff; auto).
    assert (Psw : forall p, In p (bodies_of sw) -> 0 < mass_of (st p))
      by (intros; apply Hpos; rewrite !in_app_iff; auto).
    assert (Pse : forall p, In p (bodies_of se) -> 0 < mass_of (st p))
      by (intros; apply Hpos; rewrite !in_app_iff; auto).
    destruct (IHnw Wnw Pnw) as (Tnw & Anw).
    destruct (IHne Wne Pne) as (Tne & Ane).
    destruct (IHsw Wsw Psw) as (Tsw & Asw).
    destruct (IHse Wse Pse) as (Tse & Ase).
    pose proof (mass_sum_nonneg _ Pnw). pose proof (mass_sum_nonneg _ Pne).
    pose proof (mass_sum_nonneg _ Psw). pose proof (mass_sum_nonneg _ Pse).
    cbn [calculate_center_of_mass].
    destruct (add_child _ _) as [[m cx] cy] eqn:E.
    assert (Hm : m = total_mass (data (calculate_center_of_mass st nw))
                     + total_mass (data (calculate_center_of_mass st ne))
                     + total_mass (data (calculate_center_of_mass st sw))
                     + total_mass (data (calculate_center_of_mass st se))).
    { change m with (fst (fst (m, cx, cy))). rewrite <- E.
      rewrite !add_child_mass by lra. cbn [fst f0 Exact]. lra. }
    rewrite !mass_sum_app.
    destruct (flt f0 m);
      cbn [data set_aggregate total_mass mass_additive fadd Exact];
      (split; [lra|]); auto.
Qed.

End ExactAggregation.

(** ** Force evaluation in exact arithmetic *)

Section ExactForce.
Context {B : Type} {BB : Body R B}.
Variable st : Store B.
Variable G : R.
Local Open Scope R_scope.

Lemma EPSILON_pos : 0 < EPSILON.
Proof. cbn [EPSILON Exact]. lra. Qed.

Lemma sqrt_pos_arg (a : R) : 0 < sqrt a -> 0 < a.
Proof.
  intros H. destruct (Rle_lt_dec a 0) as [Hle|Hlt]; [|exact Hlt].
  rewrite (sqrt_neg_0 a Hle) in H. lra.
Qed.

Lemma div_checked_nonzero (a b : R) : b <> 0 -> div_checked a b = Some (a / b).
Proof. intros H. unfold div_checked. cbn [feq f0 fdiv Exact]. now rewrite R_eqb_neq. Qed.

Lemma div_checked_zero (a : R) : div_checked a 0 = None.
Proof. unfold div_checked. cbn [feq f0 Exact]. now rewrite R_eqb_eq. Qed.

(** The leaf branch adds exactly the pairwise force of the specification,
    and never divides by zero. *)
Lemma leaf_force_exact (b p : ptr) (acc : R * R) :
  leaf_force G st b p acc =
  Some (fst acc + fst (pairwise_force G st b p),
        snd acc + snd (pairwise_force G st b p)).
Proof.
  unfold leaf_force, pairwise_force.
  cbn [fadd fsub fmul flt fsqrt f0 EPSILON Exact].
  set (dx := pos_x (st p) - pos_x (st b)).
  set (dy := pos_y (st p) - pos_y (st b)).
  destruct (R_ltb (sqrt (dx * dx + dy * dy)) (1 / 1000000000)) eqn:E.
  - cbn [fst snd]. rewrite !Rplus_0_r. now destruct acc.
  - to_reals.
    assert (Hr : 0 < sqrt (dx * dx + dy * dy)) by lra.
    pose proof (sqrt_pos_arg _ Hr) as Hd.
    rewrite (div_checked_nonzero _ (dx * dx + dy * dy)) by lra.
    cbn [bind]. rewrite !div_checked_nonzero by lra. cbn [bind fst snd fadd fdiv Exact].
    rewrite (sqrt_sqrt (dx * dx + dy * dy)) by lra. reflexivity.
Qed.


Lemma add_pair_comm (b : ptr) (acc : R * R) (i j : ptr) :
  add_pair G st b (add_pair G st b acc i) j = add_pair G st b (add_pair G st b acc j) i.
Proof.
  unfold add_pair. destruct (Nat.eqb i b), (Nat.eqb j b); try reflexivity.
  cbn [fst snd fadd Exact]. f_equal; lra.
Qed.

Lemma fold_add_pair_perm (b : ptr) (l1 l2 : list ptr) :
  Permutation l1 l2 ->
  forall acc, fold_left (add_pair G st b) l1 acc = fold_left (add_pair G st b) l2 acc.
Proof.
  induction 1; intros acc; cbn [fold_left].
  - reflexivity.
  - apply IHPermutation.
  - now rewrite add_pair_comm.
  - now rewrite IHPermutation1.
Qed.

(** With [theta = 0] no node passes the opening test. *)
Lemma opening_test_zero (b : ptr) (d : NodeData R) :
  0 <= width d -> opening_test st b d 0 = false.
Proof.
  intros Hw. unfold opening_test.
  destruct (Req_dec_T (com_distance st b d) 0) as [E|E].
  - rewrite E. now rewrite div_checked_zero.
  - rewrite div_checked_nonzero by exact E.
    cbn [flt fmax Exact]. apply R_ltb_ge.
    assert (0 <= com_distance st b d)
      by (unfold com_distance; cbn [fsqrt Exact]; apply sqrt_pos).
    assert (0 <= Rmax (width d) (height d))
      by (eapply Rle_trans; [exact Hw|apply Rmax_l]).
    apply Rmult_le_pos; [assumption|].
    left. apply Rinv_0_lt_compat. lra.
Qed.

(** A leaf that holds [b] itself, aggregated, is at distance zero from its
    own centre of mass: the unguarded variant does not approximate it. *)
Lemma opening_test_own_leaf (b : ptr) (d : NodeData R) (theta : R) :
  center_x d = pos_x (st b) -> center_y d = pos_y (st b) ->
  opening_test st b d theta = false.
Proof.
  intros Hx Hy. unfold opening_test, com_distance.
  cbn [fsub fmul fadd fsqrt Exact]. rewrite Hx, Hy.
  replace ((pos_x (st b) - pos_x (st b)) * (pos_x (st b) - pos_x (st b)) +
           (pos_y (st b) - pos_y (st b)) * (pos_y (st b) - pos_y (st b)))
    with 0 by ring.
  rewrite sqrt_0. now rewrite div_checked_zero.
Qed.

Lemma holds_other_spec (d : NodeData R) (b : ptr) :
  match holds_other d b with
  | Some p => body d = Some p /\ p <> b
  | None => body d = None \/ body d = Some b
  end.
Proof.
  unfold holds_other. destruct (body d) as [p|]; [|auto].
  destruct (Nat.eqb_spec p b); subst; auto.
Qed.

Lemma add_pair_self (b : ptr) (acc : R * R) : add_pair G st b acc b = acc.
Proof. unfold add_pair. now rewrite Nat.eqb_refl. Qed.

Lemma add_pair_other (b p : ptr) (acc : R * R) :
  p <> b ->
  add_pair G st b acc p = (fst acc + fst (pairwise_force G st b p),
                      snd acc + snd (pairwise_force G st b p)).
Proof.
  intros H. unfold add_pair. apply Nat.eqb_neq in H. now rewrite H.
Qed.

(** At [theta = 0] the traversal of an aggregated tree adds the pairwise
    force of every body the tree holds, the target excepted. *)
Lemma force_theta_zero (b : ptr) (t : QuadTreeNode R) :
  well_formed st t ->
  (forall p, In p (bodies_of t) -> 0 < mass_of (st p)) ->
  forall acc,
    calculate_force_from_quadtree G st b (calculate_center_of_mass st t) 0 acc
    = Some (fold_left (add_pair G st b) (bodies_of t) acc) /\
    calculate_force_unguarded G st b (calculate_center_of_mass st t) 0 acc
    = Some (fold_left (add_pair G st b) (bodies_of t) acc).
Proof.
  induction t as [d | d nw IHnw ne IHne sw IHsw se IHse]; intros Hwf Hpos acc.
  - cbn [calculate_center_of_mass bodies_of].
    destruct (body d) as [p|] eqn:Hbody.
    + assert (Hm : 0 < mass_of (st p))
        by (apply Hpos; cbn [bodies_of]; rewrite Hbody; left; reflexivity).
      cbn [calculate_force_from_quadtree calculate_force_unguarded data
           set_aggregate total_mass feq f0 Exact].
      rewrite R_eqb_neq by lra.
      unfold holds_other. cbn [body set_aggregate]. rewrite Hbody.
      destruct (Nat.eqb_spec p b) as [->|Hne]; cbn [fold_left].
      * rewrite add_pair_self.
        rewrite opening_test_own_leaf by reflexivity. auto.
      * rewrite leaf_force_exact, add_pair_other by exact Hne. auto.
    + cbn [calculate_force_from_quadtree calculate_force_unguarded data
           set_aggregate total_mass feq f0 Exact fold_left].
      rewrite R_eqb_eq by reflexivity. auto.
  - pose proof (aggregate_total_mass st _ Hwf Hpos) as (Htot & _).
    destruct Hwf as (Hb & Hw & Hh & Bnw & Bne & Bsw & Bse & Wnw & Wne & Wsw & Wse).
    cbn [bodies_of] in Hpos, Htot |- *. rewrite Hb in Hpos, Htot |- *.
    cbn [app] in Hpos, Htot |- *.
    assert (Pnw : forall p, In p (bodies_of nw) -> 0 < mass_of (st p))
      by (intros; apply Hpos; rewrite !in_app_iff; auto).
    assert (Pne : forall p, In p (bodies_of ne) -> 0 < mass_of (st p))
      by (intros; apply Hpos; rewrite !in_app_iff; auto).
    assert (Psw : forall p, In p (bodies_of sw) -> 0 < mass_of (st p))
      by (intros; apply Hpos; rewrite !in_app_iff; auto).
    assert (Pse : forall p, In p (bodies_of se) -> 0 < mass_of (st p))
      by (intros; apply Hpos; rewrite !in_app_iff; auto).
    specialize (IHnw Wnw Pnw). specialize (IHne Wne Pne).
    specialize (IHsw Wsw Psw). specialize (IHse Wse Pse).
    cbn [calculate_center_of_mass] in Htot |- *.
    destruct (add_child _ _) as [[m cx] cy].
    assert (Hgoal : forall c1 c2,
      total_mass (set_aggregate d m c1 c2) =
        mass_sum st (bodies_of nw ++ bodies_of ne ++ bodies_of sw ++ bodies_of se) ->
      calculate_force_from_quadtree G st b
        (Internal (set_aggregate d m c1 c2)
           (calculate_center_of_mass st nw) (calculate_center_of_mass st ne)
           (calculate_center_of_mass st sw) (calculate_center_of_mass st se))
        0 acc
      = Some (fold_left (add_pair G st b)
                (bodies_of nw ++ bodies_of ne ++ bodies_of sw ++ bodies_of se) acc)
      /\
      calculate_force_unguarded G st b
        (Internal (set_aggregate d m c1 c2)
           (calculate_center_of_mass st nw) (calculate_center_of_mass st ne)
           (calculate_center_of_mass st sw) (calculate_center_of_mass st se))
        0 acc
      = Some (fold_left (add_pair G st b)
                (bodies_of nw ++ bodies_of ne ++ bodies_of sw ++ bodies_of se) acc)).
    { intros c1 c2 Hm.
      cbn [calculate_force_from_quadtree calculate_force_unguarded data].
      cbn [feq f0 Exact].
      destruct (R_eqb (total_mass (set_aggregate d m c1 c2)) 0) eqn:E.
      - to_reals. rewrite Hm in E.
        destruct (bodies_of nw ++ bodies_of ne ++ bodies_of sw ++ bodies_of se)
          as [|p l] eqn:El; [cbn [fold_left]; auto|].
        exfalso. pose proof (mass_sum_pos st (p :: l) Hpos) as Hp.
        assert (0 < mass_sum st (p :: l)) by (apply Hp; discriminate). lra.
      - unfold holds_other. cbn [set_aggregate body]. rewrite Hb.
        assert (Hop : opening_test st b (set_aggregate d m c1 c2) 0 = false).
        { apply opening_test_zero. cbn [set_aggregate width].
          cbn [flt f0 Exact] in Hw. apply R_ltb_true_iff in Hw. lra. }
        rewrite Hop.
        rewrite !fold_left_app.
        rewrite (proj1 (IHnw acc)), (proj2 (IHnw acc)). cbn [bind].
        rewrite (proj1 (IHne _)), (proj2 (IHne _)). cbn [bind].
        rewrite (proj1 (IHsw _)), (proj2 (IHsw _)). cbn [bind].
        rewrite (proj1 (IHse _)), (proj2 (IHse _)). auto. }
    destruct (flt f0 m); apply Hgoal; exact Htot.
Qed.

End ExactForce.

(** ** Termination of insertion in exact arithmetic *)

Section ExactTermination.
Context {B : Type} {BB : Body R B}.
Variable st : Store B.
Local Open Scope R_scope.



Lemma insert_body_empty_leaf (fuel : nat) (d : NodeData R) (b : ptr) :
  body d = None -> is_in_bounds st d b = true ->
  insert_body (S fuel) st (Leaf d) b = Some (Leaf (set_body d (Some b))).
Proof.
  intros Hb Hin. rewrite insert_body_S. cbn [data]. rewrite Hin, Hb. reflexivity.
Qed.

Lemma subdivide_child (d : NodeData R) (q : Quadrant)
    (nw ne sw se : QuadTreeNode R) :
  subdivide d = (nw, ne, sw, se) ->
  exists cd, child q nw ne sw se = Leaf cd /\ body cd = None /\
             width cd = width d / 2 /\ height cd = height d / 2.
Proof.
  unfold subdivide. intros H. inversion H; subst; clear H.
  destruct q; cbn [child create_quadtree]; eexists; repeat split.
Qed.

(** Case 2 of [insert_body], one level down: the held body [e] moves into
    an empty child [cd]; the new body [b] either meets it there again (same
    quadrant: the call recurses on the child, now a leaf holding [e]) or
    lands in another, empty child. *)
Lemma insert_body_split (fuel : nat) (d : NodeData R) (e b : ptr) :
  body d = Some e ->
  is_in_bounds st d e = true ->
  is_in_bounds st d b = true ->
  exists cd,
    body cd = None /\ width cd = width d / 2 /\ height cd = height d / 2 /\
    is_in_bounds st cd e = true /\
    (get_quadrant st d b = get_quadrant st d e ->
     is_in_bounds st cd b = true /\
     exists k,
       insert_body (S (S fuel)) st (Leaf d) b =
       option_map k (insert_body (S fuel) st (Leaf (set_body cd (Some e))) b)) /\
    (get_quadrant st d b <> get_quadrant st d e ->
     exists t', insert_body (S (S fuel)) st (Leaf d) b = Some t').
Proof.
  intros Hbody Hine Hinb.
  destruct (subdivide d) as [[[a0 a1] a2] a3] eqn:Hsub.
  destruct (subdivide_child d (get_quadrant st d e) _ _ _ _ Hsub)
    as (cd & Hc & Hcb & Hcw & Hch).
  pose proof (quadrant_contains st d e _ _ _ _ Hsub Hine) as Hce.
  rewrite Hc in Hce. cbn [data] in Hce.
  exists cd. do 4 (split; [assumption|]).
  assert (Hq : forall p, get_quadrant st (set_body d None) p = get_quadrant st d p)
    by (intros; apply get_quadrant_same_box, same_box_set_body).
  assert (Hstep : insert_body (S (S fuel)) st (Leaf d) b =
                  match set_child (get_quadrant st d e)
                          (Leaf (set_body cd (Some e))) (set_body d None)
                          a0 a1 a2 a3 with
                  | Internal d1 nw1 ne1 sw1 se1 =>
                    insert_into_quadrant (insert_body (S fuel) st) st d1
                      nw1 ne1 sw1 se1 b
                  | Leaf d1 => Some (Leaf d1)
                  end).
  { rewrite insert_body_S. cbn [data]. rewrite Hinb, Hbody. cbn [negb].
    rewrite Hsub. cbv zeta. unfold insert_into_quadrant at 1.
    rewrite Hq, Hc. rewrite (insert_body_empty_leaf _ _ _ Hcb Hce).
    cbn [bind].
    destruct (set_child _ _ _ _ _ _ _); reflexivity. }
  destruct (child_set_child (get_quadrant st d b) (get_quadrant st d e)
              (Leaf (set_body cd (Some e))) (set_body d None) a0 a1 a2 a3)
    as (nw' & ne' & sw' & se' & Hset & Hsame & Hother).
  rewrite Hset in Hstep. unfold insert_into_quadrant in Hstep.
  rewrite Hq in Hstep.
  split.
  - intros Heq. split.
    + pose proof (quadrant_contains st d b _ _ _ _ Hsub Hinb) as Hcbb.
      rewrite Heq, Hc in Hcbb. exact Hcbb.
    + rewrite Heq, Hsame in Hstep.
      exists (fun c => set_child (get_quadrant st d e) c (set_body d None)
                                 nw' ne' sw' se').
      rewrite Hstep.
      destruct (insert_body (S fuel) st (Leaf (set_body cd (Some e))) b);
        reflexivity.
  - intros Hne. rewrite (Hother Hne) in Hstep.
    destruct (subdivide_child d (get_quadrant st d b) _ _ _ _ Hsub)
      as (cb & Hcb1 & Hcb2 & _).
    pose proof (quadrant_contains st d b _ _ _ _ Hsub Hinb) as Hcbb.
    rewrite Hcb1 in Hstep, Hcbb. cbn [data] in Hcbb.
    rewrite (insert_body_empty_leaf _ _ _ Hcb2 Hcbb) in Hstep.
    cbn [bind] in Hstep. eauto.
Qed.

Lemma same_box_distance (d : NodeData R) (e b : ptr) :
  is_in_bounds st d e = true -> is_in_bounds st d b = true ->
  Rabs (pos_x (st e) - pos_x (st b)) < width d /\
  Rabs (pos_y (st e) - pos_y (st b)) < height d.
Proof.
  intros He Hb. apply is_in_bounds_iff in He. apply is_in_bounds_iff in Hb.
  split; apply Rabs_def1; lra.
Qed.

(** Two bodies at different places are separated after [k] halvings once
    the box, halved [k] times, is no wider than their distance. *)
Lemma leaf_insert_terminates (k : nat) :
  forall (d : NodeData R) (e b : ptr),
    body d = Some e ->
    is_in_bounds st d e = true ->
    is_in_bounds st d b = true ->
    width d <= 2 ^ k * Rabs (pos_x (st e) - pos_x (st b)) \/
    height d <= 2 ^ k * Rabs (pos_y (st e) - pos_y (st b)) ->
    exists t', insert_body (S (S k)) st (Leaf d) b = Some t'.
Proof.
  induction k as [|k IH]; intros d e b Hbody He Hb Hsep.
  - exfalso. destruct (same_box_distance d e b He Hb) as (Hx & Hy).
    cbn [pow] in Hsep. lra.
  - destruct (insert_body_split (S k) d e b Hbody He Hb)
      as (cd & Hcb & Hcw & Hch & Hce & Hsame & Hother).
    destruct (Quadrant_eq_dec (get_quadrant st d b) (get_quadrant st d e))
      as [Heq|Hne].
    + destruct (Hsame Heq) as (Hcbb & kf & Hk). rewrite Hk.
      destruct (IH (set_body cd (Some e)) e b) as (t' & Ht').
      * reflexivity.
      * exact Hce.
      * exact Hcbb.
      * cbn [set_body width height]. rewrite Hcw, Hch.
        cbn [pow] in Hsep. lra.
      * rewrite Ht'. cbn [option_map]. eauto.
    + exact (Hother Hne).
Qed.

Lemma archimed_pow2 (w delta : R) : 0 < delta -> exists k, w <= 2 ^ k * delta.
Proof.
  intros Hd.
  assert (H2 : Rabs 2 > 1) by (rewrite Rabs_right; lra).
  destruct (Pow_x_infinity 2 H2 (w / delta)) as (N & HN).
  exists N. specialize (HN N (Nat.le_refl N)).
  rewrite Rabs_right in HN by (apply Rle_ge, pow_le; lra).
  apply Rge_le in HN.
  apply (Rmult_le_compat_r delta) in HN; [|lra].
  unfold Rdiv in HN. rewrite Rmult_assoc, Rinv_l, Rmult_1_r in HN by lra.
  exact HN.
Qed.

Lemma not_same_place (p q : ptr) :
  ~ same_place st p q ->
  0 < Rabs (pos_x (st p) - pos_x (st q)) \/
  0 < Rabs (pos_y (st p) - pos_y (st q)).
Proof.
  intros H. destruct (Req_dec_T (pos_x (st p)) (pos_x (st q))) as [Ex|Ex].
  - right. apply Rabs_pos_lt. intros E. apply H. split; [exact Ex|lra].
  - left. apply Rabs_pos_lt. lra.
Qed.

(** One body that shares its place with no body of the tree is inserted by a
    finite recursion. *)
Lemma insert_body_terminates (t : QuadTreeNode R) :
  forall b : ptr,
    well_formed st t ->
    (forall p, In p (bodies_of t) -> ~ same_place st p b) ->
    exists fuel t', insert_body fuel st t b = Some t'.
Proof.
  induction t as [d | d nw IHnw ne IHne sw IHsw se IHse]; intros b Hwf Hsep.
  - destruct (is_in_bounds st d b) eqn:Hin.
    2:{ exists 1%nat, (Leaf d). now apply insert_body_out_of_bounds. }
    destruct (body d) as [e|] eqn:Hbody.
    + cbn [well_formed] in Hwf. rewrite Hbody in Hwf.
      assert (Hne : ~ same_place st e b)
        by (apply Hsep; cbn [bodies_of]; rewrite Hbody; left; reflexivity).
      destruct (not_same_place e b Hne) as [Hx|Hy].
      * destruct (archimed_pow2 (width d) _ Hx) as (k & Hk).
        destruct (leaf_insert_terminates k d e b Hbody Hwf Hin (or_introl Hk))
          as (t' & Ht'). eauto.
      * destruct (archimed_pow2 (height d) _ Hy) as (k & Hk).
        destruct (leaf_insert_terminates k d e b Hbody Hwf Hin (or_intror Hk))
          as (t' & Ht'). eauto.
    + exists 1%nat. eexists. now apply insert_body_empty_leaf.
  - destruct (is_in_bounds st d b) eqn:Hin.
    2:{ exists 1%nat. eexists. now apply insert_body_out_of_bounds. }
    destruct Hwf as (Hb & Hw & Hh & Bnw & Bne & Bsw & Bse & Wnw & Wne & Wsw & Wse).
    cbn [bodies_of] in Hsep. rewrite Hb in Hsep. cbn [app] in Hsep.
    assert (Hc : exists fuel c',
               insert_body fuel st
                 (child (get_quadrant st d b) nw ne sw se) b = Some c').
    { destruct (get_quadrant st d b); cbn [child];
        [apply IHnw|apply IHne|apply IHsw|apply IHse]; try assumption;
        intros p Hp; apply Hsep; rewrite !in_app_iff; auto. }
    destruct Hc as (fuel & c' & Hc).
    exists (S fuel). eexists. rewrite insert_body_S. cbn [data]. rewrite Hin.
    cbn [negb]. unfold insert_into_quadrant. rewrite Hc. reflexivity.
Qed.

Lemma insert_all_terminates (ps : list ptr) :
  forall root : QuadTreeNode R,
    well_formed st root ->
    ForallOrdPairs (fun p q => ~ same_place st p q) ps ->
    (forall p q, In p (bodies_of root) -> In q ps -> ~ same_place st p q) ->
    exists fuel t, insert_all fuel st root ps = Some t.
Proof.
  induction ps as [|p ps IH]; intros root Hwf Hps Hroot.
  - exists 0%nat, root. reflexivity.
  - inversion Hps as [|? ? Hp Hrest]; subst.
    destruct (insert_body_terminates root p Hwf) as (f1 & t1 & H1).
    { intros q Hq. apply Hroot; [exact Hq|left; reflexivity]. }
    destruct (insert_body_post st f1 root p t1 Hwf H1) as (W1 & _ & P1 & E1).
    destruct (IH t1 W1 Hrest) as (f2 & t2 & H2).
    { intros q q' Hq Hq'.
      destruct (is_in_bounds st (data root) p) eqn:Hin.
      - apply (Permutation_in _ (P1 eq_refl)) in Hq. destruct Hq as [<-|Hq].
        + rewrite Forall_forall in Hp. apply Hp, Hq'.
        + apply Hroot; [exact Hq|right; exact Hq'].
      - rewrite (E1 eq_refl) in Hq. apply Hroot; [exact Hq|right; exact Hq']. }
    exists (Nat.max f1 f2), t2. cbn [insert_all].
    rewrite (insert_body_fuel_le st f1 _ _ _ _ (Nat.le_max_l f1 f2) H1).
    cbn [bind]. exact (insert_all_fuel_le st f2 _ ps (Nat.le_max_r f1 f2) _ _ H2).
Qed.

Lemma ForallOrdPairs_seq (P : nat -> nat -> Prop) (n : nat) :
  forall a : nat,
    (forall i j, (a <= i < j)%nat -> (j < a + n)%nat -> P i j) ->
    ForallOrdPairs P (seq a n).
Proof.
  induction n as [|n IH]; intros a H; cbn [seq]; constructor.
  - apply Forall_forall. intros j Hj. apply in_seq in Hj. apply H; lia.
  - apply IH. intros i j Hij Hj. apply H; lia.
Qed.


End ExactTermination.

(** ** C1 *)



(** ** C2 *)

(** C2, the claim as stated fails on the program's arithmetic.  The three
    bodies of [near_trio64] have mass 1 and lie inside the region of
    solar.c; the insertion drops the second, so with [theta = 0] the third
    is pulled by the first alone: both traversals return (0, -2^-10), where
    the direct sum over the other bodies is (2^-61, -2^-9). *)
Lemma binary64_theta_zero_misses_dropped_body :
  (is_in_bounds near_trio64 (data solar_root64) 0 = true /\
   is_in_bounds near_trio64 (data solar_root64) 1 = true /\
   is_in_bounds near_trio64 (data solar_root64) 2 = true) /\
  option_map
    (fun t =>
       (bodies_of t,
        calculate_force_from_quadtree 1%float near_trio64 2
          (calculate_center_of_mass near_trio64 t) 0%float (0%float, 0%float),
        calculate_force_unguarded 1%float near_trio64 2
          (calculate_center_of_mass near_trio64 t) 0%float (0%float, 0%float)))
    (build 60 near_trio64 solar_root64 3)
  = Some ([0%nat; 2%nat], Some (0, - 0x1p-10)%float, Some (0, - 0x1p-10)%float) /\
  direct_all_pairs_force 1%float near_trio64 3 2 = (0x1p-61, - 0x1p-9)%float.
Proof. repeat split; vm_compute; reflexivity. Qed.

(** C2 (amended). In exact arithmetic, for bodies of positive mass inside
    the root's bounds: the insertion returns when the bodies occupy
    pairwise distinct coordinates, and whenever it returns, the traversal
    of the aggregated tree with [theta = 0] (either variant of
    [calculate_force_from_quadtree]) gives every target the direct
    all-pairs sum over all other bodies, with the same epsilon skip rule.
    In binary64 a body that the insertion dropped pulls no other body: the
    third body of [near_trio64] gets (0, -2^-10) from the tree and
    (2^-61, -2^-9) from the direct sum. *)
Theorem theta_zero_is_direct_sum :
  (forall (B : Type) (BB : Body R B) (st : Store B) (G x0 y0 w h : R)
          (n : nat),
      (forall j, (j < n)%nat -> (0 < mass_of (st j))%R) ->
      (forall j, (j < n)%nat ->
                 is_in_bounds st (data (create_quadtree x0 y0 w h)) j = true) ->
      ((forall i j, (i < j < n)%nat -> ~ same_place st i j) ->
       exists fuel t, build fuel st (create_quadtree x0 y0 w h) n = Some t) /\
      (forall fuel t i,
          build fuel st (create_quadtree x0 y0 w h) n = Some t ->
          calculate_force_from_quadtree G st i (calculate_center_of_mass st t)
            0%R (0%R, 0%R)
          = Some (direct_all_pairs_force G st n i) /\
          calculate_force_unguarded G st i (calculate_center_of_mass st t)
            0%R (0%R, 0%R)
          = Some (direct_all_pairs_force G st n i))) /\
  (option_map
     (fun t =>
        (calculate_force_from_quadtree 1%float near_trio64 2
           (calculate_center_of_mass near_trio64 t) 0%float (0%float, 0%float),
         calculate_force_unguarded 1%float near_trio64 2
           (calculate_center_of_mass near_trio64 t) 0%float (0%float, 0%float)))
     (build 60 near_trio64 solar_root64 3)
   = Some (Some (0, - 0x1p-10)%float, Some (0, - 0x1p-10)%float) /\
   direct_all_pairs_force 1%float near_trio64 3 2 = (0x1p-61, - 0x1p-9)%float).
Proof.
  split; [|split; vm_compute; reflexivity].
  intros B BB st G x0 y0 w h n Hpos Hin. split.
  - intros Hdistinct.
    apply (insert_all_terminates st (seq 0 n) (create_quadtree x0 y0 w h) I).
    + apply ForallOrdPairs_seq. intros i j Hij Hj. apply Hdistinct. lia.
    + intros p q [].
  - intros fuel t i Hbuild.
    destruct (insert_all_post st fuel (seq 0 n) (create_quadtree x0 y0 w h) t I
                Hbuild) as (Hwf & _ & Hperm).
    assert (Hf : filter (is_in_bounds st (data (create_quadtree x0 y0 w h)))
                   (seq 0 n) = seq 0 n).
    { apply forallb_filter_id. apply forallb_forall. intros j Hj.
      apply in_seq in Hj. apply Hin. lia. }
    rewrite Hf in Hperm. cbn [bodies_of create_quadtree body] in Hperm.
    rewrite app_nil_r in Hperm.
    assert (Hp : forall p, In p (bodies_of t) -> (0 < mass_of (st p))%R).
    { intros p Hp. apply (Permutation_in _ Hperm) in Hp. apply in_seq in Hp.
      apply Hpos. lia. }
    unfold direct_all_pairs_force. cbn [f0 Exact].
    rewrite <- (fold_add_pair_perm st G i _ _ Hperm).
    apply (force_theta_zero st G i t Hwf Hp).
Qed.

(** ** Where the centre of mass lies, and what the opening test sees *)

Section ExactCentre.
Context {B : Type} {BB : Body R B}.
Variable st : Store B.
Local Open Scope R_scope.







End ExactCentre.

(** ** Self-force and the softening guard in exact arithmetic *)

Section ExactNoSelf.
Context {B : Type} {BB : Body R B}.
Variable st : Store B.
Local Open Scope R_scope.





End ExactNoSelf.

(** ** C3 *)


(** ** C7 *)



(** ** C5 *)

(** Runs the code on concrete reals: unfolds one call at a time and decides
    each comparison. *)
Ltac run_reals :=
  repeat (
    unfold build, is_in_bounds, get_quadrant, insert_into_quadrant, subdivide,
           create_quadtree, set_body, set_aggregate;
    cbn [seq insert_all data child set_child bind
         node_x node_y width height body total_mass center_x center_y
         pos_x pos_y mass_of CelestialBody_Body Planet_Body
         x y vx vy mass radius fx fy p_x p_y p_mass fst snd];
    decide_reals;
    cbn [andb negb bind];
    rewrite ?insert_body_S).

Lemma build_pair_store : build 2 pair_store solar_root 2 = Some pair_tree.
Proof. unfold solar_root, pair_store, pair_tree. run_reals. reflexivity. Qed.






(** What the binary64 run of two coincident bodies leaves behind: the tree
    holds neither body, so the aggregation finds no mass at all (the two
    masses sum to 2). *)
Lemma binary64_coincident_mass_is_lost :
  option_map
    (fun t => total_mass (data (calculate_center_of_mass coincident_store64 t)))
    (build 61 coincident_store64 solar_root64 2)
  = Some 0%float.
Proof. vm_compute. reflexivity. Qed.

(** Two-body exactness, run in binary64 with THETA = 0.5: two bodies of
    mass 1 at distance 1 with G = 1 pull each other with a force of
    magnitude 1 along the line joining them, and the root aggregates a mass
    of 2. *)
Lemma binary64_two_body_exactness :
  option_map
    (fun t =>
       let t' := calculate_center_of_mass unit_pair64 t in
       (calculate_force_from_quadtree 1%float unit_pair64 0%nat t' 0.5%float
          (0%float, 0%float),
        calculate_force_from_quadtree 1%float unit_pair64 1%nat t' 0.5%float
          (0%float, 0%float),
        total_mass (data t')))
    (build 10 unit_pair64 solar_root64 2)
  = Some (Some (1%float, 0%float), Some ((-1)%float, 0%float), 2%float).
Proof. vm_compute. reflexivity. Qed.

(** ** C6 *)

Section ExactBounds.
Variable planets : Store (Planet R).
Local Open Scope R_scope.

(** The scan keeps a lower and an upper bound of every coordinate seen. *)
Lemma scan_fold_bounds (l : list ptr) :
  forall acc : R * R * R * R,
    (fst (fst (fst (fold_left (scan_step planets) l acc))) <= fst (fst (fst acc)) /\
     snd (fst (fst acc)) <= snd (fst (fst (fold_left (scan_step planets) l acc))) /\
     snd (fst (fold_left (scan_step planets) l acc)) <= snd (fst acc) /\
     snd acc <= snd (fold_left (scan_step planets) l acc)) /\
    forall i, In i l ->
      fst (fst (fst (fold_left (scan_step planets) l acc))) <= p_x (planets i)
        <= snd (fst (fst (fold_left (scan_step planets) l acc))) /\
      snd (fst (fold_left (scan_step planets) l acc)) <= p_y (planets i)
        <= snd (fold_left (scan_step planets) l acc).
Proof.
  induction l as [|k l IH]; intros acc; cbn [fold_left].
  - split; [lra|]. intros i [].
  - destruct (IH (scan_step planets acc k)) as (Hb & Hin).
    set (r := fold_left (scan_step planets) l (scan_step planets acc k)) in *.
    clearbody r.
    destruct acc as [[[mnx mxx] mny] mxy]. unfold scan_step in Hb.
    cbn [fst snd flt Exact] in Hb |- *.
    assert (Hk : fst (fst (fst r)) <= mnx /\
                 fst (fst (fst r)) <= p_x (planets k) /\
                 mxx <= snd (fst (fst r)) /\
                 p_x (planets k) <= snd (fst (fst r)) /\
                 snd (fst r) <= mny /\ snd (fst r) <= p_y (planets k) /\
                 mxy <= snd r /\ p_y (planets k) <= snd r).
    { destruct (R_ltb (p_x (planets k)) mnx) eqn:E1;
        destruct (R_ltb mxx (p_x (planets k))) eqn:E2;
        destruct (R_ltb (p_y (planets k)) mny) eqn:E3;
        destruct (R_ltb mxy (p_y (planets k))) eqn:E4;
        to_reals; lra. }
    split; [lra|].
    intros i [<-|Hi]; [lra|]. apply Hin, Hi.
Qed.

(** When two of the planets differ in a coordinate the padding is positive
    and the root contains every planet. *)
Lemma bounding_root_contains (n : nat) (i j : ptr) :
  (i < n)%nat -> (j < n)%nat ->
  p_x (planets i) <> p_x (planets j) \/ p_y (planets i) <> p_y (planets j) ->
  forall k, (k < n)%nat ->
    is_in_bounds planets (data (bounding_root planets n)) k = true.
Proof.
  intros Hi Hj Hdiff k Hk.
  unfold bounding_root, scan_bounds.
  pose proof (scan_fold_bounds (seq 0 n)
                (p_x (planets 0%nat), p_x (planets 0%nat),
                 p_y (planets 0%nat), p_y (planets 0%nat))) as H.
  destruct H as (_ & H).
  destruct (fold_left _ (seq 0 n) _) as [[[mnx mxx] mny] mxy].
  cbn [fst snd] in H.
  assert (Ii : In i (seq 0 n)) by (apply in_seq; lia).
  assert (Ij : In j (seq 0 n)) by (apply in_seq; lia).
  assert (Ik : In k (seq 0 n)) by (apply in_seq; lia).
  pose proof (H i Ii) as Bi. pose proof (H j Ij) as Bj. pose proof (H k Ik) as Bk.
  cbn [fsub fadd fmul fmax f0_1 Exact].
  apply is_in_bounds_iff.
  cbn [create_quadtree data node_x node_y width height pos_x pos_y Planet_Body].
  set (span := Rmax (mxx - mnx) (mxy - mny)).
  assert (Hs1 : mxx - mnx <= span) by apply Rmax_l.
  assert (Hs2 : mxy - mny <= span) by apply Rmax_r.
  assert (Hspan : 0 < span) by (destruct Hdiff; lra).
  set (pad := span * (1 / 10)).
  assert (Hpad : 0 < pad) by (unfold pad; lra).
  set (dim := Rmax (mxx + pad - (mnx - pad)) (mxy + pad - (mny - pad))).
  assert (Hd1 : mxx + pad - (mnx - pad) <= dim) by apply Rmax_l.
  assert (Hd2 : mxy + pad - (mny - pad) <= dim) by apply Rmax_r.
  lra.
Qed.

(** A collection of one planet spans nothing: the padding is zero, the
    region has width zero and does not contain the planet. *)
Lemma bounding_root_single :
  width (data (bounding_root planets 1)) = 0 /\
  is_in_bounds planets (data (bounding_root planets 1)) 0%nat = false.
Proof.
  unfold bounding_root, scan_bounds. cbn [seq fold_left]. unfold scan_step.
  cbn [flt Exact].
  rewrite !R_ltb_ge by lra.
  cbn [fsub fadd fmul fmax f0_1 Exact].
  set (x0 := p_x (planets 0%nat)). set (y0 := p_y (planets 0%nat)).
  assert (Hs : Rmax (x0 - x0) (y0 - y0) = 0).
  { rewrite Rmax_left by lra. lra. }
  rewrite Hs.
  assert (Hd : Rmax (x0 + 0 * (1 / 10) - (x0 - 0 * (1 / 10)))
                    (y0 + 0 * (1 / 10) - (y0 - 0 * (1 / 10))) = 0).
  { rewrite Rmax_left by lra. lra. }
  rewrite Hd. cbn [create_quadtree data width]. split; [reflexivity|].
  unfold is_in_bounds.
  cbn [node_x node_y width height pos_x pos_y Planet_Body fadd fle flt Exact].
  fold x0.
  rewrite (R_ltb_ge x0) by lra. rewrite andb_false_r. reflexivity.
Qed.

End ExactBounds.

(** C6, the failing input.  The bounds computation of the barnes_hut unit on
    a collection of one planet (any position): the padding is 10% of a zero
    span, so the region is the empty square of width zero at the planet, and
    the planet is outside it (exact arithmetic and binary64). *)
Theorem bounding_root_misses_lone_planet :
  (forall planets : Store (Planet R),
      width (data (bounding_root planets 1)) = 0%R /\
      height (data (bounding_root planets 1)) = width (data (bounding_root planets 1)) /\
      is_in_bounds planets (data (bounding_root planets 1)) 0 = false) /\
  (width (data (bounding_root lone_planet64 1)) = 0%float /\
   is_in_bounds lone_planet64 (data (bounding_root lone_planet64 1)) 0 = false /\
   build_report 5 lone_planet64 (bounding_root lone_planet64 1) 1 = Some (0%nat, [])).
Proof.
  split.
  - intros planets. destruct (bounding_root_single planets) as (Hw & Hin).
    split; [exact Hw|]. split; [|exact Hin].
    unfold bounding_root. destruct (scan_bounds planets 1) as [[[a b] c] e].
    reflexivity.
  - repeat split; vm_compute; reflexivity.
Qed.

(** ** C4 *)

Section TickOrder.
Context {F : Type} {AF : Arith F} {B : Type} {BB : Body F B}.

Lemma leaf_force_same_view (G : F) (st st' : Store B) (b p : ptr) (acc : F * F) :
  same_view st st' -> leaf_force G st b p acc = leaf_force G st' b p acc.
Proof.
  intros H. unfold leaf_force.
  destruct (H p) as (-> & -> & ->). destruct (H b) as (-> & -> & ->).
  reflexivity.
Qed.

Lemma opening_test_same_view (st st' : Store B) (b : ptr) (d : NodeData F)
    (theta : F) :
  same_view st st' -> opening_test st b d theta = opening_test st' b d theta.
Proof.
  intros H. unfold opening_test, com_distance.
  destruct (H b) as (-> & -> & _). reflexivity.
Qed.

Lemma node_force_same_view (G : F) (st st' : Store B) (b : ptr)
    (d : NodeData F) (acc : F * F) :
  same_view st st' -> node_force G st b d acc = node_force G st' b d acc.
Proof.
  intros H. unfold node_force. destruct (H b) as (-> & -> & ->). reflexivity.
Qed.

(** The guarded traversal reads the store only through positions and
    masses. *)
Lemma calculate_force_same_view (G : F) (st st' : Store B) (b : ptr)
    (theta : F) (t : QuadTreeNode F) :
  same_view st st' ->
  forall acc,
    calculate_force_from_quadtree G st b t theta acc =
    calculate_force_from_quadtree G st' b t theta acc.
Proof.
  intros H.
  induction t as [d | d nw IHnw ne IHne sw IHsw se IHse]; intros acc;
    cbn [calculate_force_from_quadtree data];
    destruct (feq (total_mass d) f0); try reflexivity;
    (destruct (holds_other d b); [apply leaf_force_same_view, H|]);
    try reflexivity.
  rewrite (opening_test_same_view st st' b d theta H).
  destruct (opening_test st' b d theta); [apply node_force_same_view, H|].
  rewrite IHnw.
  destruct (calculate_force_from_quadtree G st' b nw theta acc); [|reflexivity].
  cbn [bind]. rewrite IHne.
  destruct (calculate_force_from_quadtree G st' b ne theta p); [|reflexivity].
  cbn [bind]. rewrite IHsw.
  destruct (calculate_force_from_quadtree G st' b sw theta p0); [|reflexivity].
  cbn [bind]. apply IHse.
Qed.

End TickOrder.

Section PlanetTick.
Context {F : Type} {AF : Arith F}.

Lemma same_view_set_acceleration (planets cur : Store (Planet F)) (i : ptr)
    (ax ay : F) :
  same_view planets cur ->
  same_view planets (store_set cur i (set_acceleration (cur i) ax ay)).
Proof.
  intros H p. unfold store_set.
  destruct (Nat.eqb_spec p i) as [->|Hne]; [|apply H].
  destruct (H i) as (Hx & Hy & Hm). repeat split; assumption.
Qed.

(** The barnes_hut unit evaluates every planet's force against the
    positions the tick started with: its first loop writes accelerations
    only, so the order of the planets does not matter. *)
Lemma bh_forces_start_of_tick (G theta : F) (root : QuadTreeNode F)
    (planets : Store (Planet F)) (ps : list ptr) :
  forall cur planets',
    same_view planets cur ->
    bh_forces G theta root ps cur = Some planets' ->
    NoDup ps ->
    same_view planets planets' /\
    (forall q, ~ In q ps -> planets' q = cur q) /\
    forall i, In i ps ->
      exists f,
        calculate_force_from_quadtree G planets i root theta (f0, f0) = Some f /\
        p_ax (planets' i) = fdiv (fst f) (p_mass (planets i)) /\
        p_ay (planets' i) = fdiv (snd f) (p_mass (planets i)).
Proof.
  induction ps as [|k ps IH]; intros cur planets' Hview Hrun Hnd;
    cbn [bh_forces] in Hrun.
  - inversion Hrun; subst. split; [exact Hview|].
    split; [reflexivity|]. intros i [].
  - rewrite <- (calculate_force_same_view G planets cur k theta root Hview) in Hrun.
    destruct (calculate_force_from_quadtree G planets k root theta (f0, f0))
      as [f|] eqn:Ef; [|discriminate].
    cbn [bind] in Hrun. inversion Hnd as [|? ? Hk Hnd']; subst.
    destruct (IH _ _ (same_view_set_acceleration planets cur k _ _ Hview)
                Hrun Hnd') as (Hv & Hout & Hin).
    split; [exact Hv|]. split.
    + intros q Hq. rewrite Hout by (intros Hq'; apply Hq; right; exact Hq').
      unfold store_set. destruct (Nat.eqb_spec q k) as [->|]; [|reflexivity].
      contradiction Hq. left; reflexivity.
    + intros i [<-|Hi]; [|apply Hin, Hi].
      exists f. split; [exact Ef|].
      rewrite (Hout k Hk). unfold store_set. rewrite Nat.eqb_refl.
      destruct (Hview k) as (_ & _ & Hm). cbn [mass_of Planet_Body] in Hm.
      cbn [set_acceleration p_ax p_ay]. rewrite Hm. split; reflexivity.
Qed.

End PlanetTick.

(** C4, the failing input.  Two bodies of mass 16 at (-2, 0) and (2, 0),
    G = 1, THETA = 0.5, dt = 1, in binary64.  Against the tree as built at
    the start of the tick the force on body 1 is (-16, 0).  The tick of
    solar.c evaluates and integrates in one loop, and the leaves of the tree
    point into the array that [update_body] writes: body 0 has moved to
    x = -1 when body 1 is evaluated, and the force stored for body 1 is
    -28.44; processed in the other order, body 1 gets -16 and body 0 gets
    28.44 instead of 16. *)
Theorem solar_tick_reads_moved_bodies :
  option_map
    (fun t => calculate_force_unguarded 1%float pair_store64 1
                (calculate_center_of_mass pair_store64 t) 0.5%float
                (0%float, 0%float))
    (build 2 pair_store64 solar_root64 2)
  = Some (Some ((-16)%float, 0%float)) /\
  option_map (fun st' => (fx (st' 0), fx (st' 1), x (st' 0)))
    (update_simulation_barnes_hut 2 1%float 0.5%float 50%float 1%float
       pair_store64 2)
  = Some (16%float, (-28.444444444444443)%float, (-1)%float) /\
  option_map
    (fun t =>
       option_map (fun st' => (fx (st' 0), fx (st' 1)))
         (force_and_update 1%float 0.5%float 1%float
            (calculate_center_of_mass pair_store64 t) [1; 0] pair_store64))
    (build 2 pair_store64 solar_root64 2)
  = Some (Some (28.444444444444443%float, (-16)%float)).
Proof. repeat split; vm_compute; reflexivity. Qed.

(** ** C8 *)

(** C8. Integration: the step sets the velocity to [v + (f / m) * dt] and
    then the position to [x + v' * dt] with the velocity just computed, in
    both [update_body] functions and in the integration loop of the
    barnes_hut unit (where [a = f / m] was stored by the force loop). *)
Theorem update_body_velocity_then_position {F : Type} {AF : Arith F}
    (b : CelestialBody F) (p : Planet F) (force_x force_y dt : F) :
  (vx (update_body b force_x force_y dt)
     = fadd (vx b) (fmul (fdiv force_x (mass b)) dt) /\
   vy (update_body b force_x force_y dt)
     = fadd (vy b) (fmul (fdiv force_y (mass b)) dt) /\
   x (update_body b force_x force_y dt)
     = fadd (x b) (fmul (vx (update_body b force_x force_y dt)) dt) /\
   y (update_body b force_x force_y dt)
     = fadd (y b) (fmul (vy (update_body b force_x force_y dt)) dt)) /\
  (vx (update_body_quadTree2 b force_x force_y dt)
     = fadd (vx b) (fmul (fdiv force_x (mass b)) dt) /\
   vy (update_body_quadTree2 b force_x force_y dt)
     = fadd (vy b) (fmul (fdiv force_y (mass b)) dt) /\
   x (update_body_quadTree2 b force_x force_y dt)
     = fadd (x b) (fmul (vx (update_body_quadTree2 b force_x force_y dt)) dt) /\
   y (update_body_quadTree2 b force_x force_y dt)
     = fadd (y b) (fmul (vy (update_body_quadTree2 b force_x force_y dt)) dt)) /\
  (p_vx (integrate_planet p dt) = fadd (p_vx p) (fmul (p_ax p) dt) /\
   p_vy (integrate_planet p dt) = fadd (p_vy p) (fmul (p_ay p) dt) /\
   p_x (integrate_planet p dt)
     = fadd (p_x p) (fmul (p_vx (integrate_planet p dt)) dt) /\
   p_y (integrate_planet p dt)
     = fadd (p_y p) (fmul (p_vy (integrate_planet p dt)) dt)).
Proof. repeat split. Qed.

(** ** C9 *)



(** ** C10 *)

(** C10. A body outside the node's bounds: [insert_body] returns at once
    with the tree as it was, at any stack depth and without an error, and
    the insertion loop goes on as if the body were not in the list. *)
Theorem out_of_bounds_body_is_dropped {F B : Type} {AF : Arith F}
    {BB : Body F B} (st : Store B) (node : QuadTreeNode F) (b : ptr)
    (fuel : nat) (ps : list ptr) :
  is_in_bounds st (data node) b = false ->
  insert_body (S fuel) st node b = Some node /\
  insert_all (S fuel) st node (b :: ps) = insert_all (S fuel) st node ps.
Proof.
  intros Hout.
  pose proof (insert_body_out_of_bounds fuel st node b Hout) as H.
  split; [exact H|]. cbn [insert_all]. rewrite H. reflexivity.
Qed.

(** ** The claims on the sample inputs *)

Lemma pair_store_mass (i : nat) : (i < 2)%nat -> (0 < mass_of (pair_store i))%R.
Proof. intros _. destruct i as [|i]; cbn; lra. Qed.

Lemma pair_store_in_bounds (i : nat) :
  (i < 2)%nat ->
  is_in_bounds pair_store (data (create_quadtree (-50) (-50) 100 100)%R) i = true.
Proof. intros _. apply is_in_bounds_iff. destruct i as [|i]; cbn; lra. Qed.



(** C2 (amended) on [pair_store], for the body at (-2, 0) and G = 1. *)
Lemma theta_zero_is_direct_sum_witness :
  (exists fuel t, build fuel pair_store solar_root 2 = Some t) /\
  calculate_force_from_quadtree 1%R pair_store 0
    (calculate_center_of_mass pair_store pair_tree) 0%R (0%R, 0%R)
  = Some (direct_all_pairs_force 1%R pair_store 2 0) /\
  calculate_force_unguarded 1%R pair_store 0
    (calculate_center_of_mass pair_store pair_tree) 0%R (0%R, 0%R)
  = Some (direct_all_pairs_force 1%R pair_store 2 0).
Proof.
  destruct (proj1 theta_zero_is_direct_sum (CelestialBody R) _ pair_store
              1%R (-50)%R (-50)%R 100%R 100%R 2%nat pair_store_mass
              pair_store_in_bounds) as (Hret & Hsum).
  split.
  - apply Hret. intros i j Hij (Hx & _).
    assert (i = 0%nat /\ j = 1%nat) as (-> & ->) by lia.
    cbn in Hx. lra.
  - exact (Hsum 2%nat pair_tree 0%nat build_pair_store).
Defined.




(** C10 on [pair_store]: the unit square at the origin contains neither
    body. *)
Lemma out_of_bounds_body_is_dropped_witness :
  insert_body 1 pair_store (create_quadtree 0 0 1 1)%R 0
  = Some (create_quadtree 0 0 1 1)%R /\
  insert_all 1 pair_store (create_quadtree 0 0 1 1)%R [0; 1]
  = insert_all 1 pair_store (create_quadtree 0 0 1 1)%R [1].
Proof.
  apply (out_of_bounds_body_is_dropped pair_store (create_quadtree 0 0 1 1)%R
           0 0 [1]).
  unfold is_in_bounds. cbn [data create_quadtree node_x pos_x pair_store
                            CelestialBody_Body x fle Exact].
  rewrite R_leb_gt by lra. reflexivity.
Defined.






(** * Further properties of the programs *)

(** ** The tree a build leaves *)

(** X1. The tree that the insertion loop returns, in every arithmetic:
    it keeps the root's box, its internal nodes hold no body, every leaf's
    body passed the bounds test of the leaf, no body is stored twice, and
    every body it holds is one of the inserted bodies that passed the
    bounds test of the root.  In exact arithmetic it holds all of those;
    in binary64 it can miss some: of the first two bodies of [near_trio64],
    both inside the root, the tree holds only the first. *)
Theorem build_holds_bodies_in_bounds :
  (forall (F B : Type) (AF : Arith F) (BB : Body F B) (st : Store B)
          (x0 y0 w h : F) (n fuel : nat) (t : QuadTreeNode F),
      build fuel st (create_quadtree x0 y0 w h) n = Some t ->
      bodies_in_leaves st t /\
      same_box (data t) (data (create_quadtree x0 y0 w h)) /\
      NoDup (bodies_of t) /\
      (forall p, In p (bodies_of t) ->
                 (p < n)%nat /\
                 is_in_bounds st (data (create_quadtree x0 y0 w h)) p = true)) /\
  (forall (B : Type) (BB : Body R B) (st : Store B) (x0 y0 w h : R)
          (n fuel : nat) (t : QuadTreeNode R),
      build fuel st (create_quadtree x0 y0 w h) n = Some t ->
      forall p, (p < n)%nat ->
                is_in_bounds st (data (create_quadtree x0 y0 w h)) p = true ->
                In p (bodies_of t)) /\
  (is_in_bounds near_trio64 (data solar_root64) 1 = true /\
   option_map bodies_of (build 60 near_trio64 solar_root64 2) = Some [0%nat]).
Proof.
  split; [|split].
  - intros F B AF BB st x0 y0 w h n fuel t Hbuild.
    destruct (insert_all_keeps st fuel (seq 0 n) (create_quadtree x0 y0 w h) t
                I Hbuild) as (Hl & Hbox & Hcount).
    assert (Hfilter : NoDup (filter (is_in_bounds st
                                       (data (create_quadtree x0 y0 w h)))
                               (seq 0 n)))
      by apply NoDup_filter, seq_NoDup.
    split; [exact Hl|]. split; [exact Hbox|]. split.
    + apply (NoDup_count_occ Nat.eq_dec). intros p. specialize (Hcount p).
      rewrite (NoDup_count_occ Nat.eq_dec) in Hfilter. specialize (Hfilter p).
      unfold held in Hcount. cbn [bodies_of create_quadtree body count_occ] in Hcount.
      unfold ptr in *. lia.
    + intros p Hp. specialize (Hcount p).
      apply (count_occ_In Nat.eq_dec) in Hp.
      assert (Hin : In p (filter (is_in_bounds st
                                    (data (create_quadtree x0 y0 w h)))
                            (seq 0 n))).
      { apply (count_occ_In Nat.eq_dec). unfold held in Hcount.
        cbn [bodies_of create_quadtree body count_occ] in Hcount.
        unfold ptr in *. lia. }
      apply filter_In in Hin. destruct Hin as (Hseq & Hin).
      apply in_seq in Hseq. split; [lia|exact Hin].
  - intros B BB st x0 y0 w h n fuel t Hbuild p Hp Hin.
    destruct (insert_all_post st fuel (seq 0 n) (create_quadtree x0 y0 w h) t I
                Hbuild) as (_ & _ & Hperm).
    cbn [bodies_of create_quadtree body] in Hperm. rewrite app_nil_r in Hperm.
    apply (Permutation_in _ (Permutation_sym Hperm)).
    apply filter_In. split; [apply in_seq; lia|exact Hin].
  - split; vm_compute; reflexivity.
Qed.

(** X1 on [pair_store]. *)
Lemma build_holds_bodies_in_bounds_witness :
  NoDup (bodies_of pair_tree) /\
  forall p, In p (bodies_of pair_tree) ->
            (p < 2)%nat /\
            is_in_bounds pair_store
              (data (create_quadtree (-50) (-50) 100 100)%R) p = true.
Proof.
  exact (proj2 (proj2 (proj1 build_holds_bodies_in_bounds R (CelestialBody R)
                         _ _ pair_store (-50)%R (-50)%R 100%R 100%R 2%nat 2%nat
                         pair_tree build_pair_store))).
Defined.

(** ** The centre of mass *)

Section ExactMoments.
Context {B : Type} {BB : Body R B}.
Variable st : Store B.
Variable coord : B -> R.
Local Open Scope R_scope.

Lemma moment_sum_nil : moment_sum coord st [] = 0.
Proof. reflexivity. Qed.

Lemma moment_sum_cons (p : ptr) (l : list ptr) :
  moment_sum coord st (p :: l) = mass_of (st p) * coord (st p) + moment_sum coord st l.
Proof. reflexivity. Qed.

Lemma moment_sum_app (l1 l2 : list ptr) :
  moment_sum coord st (l1 ++ l2) = moment_sum coord st l1 + moment_sum coord st l2.
Proof.
  induction l1 as [|p l1 IH]; cbn [app].
  - rewrite moment_sum_nil. lra.
  - rewrite !moment_sum_cons, IH. lra.
Qed.

Lemma moment_sum_perm (l1 l2 : list ptr) :
  Permutation l1 l2 -> moment_sum coord st l1 = moment_sum coord st l2.
Proof.
  induction 1; rewrite ?moment_sum_cons in *; try lra; congruence.
Qed.

End ExactMoments.

Section ExactCentroid.
Context {B : Type} {BB : Body R B}.
Variable st : Store B.
Local Open Scope R_scope.

(** What one round of the aggregation adds to the running moments. *)
Lemma add_child_moment_x (acc : R * R * R) (c : QuadTreeNode R) :
  0 <= total_mass (data c) ->
  snd (fst (add_child acc c))
    = snd (fst acc) + center_x (data c) * total_mass (data c).
Proof.
  intros H. destruct acc as [[m cx] cy]. unfold add_child.
  cbn [flt fadd fmul f0 Exact].
  destruct (R_ltb 0 (total_mass (data c))) eqn:E; to_reals; cbn [fst snd].
  - reflexivity.
  - assert (E0 : total_mass (data c) = 0) by lra. rewrite E0. lra.
Qed.

Lemma add_child_moment_y (acc : R * R * R) (c : QuadTreeNode R) :
  0 <= total_mass (data c) ->
  snd (add_child acc c) = snd acc + center_y (data c) * total_mass (data c).
Proof.
  intros H. destruct acc as [[m cx] cy]. unfold add_child.
  cbn [flt fadd fmul f0 Exact].
  destruct (R_ltb 0 (total_mass (data c))) eqn:E; to_reals; cbn [fst snd].
  - reflexivity.
  - assert (E0 : total_mass (data c) = 0) by lra. rewrite E0. lra.
Qed.

(** After aggregation a node's centre of mass, weighted by its mass, is the
    first moment of the bodies below it. *)
Lemma aggregate_moments (t : QuadTreeNode R) :
  well_formed st t ->
  (forall p, In p (bodies_of t) -> 0 < mass_of (st p)) ->
  center_x (data (calculate_center_of_mass st t))
    * total_mass (data (calculate_center_of_mass st t))
  = moment_sum pos_x st (bodies_of t) /\
  center_y (data (calculate_center_of_mass st t))
    * total_mass (data (calculate_center_of_mass st t))
  = moment_sum pos_y st (bodies_of t).
Proof.
  induction t as [d | d nw IHnw ne IHne sw IHsw se IHse]; intros Hwf Hpos.
  - cbn [calculate_center_of_mass bodies_of].
    destruct (body d) as [p|] eqn:E;
      cbn [data set_aggregate total_mass center_x center_y f0 Exact];
      rewrite ?moment_sum_cons, ?moment_sum_nil; split; lra.
  - pose proof (aggregate_total_mass st _ Hwf Hpos) as (Htot & _).
    destruct Hwf as (Hb & Hw & Hh & Bnw & Bne & Bsw & Bse & Wnw & Wne & Wsw & Wse).
    cbn [bodies_of] in Hpos, Htot |- *. rewrite Hb in Hpos, Htot |- *.
    cbn [app] in Hpos, Htot |- *.
    assert (Pnw : forall p, In p (bodies_of nw) -> 0 < mass_of (st p))
      by (intros; apply Hpos; rewrite !in_app_iff; auto).
    assert (Pne : forall p, In p (bodies_of ne) -> 0 < mass_of (st p))
      by (intros; apply Hpos; rewrite !in_app_iff; auto).
    assert (Psw : forall p, In p (bodies_of sw) -> 0 < mass_of (st p))
      by (intros; apply Hpos; rewrite !in_app_iff; auto).
    assert (Pse : forall p, In p (bodies_of se) -> 0 < mass_of (st p))
      by (intros; apply Hpos; rewrite !in_app_iff; auto).
    destruct (IHnw Wnw Pnw) as (Xnw & Ynw).
    destruct (IHne Wne Pne) as (Xne & Yne).
    destruct (IHsw Wsw Psw) as (Xsw & Ysw).
    destruct (IHse Wse Pse) as (Xse & Yse).
    destruct (aggregate_total_mass st nw Wnw Pnw) as (Tnw & _).
    destruct (aggregate_total_mass st ne Wne Pne) as (Tne & _).
    destruct (aggregate_total_mass st sw Wsw Psw) as (Tsw & _).
    destruct (aggregate_total_mass st se Wse Pse) as (Tse & _).
    pose proof (mass_sum_nonneg st _ Pnw). pose proof (mass_sum_nonneg st _ Pne).
    pose proof (mass_sum_nonneg st _ Psw). pose proof (mass_sum_nonneg st _ Pse).
    cbn [calculate_center_of_mass] in Htot |- *.
    destruct (add_child _ (calculate_center_of_mass st se)) as [[m cx] cy] eqn:E.
    assert (Hm : m = mass_sum st (bodies_of nw) + mass_sum st (bodies_of ne)
                     + mass_sum st (bodies_of sw) + mass_sum st (bodies_of se)).
    { change m with (fst (fst (m, cx, cy))). rewrite <- E.
      rewrite !add_child_mass by lra. cbn [fst f0 Exact]. lra. }
    assert (Hcx : cx = moment_sum pos_x st (bodies_of nw)
                       + moment_sum pos_x st (bodies_of ne)
                       + moment_sum pos_x st (bodies_of sw)
                       + moment_sum pos_x st (bodies_of se)).
    { change cx with (snd (fst (m, cx, cy))). rewrite <- E.
      rewrite !add_child_moment_x by lra.
      cbn [fst snd f0 Exact]. lra. }
    assert (Hcy : cy = moment_sum pos_y st (bodies_of nw)
                       + moment_sum pos_y st (bodies_of ne)
                       + moment_sum pos_y st (bodies_of sw)
                       + moment_sum pos_y st (bodies_of se)).
    { change cy with (snd (m, cx, cy)). rewrite <- E.
      rewrite !add_child_moment_y by lra.
      cbn [fst snd f0 Exact]. lra. }
    rewrite !moment_sum_app.
    cbn [flt f0 fdiv Exact].
    destruct (R_ltb 0 m) eqn:Em; to_reals;
      cbn [data set_aggregate total_mass center_x center_y].
    + split; field_simplify; lra.
    + rewrite Tnw in Xnw, Ynw. rewrite Tne in Xne, Yne.
      rewrite Tsw in Xsw, Ysw. rewrite Tse in Xse, Yse.
      assert (Znw : mass_sum st (bodies_of nw) = 0) by lra.
      assert (Zne : mass_sum st (bodies_of ne) = 0) by lra.
      assert (Zsw : mass_sum st (bodies_of sw) = 0) by lra.
      assert (Zse : mass_sum st (bodies_of se) = 0) by lra.
      rewrite Znw in Xnw, Ynw. rewrite Zne in Xne, Yne.
      rewrite Zsw in Xsw, Ysw. rewrite Zse in Xse, Yse.
      split; nra.
Qed.
End ExactCentroid.

(** X2. The centre of mass is the mass-weighted mean of the bodies the
    tree holds: for every tree of the shape the insertion keeps, with
    bodies of positive mass, the aggregated root has [total_mass] equal to
    the sum of their masses and [center_x * total_mass] equal to the sum of
    [mass * x], the same for [y]; a tree that holds no body gets mass 0
    (exact arithmetic). *)
Theorem centre_of_mass_is_weighted_mean {B : Type} {BB : Body R B}
    (st : Store B) (t : QuadTreeNode R) :
  well_formed st t ->
  (forall p, In p (bodies_of t) -> (0 < mass_of (st p))%R) ->
  total_mass (data (calculate_center_of_mass st t))
  = mass_sum st (bodies_of t) /\
  (center_x (data (calculate_center_of_mass st t))
   * total_mass (data (calculate_center_of_mass st t))
   = moment_sum pos_x st (bodies_of t))%R /\
  (center_y (data (calculate_center_of_mass st t))
   * total_mass (data (calculate_center_of_mass st t))
   = moment_sum pos_y st (bodies_of t))%R /\
  (bodies_of t = [] ->
   total_mass (data (calculate_center_of_mass st t)) = 0%R).
Proof.
  intros Hwf Hpos.
  destruct (aggregate_total_mass st t Hwf Hpos) as (Ht & _).
  destruct (aggregate_moments st t Hwf Hpos) as (Hx & Hy).
  split; [exact Ht|]. split; [exact Hx|]. split; [exact Hy|].
  intros Hnil. rewrite Ht, Hnil. reflexivity.
Qed.

(** X2 on [pair_store]. *)
Lemma centre_of_mass_is_weighted_mean_witness :
  (center_x (data (calculate_center_of_mass pair_store pair_tree))
   * total_mass (data (calculate_center_of_mass pair_store pair_tree))
   = moment_sum pos_x pair_store (bodies_of pair_tree))%R /\
  (center_y (data (calculate_center_of_mass pair_store pair_tree))
   * total_mass (data (calculate_center_of_mass pair_store pair_tree))
   = moment_sum pos_y pair_store (bodies_of pair_tree))%R.
Proof.
  assert (Hwf : well_formed pair_store pair_tree)
    by exact (proj1 (insert_all_post pair_store 2 (seq 0 2) solar_root
                       pair_tree I build_pair_store)).
  assert (Hpos : forall p, In p (bodies_of pair_tree) ->
                           (0 < mass_of (pair_store p))%R).
  { intros p Hp. apply pair_store_mass.
    cbn in Hp. destruct Hp as [<-|[<-|[]]]; lia. }
  destruct (centre_of_mass_is_weighted_mean pair_store pair_tree Hwf Hpos)
    as (_ & Hx & Hy & _).
  split; [exact Hx|exact Hy].
Defined.

(** ** The pairwise force *)

Section ExactPairs.
Context {B : Type} {BB : Body R B}.
Variable st : Store B.
Variable G : R.
Local Open Scope R_scope.

(** The pull of [p] on [b] is the opposite of the pull of [b] on [p]. *)
Lemma pairwise_force_antisym (b p : ptr) :
  fst (pairwise_force G st p b) = - fst (pairwise_force G st b p) /\
  snd (pairwise_force G st p b) = - snd (pairwise_force G st b p).
Proof.
  unfold pairwise_force. cbn [fadd fsub fmul fdiv flt fsqrt f0 EPSILON Exact].
  replace ((pos_x (st b) - pos_x (st p)) * (pos_x (st b) - pos_x (st p)) +
           (pos_y (st b) - pos_y (st p)) * (pos_y (st b) - pos_y (st p)))
    with ((pos_x (st p) - pos_x (st b)) * (pos_x (st p) - pos_x (st b)) +
          (pos_y (st p) - pos_y (st b)) * (pos_y (st p) - pos_y (st b)))
    by ring.
  set (r := sqrt _).
  destruct (R_ltb r (1 / 1000000000)); cbn [fst snd]; split;
    unfold Rdiv; ring.
Qed.

Lemma pairwise_force_magnitude (b p : ptr) :
  EPSILON <=
    sqrt ((pos_x (st p) - pos_x (st b)) * (pos_x (st p) - pos_x (st b)) +
          (pos_y (st p) - pos_y (st b)) * (pos_y (st p) - pos_y (st b))) ->
  fst (pairwise_force G st b p) * fst (pairwise_force G st b p)
  + snd (pairwise_force G st b p) * snd (pairwise_force G st b p)
  = (G * mass_of (st b) * mass_of (st p) /
       ((pos_x (st p) - pos_x (st b)) * (pos_x (st p) - pos_x (st b)) +
        (pos_y (st p) - pos_y (st b)) * (pos_y (st p) - pos_y (st b))))
    * (G * mass_of (st b) * mass_of (st p) /
       ((pos_x (st p) - pos_x (st b)) * (pos_x (st p) - pos_x (st b)) +
        (pos_y (st p) - pos_y (st b)) * (pos_y (st p) - pos_y (st b)))).
Proof.
  intros Hr. unfold pairwise_force.
  cbn [fadd fsub fmul fdiv flt fsqrt f0 EPSILON Exact] in *.
  set (dx := pos_x (st p) - pos_x (st b)) in *.
  set (dy := pos_y (st p) - pos_y (st b)) in *.
  rewrite R_ltb_ge by exact Hr.
  assert (Hpos : 0 < sqrt (dx * dx + dy * dy)) by lra.
  pose proof (sqrt_pos_arg _ Hpos) as Hd.
  pose proof (sqrt_sqrt (dx * dx + dy * dy) (Rlt_le _ _ Hd)) as Hs.
  set (r := sqrt (dx * dx + dy * dy)) in *.
  cbn [fst snd]. rewrite Hs.
  set (k := G * mass_of (st b) * mass_of (st p)).
  replace (k / (dx * dx + dy * dy) * dx / r * (k / (dx * dx + dy * dy) * dx / r) +
           k / (dx * dx + dy * dy) * dy / r * (k / (dx * dx + dy * dy) * dy / r))
    with ((k / (dx * dx + dy * dy)) * (k / (dx * dx + dy * dy))
          * ((dx * dx + dy * dy) / (r * r)))
    by (field; split; lra).
  rewrite Hs. field. lra.
Qed.

Lemma pairwise_force_direction (b p : ptr) :
  EPSILON <=
    sqrt ((pos_x (st p) - pos_x (st b)) * (pos_x (st p) - pos_x (st b)) +
          (pos_y (st p) - pos_y (st b)) * (pos_y (st p) - pos_y (st b))) ->
  fst (pairwise_force G st b p) * (pos_x (st p) - pos_x (st b))
  + snd (pairwise_force G st b p) * (pos_y (st p) - pos_y (st b))
  = G * mass_of (st b) * mass_of (st p) /
    sqrt ((pos_x (st p) - pos_x (st b)) * (pos_x (st p) - pos_x (st b)) +
          (pos_y (st p) - pos_y (st b)) * (pos_y (st p) - pos_y (st b))).
Proof.
  intros Hr. unfold pairwise_force.
  cbn [fadd fsub fmul fdiv flt fsqrt f0 EPSILON Exact] in *.
  set (dx := pos_x (st p) - pos_x (st b)) in *.
  set (dy := pos_y (st p) - pos_y (st b)) in *.
  rewrite R_ltb_ge by exact Hr.
  assert (Hpos : 0 < sqrt (dx * dx + dy * dy)) by lra.
  pose proof (sqrt_pos_arg _ Hpos) as Hd.
  pose proof (sqrt_sqrt (dx * dx + dy * dy) (Rlt_le _ _ Hd)) as Hs.
  set (r := sqrt (dx * dx + dy * dy)) in *.
  cbn [fst snd].
  transitivity (G * mass_of (st b) * mass_of (st p) / (r * r)
                * (dx * dx + dy * dy) / r); [field; lra|].
  rewrite <- Hs. field. lra.
Qed.

End ExactPairs.

(** X3. Newton's third law in the leaf branch: the force that the body [p]
    of a leaf adds for the target [b] is the opposite of the force [b] adds
    for the target [p].  It is zero when the two are closer than EPSILON;
    otherwise it has the magnitude [G * m_b * m_p / r^2], lies on the line
    through the two bodies and its component along the vector from [b] to
    [p] is [G * m_b * m_p / r], so it pulls [b] towards [p] when [G] and
    the masses are positive (exact arithmetic). *)
Theorem leaf_force_third_law {B : Type} {BB : Body R B} (st : Store B)
    (G : R) (b p : ptr) :
  exists f : R * R,
    leaf_force G st b p (0, 0)%R = Some f /\
    leaf_force G st p b (0, 0)%R = Some (- fst f, - snd f)%R /\
    ((sqrt ((pos_x (st p) - pos_x (st b)) * (pos_x (st p) - pos_x (st b)) +
            (pos_y (st p) - pos_y (st b)) * (pos_y (st p) - pos_y (st b)))
      < EPSILON)%R -> f = (0, 0)%R) /\
    ((EPSILON <=
      sqrt ((pos_x (st p) - pos_x (st b)) * (pos_x (st p) - pos_x (st b)) +
            (pos_y (st p) - pos_y (st b)) * (pos_y (st p) - pos_y (st b))))%R ->
     (fst f * fst f + snd f * snd f
      = (G * mass_of (st b) * mass_of (st p) /
           ((pos_x (st p) - pos_x (st b)) * (pos_x (st p) - pos_x (st b)) +
            (pos_y (st p) - pos_y (st b)) * (pos_y (st p) - pos_y (st b))))
        * (G * mass_of (st b) * mass_of (st p) /
           ((pos_x (st p) - pos_x (st b)) * (pos_x (st p) - pos_x (st b)) +
            (pos_y (st p) - pos_y (st b)) * (pos_y (st p) - pos_y (st b)))))%R /\
     (fst f * (pos_y (st p) - pos_y (st b))
      = snd f * (pos_x (st p) - pos_x (st b)))%R /\
     (fst f * (pos_x (st p) - pos_x (st b))
      + snd f * (pos_y (st p) - pos_y (st b))
      = G * mass_of (st b) * mass_of (st p) /
        sqrt ((pos_x (st p) - pos_x (st b)) * (pos_x (st p) - pos_x (st b)) +
              (pos_y (st p) - pos_y (st b)) * (pos_y (st p) - pos_y (st b))))%R).
Proof.
  exists (pairwise_force G st b p).
  rewrite !leaf_force_exact. cbn [fst snd].
  destruct (pairwise_force_antisym st G b p) as (Hx & Hy).
  split; [rewrite !Rplus_0_l; now destruct (pairwise_force G st b p)|].
  split; [rewrite !Rplus_0_l, Hx, Hy; reflexivity|].
  split.
  - intros Hr. unfold pairwise_force.
    cbn [fadd fsub fmul fdiv flt fsqrt f0 EPSILON Exact] in *.
    now rewrite R_ltb_lt by exact Hr.
  - intros Hr. split; [exact (pairwise_force_magnitude st G b p Hr)|].
    split; [|exact (pairwise_force_direction st G b p Hr)].
    unfold pairwise_force.
    cbn [fadd fsub fmul fdiv flt fsqrt f0 EPSILON Exact] in *.
    rewrite R_ltb_ge by exact Hr. cbn [fst snd]. unfold Rdiv. ring.
Qed.

Section ExactSums.
Local Open Scope R_scope.

Lemma sum_list_cons (f : ptr -> R) (p : ptr) (l : list ptr) :
  sum_list f (p :: l) = f p + sum_list f l.
Proof. reflexivity. Qed.

Lemma sum_list_ext (f g : ptr -> R) (l : list ptr) :
  (forall i, In i l -> f i = g i) -> sum_list f l = sum_list g l.
Proof.
  induction l as [|a l IH]; intros H; [reflexivity|].
  rewrite !sum_list_cons, IH by (intros; apply H; right; assumption).
  rewrite (H a) by (left; reflexivity). reflexivity.
Qed.

Lemma sum_list_plus (f g : ptr -> R) (l : list ptr) :
  sum_list (fun i => f i + g i) l = sum_list f l + sum_list g l.
Proof.
  induction l as [|a l IH]; [cbn; lra|]. rewrite !sum_list_cons, IH. lra.
Qed.

Lemma sum_list_zero (l : list ptr) : sum_list (fun _ => 0) l = 0.
Proof.
  induction l as [|a l IH]; [reflexivity|]. rewrite sum_list_cons, IH. lra.
Qed.

(** A double sum of an antisymmetric term vanishes. *)
Lemma sum_list_antisym (g : ptr -> ptr -> R) (l : list ptr) :
  (forall i j, g i j = - g j i) ->
  sum_list (fun i => sum_list (g i) l) l = 0.
Proof.
  intros Ha. induction l as [|a l IH]; [reflexivity|].
  rewrite (sum_list_ext (fun i => sum_list (g i) (a :: l))
             (fun i => g i a + sum_list (g i) l) (a :: l))
    by (intros; apply sum_list_cons).
  rewrite sum_list_plus, !sum_list_cons, IH.
  assert (Haa : g a a = 0) by (pose proof (Ha a a); lra).
  assert (Hc : sum_list (g a) l + sum_list (fun i => g i a) l = 0).
  { rewrite <- sum_list_plus.
    rewrite (sum_list_ext _ (fun _ => 0)) by (intros i _; rewrite (Ha i a); lra).
    apply sum_list_zero. }
  lra.
Qed.

End ExactSums.

Section ExactMomentum.
Context {B : Type} {BB : Body R B}.
Variable st : Store B.
Variable G : R.
Local Open Scope R_scope.

Lemma add_pair_components (i j : ptr) (acc : R * R) :
  fst (add_pair G st i acc j)
  = fst acc + (if Nat.eqb j i then 0 else fst (pairwise_force G st i j)) /\
  snd (add_pair G st i acc j)
  = snd acc + (if Nat.eqb j i then 0 else snd (pairwise_force G st i j)).
Proof.
  unfold add_pair. destruct (Nat.eqb j i); cbn [fst snd fadd Exact]; split; lra.
Qed.

(** The direct sum for the target [i] over the bodies [l], one component at
    a time. *)
Lemma fold_add_pair_sum (i : ptr) (l : list ptr) :
  forall acc : R * R,
    fst (fold_left (add_pair G st i) l acc)
    = fst acc + sum_list (fun j => if Nat.eqb j i then 0
                                   else fst (pairwise_force G st i j)) l /\
    snd (fold_left (add_pair G st i) l acc)
    = snd acc + sum_list (fun j => if Nat.eqb j i then 0
                                   else snd (pairwise_force G st i j)) l.
Proof.
  induction l as [|a l IH]; intros acc; [cbn; split; lra|].
  cbn [fold_left]. rewrite !sum_list_cons.
  destruct (IH (add_pair G st i acc a)) as (IHx & IHy).
  destruct (add_pair_components i a acc) as (Hx & Hy).
  rewrite IHx, IHy, Hx, Hy. split; lra.
Qed.

(** The direct sums over the bodies [l], for the targets in [l], cancel. *)
Lemma direct_forces_cancel (l : list ptr) :
  sum_list (fun i => fst (fold_left (add_pair G st i) l (0, 0))) l = 0 /\
  sum_list (fun i => snd (fold_left (add_pair G st i) l (0, 0))) l = 0.
Proof.
  split.
  - rewrite (sum_list_ext _
      (fun i => sum_list (fun j => if Nat.eqb j i then 0
                                   else fst (pairwise_force G st i j)) l)).
    + apply sum_list_antisym. intros i j.
      rewrite (Nat.eqb_sym j i).
      destruct (Nat.eqb i j); [lra|].
      apply (pairwise_force_antisym st G j i).
    + intros i _. rewrite (proj1 (fold_add_pair_sum i l _)). cbn [fst]. lra.
  - rewrite (sum_list_ext _
      (fun i => sum_list (fun j => if Nat.eqb j i then 0
                                   else snd (pairwise_force G st i j)) l)).
    + apply sum_list_antisym. intros i j.
      rewrite (Nat.eqb_sym j i).
      destruct (Nat.eqb i j); [lra|].
      apply (pairwise_force_antisym st G j i).
    + intros i _. rewrite (proj2 (fold_add_pair_sum i l _)). cbn [snd]. lra.
Qed.

End ExactMomentum.

(** X4. With [theta = 0] the forces among the bodies the tree holds cancel:
    for every tree of the shape the insertion keeps, with bodies of
    positive mass, both variants of the traversal of the aggregated tree
    return a force for every target, the same one, which is the direct sum
    of the pulls of the bodies the tree holds; and the forces of the bodies
    the tree holds sum to zero in each component (exact arithmetic). *)
Theorem forces_cancel_at_theta_zero {B : Type} {BB : Body R B} (st : Store B)
    (G : R) (t : QuadTreeNode R) :
  well_formed st t ->
  (forall p, In p (bodies_of t) -> (0 < mass_of (st p))%R) ->
  (forall i,
      calculate_force_from_quadtree G st i (calculate_center_of_mass st t)
        0%R (0%R, 0%R)
      = Some (fold_left (add_pair G st i) (bodies_of t) (0%R, 0%R)) /\
      calculate_force_unguarded G st i (calculate_center_of_mass st t)
        0%R (0%R, 0%R)
      = Some (fold_left (add_pair G st i) (bodies_of t) (0%R, 0%R))) /\
  sum_list (fun i => fst (fold_left (add_pair G st i) (bodies_of t) (0, 0)%R))
           (bodies_of t) = 0%R /\
  sum_list (fun i => snd (fold_left (add_pair G st i) (bodies_of t) (0, 0)%R))
           (bodies_of t) = 0%R.
Proof.
  intros Hwf Hpos. split.
  - intros i. apply (force_theta_zero st G i t Hwf Hpos).
  - apply direct_forces_cancel.
Qed.

(** X4 on [pair_store]. *)
Lemma forces_cancel_at_theta_zero_witness :
  sum_list (fun i => fst (fold_left (add_pair 1%R pair_store i)
                            (bodies_of pair_tree) (0, 0)%R))
           (bodies_of pair_tree) = 0%R /\
  sum_list (fun i => snd (fold_left (add_pair 1%R pair_store i)
                            (bodies_of pair_tree) (0, 0)%R))
           (bodies_of pair_tree) = 0%R.
Proof.
  assert (Hwf : well_formed pair_store pair_tree)
    by exact (proj1 (insert_all_post pair_store 2 (seq 0 2) solar_root
                       pair_tree I build_pair_store)).
  assert (Hpos : forall p, In p (bodies_of pair_tree) ->
                           (0 < mass_of (pair_store p))%R).
  { intros p Hp. apply pair_store_mass.
    cbn in Hp. destruct Hp as [<-|[<-|[]]]; lia. }
  exact (proj2 (forces_cancel_at_theta_zero pair_store 1%R pair_tree Hwf Hpos)).
Defined.

(** ** The integration step and the two ticks *)

(** X5. Under a constant force [update_body] is the semi-implicit Euler
    scheme in closed form: after [n] steps the velocity has grown by
    [n * a * dt] and the position by [n * v * dt + n (n + 1) / 2 * a * dt^2]
    with [a = f / m], the mass unchanged; with no force the body moves
    uniformly (exact arithmetic). *)
Theorem update_body_constant_force (b : CelestialBody R) (force_x force_y dt : R)
    (n : nat) :
  mass b <> 0%R ->
  mass (Nat.iter n (fun c => update_body c force_x force_y dt) b) = mass b /\
  (vx (Nat.iter n (fun c => update_body c force_x force_y dt) b)
   = vx b + INR n * (force_x / mass b) * dt)%R /\
  (vy (Nat.iter n (fun c => update_body c force_x force_y dt) b)
   = vy b + INR n * (force_y / mass b) * dt)%R /\
  (x (Nat.iter n (fun c => update_body c force_x force_y dt) b)
   = x b + INR n * vx b * dt
     + INR n * (INR n + 1) / 2 * (force_x / mass b) * dt * dt)%R /\
  (y (Nat.iter n (fun c => update_body c force_x force_y dt) b)
   = y b + INR n * vy b * dt
     + INR n * (INR n + 1) / 2 * (force_y / mass b) * dt * dt)%R.
Proof.
  intros Hmass. induction n as [|n (Hm & Hvx & Hvy & Hx & Hy)].
  - cbn [Nat.iter nat_rect INR]. split; [reflexivity|].
    split; [|split; [|split]]; field; exact Hmass.
  - rewrite S_INR, !Nat.iter_succ.
    set (c := Nat.iter n (fun c => update_body c force_x force_y dt) b) in *.
    unfold update_body. cbn [mass vx vy x y fadd fmul fdiv Exact].
    rewrite Hm, Hvx, Hvy, Hx, Hy.
    split; [reflexivity|].
    split; [|split; [|split]]; field; exact Hmass.
Qed.

(** X5 on the body at (-2, 0) of [pair_store], three steps. *)
Lemma update_body_constant_force_witness :
  mass (Nat.iter 3 (fun c => update_body c 16 0 1)%R (pair_store 0)) = 16%R /\
  vx (Nat.iter 3 (fun c => update_body c 16 0 1)%R (pair_store 0)) = 3%R /\
  x (Nat.iter 3 (fun c => update_body c 16 0 1)%R (pair_store 0)) = 4%R.
Proof.
  assert (Hm : mass (pair_store 0) <> 0%R) by (cbn; lra).
  destruct (update_body_constant_force (pair_store 0) 16 0 1 3 Hm)
    as (H1 & H2 & _ & H4 & _).
  rewrite H1, H2, H4. cbn. repeat split; lra.
Defined.

Section PlanetLoops.
Context {F : Type} {AF : Arith F}.

(** The integration loop writes each listed planet once, from its own
    fields. *)
Lemma bh_integrate_spec (dt : F) (ps : list ptr) :
  forall planets : Store (Planet F),
    NoDup ps ->
    (forall i, In i ps ->
       bh_integrate dt ps planets i = integrate_planet (planets i) dt) /\
    (forall q, ~ In q ps -> bh_integrate dt ps planets q = planets q).
Proof.
  induction ps as [|k ps IH]; intros planets Hnd; cbn [bh_integrate].
  - split; [intros i []|reflexivity].
  - inversion Hnd as [|? ? Hk Hnd']; subst.
    destruct (IH (store_set planets k (integrate_planet (planets k) dt)) Hnd')
      as (Hin & Hout).
    split.
    + intros i [<-|Hi].
      * rewrite (Hout k Hk). unfold store_set. now rewrite Nat.eqb_refl.
      * rewrite (Hin i Hi). unfold store_set.
        destruct (Nat.eqb_spec i k) as [->|]; [contradiction|reflexivity].
    + intros q Hq. rewrite Hout by (intros Hq'; apply Hq; right; exact Hq').
      unfold store_set. destruct (Nat.eqb_spec q k) as [->|]; [|reflexivity].
      contradiction Hq. left; reflexivity.
Qed.

(** The force loop writes nothing but the two accelerations. *)
Lemma bh_forces_writes (G theta : F) (root : QuadTreeNode F) (ps : list ptr) :
  forall cur planets' : Store (Planet F),
    bh_forces G theta root ps cur = Some planets' ->
    NoDup ps ->
    forall i, exists ax ay, planets' i = set_acceleration (cur i) ax ay.
Proof.
  induction ps as [|k ps IH]; intros cur planets' Hrun Hnd i;
    cbn [bh_forces] in Hrun.
  - inversion Hrun; subst. exists (p_ax (planets' i)), (p_ay (planets' i)).
    now destruct (planets' i).
  - destruct (calculate_force_from_quadtree G cur k root theta (f0, f0))
      as [f|]; [|discriminate].
    cbn [bind] in Hrun. inversion Hnd as [|? ? Hk Hnd']; subst.
    destruct (IH _ _ Hrun Hnd' i) as (ax & ay & Hi).
    exists ax, ay. rewrite Hi. unfold store_set.
    destruct (Nat.eqb_spec i k) as [->|]; reflexivity.
Qed.

End PlanetLoops.

(** X6. The tick of the barnes_hut unit: when it returns, every planet has
    been integrated once, with the acceleration [f / m] of the force [f]
    evaluated for it on the tree and the positions of the start of the tick,
    so the result does not depend on the order of the planets; planets
    beyond [num_planets] are untouched (every arithmetic). *)
Theorem bh_tick_uses_start_of_tick_positions {F : Type} {AF : Arith F}
    (fuel : nat) (G theta dt : F) (planets planets' : Store (Planet F))
    (num_planets : nat) :
  bh_update_simulation fuel G theta dt planets num_planets = Some planets' ->
  exists root,
    build fuel planets (bounding_root planets num_planets) num_planets
    = Some root /\
    (forall i, (i < num_planets)%nat ->
       exists f,
         calculate_force_from_quadtree G planets i
           (calculate_center_of_mass planets root) theta (f0, f0) = Some f /\
         planets' i =
         integrate_planet
           (set_acceleration (planets i)
              (fdiv (fst f) (p_mass (planets i)))
              (fdiv (snd f) (p_mass (planets i))))
           dt) /\
    (forall i, (num_planets <= i)%nat -> planets' i = planets i).
Proof.
  unfold bh_update_simulation. intros Hrun.
  destruct (build fuel planets (bounding_root planets num_planets) num_planets)
    as [root|]; [|discriminate].
  cbn [bind] in Hrun. exists root. split; [reflexivity|].
  destruct (bh_forces G theta (calculate_center_of_mass planets root)
              (seq 0 num_planets) planets) as [mid|] eqn:Hforces;
    [|discriminate].
  cbn [bind] in Hrun. inversion Hrun; subst planets'. clear Hrun.
  assert (Hview : same_view planets planets) by (intros p; auto).
  destruct (bh_forces_start_of_tick G theta _ planets (seq 0 num_planets)
              planets mid Hview Hforces (seq_NoDup _ _))
    as (Hv & Hout & Hin).
  destruct (bh_integrate_spec dt (seq 0 num_planets) mid (seq_NoDup _ _))
    as (Iin & Iout).
  split.
  - intros i Hi.
    assert (Ii : In i (seq 0 num_planets)) by (apply in_seq; lia).
    destruct (Hin i Ii) as (f & Hf & Hax & Hay).
    exists f. split; [exact Hf|].
    rewrite (Iin i Ii). f_equal.
    destruct (bh_forces_writes G theta _ (seq 0 num_planets) planets mid
                Hforces (seq_NoDup _ _) i) as (ax & ay & Hmid).
    rewrite Hmid in Hax, Hay |- *. cbn [set_acceleration p_ax p_ay] in Hax, Hay.
    now rewrite Hax, Hay.
  - intros i Hi.
    assert (Ii : ~ In i (seq 0 num_planets)) by (rewrite in_seq; lia).
    rewrite (Iout i Ii). apply Hout, Ii.
Qed.

(** X6 on two planets, in binary64. *)
Lemma bh_tick_uses_start_of_tick_positions_witness :
  exists planets',
    bh_update_simulation 3 1%float 0.7%float 1%float pair_planets64 2
    = Some planets' /\
    exists root,
      build 3 pair_planets64 (bounding_root pair_planets64 2) 2 = Some root /\
      (forall i, (i < 2)%nat ->
         exists f,
           calculate_force_from_quadtree 1%float pair_planets64 i
             (calculate_center_of_mass pair_planets64 root) 0.7%float (f0, f0)
           = Some f /\
           planets' i =
           integrate_planet
             (set_acceleration (pair_planets64 i)
                (fdiv (fst f) (p_mass (pair_planets64 i)))
                (fdiv (snd f) (p_mass (pair_planets64 i))))
             1%float) /\
      (forall i, (2 <= i)%nat -> planets' i = pair_planets64 i).
Proof.
  destruct (bh_update_simulation 3 1%float 0.7%float 1%float pair_planets64 2)
    as [planets'|] eqn:E.
  - exists planets'. split; [reflexivity|].
    exact (bh_tick_uses_start_of_tick_positions 3 1%float 0.7%float 1%float
             pair_planets64 planets' 2 E).
  - exfalso. vm_compute in E. discriminate E.
Defined.

Section BodyLoop.
Context {F : Type} {AF : Arith F}.

(** The loop of solar.c over a list in two parts is the loop over the
    first part followed by the loop over the second. *)
Lemma force_and_update_app (G theta dt : F) (root : QuadTreeNode F)
    (ps1 ps2 : list ptr) :
  forall st : Store (CelestialBody F),
    force_and_update G theta dt root (ps1 ++ ps2) st =
    bind (force_and_update G theta dt root ps1 st)
         (force_and_update G theta dt root ps2).
Proof.
  induction ps1 as [|k ps1 IH]; intros st; cbn [app force_and_update bind].
  - reflexivity.
  - destruct (calculate_force_unguarded G st k root theta (f0, f0)) as [f|];
      cbn [bind]; [apply IH|reflexivity].
Qed.

(** The loop writes the listed bodies only, and never their mass or
    radius. *)
Lemma force_and_update_frame (G theta dt : F) (root : QuadTreeNode F)
    (ps : list ptr) :
  forall st st' : Store (CelestialBody F),
    force_and_update G theta dt root ps st = Some st' ->
    (forall q, ~ In q ps -> st' q = st q) /\
    (forall q, mass (st' q) = mass (st q) /\ radius (st' q) = radius (st q)).
Proof.
  induction ps as [|k ps IH]; intros st st' Hrun; cbn [force_and_update] in Hrun.
  - inversion Hrun; subst. auto.
  - destruct (calculate_force_unguarded G st k root theta (f0, f0)) as [f|];
      [|discriminate].
    cbn [bind] in Hrun. destruct (IH _ _ Hrun) as (Hout & Hkeep).
    split.
    + intros q Hq. rewrite Hout by (intros Hq'; apply Hq; right; exact Hq').
      unfold store_set. destruct (Nat.eqb_spec q k) as [->|]; [|reflexivity].
      contradiction Hq. left; reflexivity.
    + intros q. destruct (Hkeep q) as (Hm & Hr). rewrite Hm, Hr.
      unfold store_set. destruct (Nat.eqb_spec q k) as [->|]; auto.
Qed.

End BodyLoop.

(** X7. The tick of solar.c is sequential: the tree and its aggregates are
    those of the start of the tick, but body [i] is evaluated against a
    store in which the bodies before it have their new state and the others
    their old one, and is then integrated with that force.  The tick never
    changes a mass or a radius and touches no body beyond [total_bodies]
    (every arithmetic). *)
Theorem solar_tick_is_sequential {F : Type} {AF : Arith F}
    (fuel : nat) (G theta region dt : F)
    (all_bodies st' : Store (CelestialBody F)) (total_bodies : nat) :
  update_simulation_barnes_hut fuel G theta region dt all_bodies total_bodies
  = Some st' ->
  exists root,
    build fuel all_bodies
      (create_quadtree (fneg region) (fneg region) (fmul f2 region)
                       (fmul f2 region)) total_bodies = Some root /\
    (forall i, (i < total_bodies)%nat ->
       exists (seen : Store (CelestialBody F)) (f : F * F),
         (forall j, (j < i)%nat -> seen j = st' j) /\
         (forall j, (i <= j)%nat -> seen j = all_bodies j) /\
         calculate_force_unguarded G seen i
           (calculate_center_of_mass all_bodies root) theta (f0, f0) = Some f /\
         st' i = update_body (all_bodies i) (fst f) (snd f) dt) /\
    (forall i, (total_bodies <= i)%nat -> st' i = all_bodies i) /\
    (forall i, mass (st' i) = mass (all_bodies i) /\
               radius (st' i) = radius (all_bodies i)).
Proof.
  unfold update_simulation_barnes_hut. intros Hrun.
  destruct (build fuel all_bodies _ total_bodies) as [root|]; [|discriminate].
  cbn [bind] in Hrun. exists root. split; [reflexivity|].
  set (t := calculate_center_of_mass all_bodies root) in *.
  destruct (force_and_update_frame G theta dt t _ _ _ Hrun) as (Hout & Hkeep).
  split; [|split; [|exact Hkeep]].
  - intros i Hi.
    assert (Hseq : seq 0 total_bodies
                   = seq 0 i ++ i :: seq (S i) (total_bodies - S i)).
    { replace total_bodies with (i + S (total_bodies - S i))%nat at 1 by lia.
      rewrite seq_app. cbn [seq Nat.add]. reflexivity. }
    rewrite Hseq, force_and_update_app in Hrun.
    destruct (force_and_update G theta dt t (seq 0 i) all_bodies)
      as [seen|] eqn:Hpre; [|discriminate].
    cbn [bind force_and_update] in Hrun.
    destruct (calculate_force_unguarded G seen i t theta (f0, f0))
      as [f|] eqn:Hf; [|discriminate].
    cbn [bind] in Hrun.
    destruct (force_and_update_frame G theta dt t _ _ _ Hpre) as (Pout & _).
    destruct (force_and_update_frame G theta dt t _ _ _ Hrun) as (Rout & _).
    assert (Hnot : forall j, (j <= i)%nat ->
                             ~ In j (seq (S i) (total_bodies - S i)))
      by (intros j Hj Hin; apply in_seq in Hin; lia).
    exists seen, f. split; [|split; [|split; [exact Hf|]]].
    + intros j Hj. rewrite (Rout j) by (apply Hnot; lia).
      unfold store_set. destruct (Nat.eqb_spec j i); [lia|reflexivity].
    + intros j Hj. apply Pout. rewrite in_seq. lia.
    + rewrite (Rout i) by (apply Hnot; lia).
      unfold store_set. rewrite Nat.eqb_refl.
      rewrite (Pout i) by (rewrite in_seq; lia). reflexivity.
  - intros i Hi. apply Hout. rewrite in_seq. lia.
Qed.

(** X7 on [pair_store64], the run of C4. *)
Lemma solar_tick_is_sequential_witness :
  exists st',
    update_simulation_barnes_hut 2 1%float 0.5%float 50%float 1%float
      pair_store64 2 = Some st' /\
    exists root,
      build 2 pair_store64
        (create_quadtree (fneg 50%float) (fneg 50%float) (fmul f2 50%float)
                         (fmul f2 50%float)) 2 = Some root /\
      (forall i, (i < 2)%nat ->
         exists (seen : Store (CelestialBody float)) (f : float * float),
           (forall j, (j < i)%nat -> seen j = st' j) /\
           (forall j, (i <= j)%nat -> seen j = pair_store64 j) /\
           calculate_force_unguarded 1%float seen i
             (calculate_center_of_mass pair_store64 root) 0.5%float (f0, f0)
           = Some f /\
           st' i = update_body (pair_store64 i) (fst f) (snd f) 1%float) /\
      (forall i, (2 <= i)%nat -> st' i = pair_store64 i) /\
      (forall i, mass (st' i) = mass (pair_store64 i) /\
                 radius (st' i) = radius (pair_store64 i)).
Proof.
  destruct (update_simulation_barnes_hut 2 1%float 0.5%float 50%float 1%float
              pair_store64 2) as [st'|] eqn:E.
  - exists st'. split; [reflexivity|].
    exact (solar_tick_is_sequential 2 1%float 0.5%float 50%float 1%float
             pair_store64 st' 2 E).
  - exfalso. vm_compute in E. discriminate E.
Defined.

(** ** The Sun-only stepper *)

Section SunLoop.
Context {F : Type} {AF : Arith F}.

(** The loop never writes [planets[0]], so every listed planet is advanced
    from its own state and the Sun's state of the start of the call. *)
Lemma sun_forces_and_update_spec (G dt : F) (ps : list ptr) :
  forall planets : Store (Planet F),
    NoDup ps -> ~ In 0%nat ps ->
    (forall i, In i ps ->
       sun_forces_and_update G dt ps planets i
       = sun_step G dt (planets 0%nat) (planets i)) /\
    (forall q, ~ In q ps -> sun_forces_and_update G dt ps planets q = planets q).
Proof.
  induction ps as [|k ps IH]; intros planets Hnd H0; cbn [sun_forces_and_update].
  - split; [intros i []|reflexivity].
  - inversion Hnd as [|? ? Hk Hnd']; subst.
    assert (Hk0 : k <> 0%nat) by (intros ->; apply H0; left; reflexivity).
    assert (H0' : ~ In 0%nat ps) by (intros H; apply H0; right; exact H).
    destruct (IH (store_set planets k (sun_step G dt (planets 0%nat) (planets k)))
                Hnd' H0') as (Hin & Hout).
    split.
    + intros i [<-|Hi].
      * rewrite (Hout k Hk). unfold store_set. now rewrite Nat.eqb_refl.
      * rewrite (Hin i Hi). unfold store_set.
        destruct (Nat.eqb_spec 0 k) as [E|_]; [congruence|].
        destruct (Nat.eqb_spec i k) as [->|]; [contradiction|reflexivity].
    + intros q Hq. rewrite Hout by (intros Hq'; apply Hq; right; exact Hq').
      unfold store_set. destruct (Nat.eqb_spec q k) as [->|]; [|reflexivity].
      contradiction Hq. left; reflexivity.
Qed.

End SunLoop.

(** X8. The Sun-only stepper: the Sun ([planets[0]]) is never moved, every
    other planet below [num_planets] is advanced once from its own state and
    the Sun's, whatever the order of the loop, and no other cell is
    touched; the frame counter grows by one (every arithmetic). *)
Theorem update_simulation_moves_planets_independently {F : Type}
    {AF : Arith F} (G dt : F) (num_planets : nat) (trajectory_interval : Z)
    (s s' : Frame F (Planet F)) :
  update_simulation G dt num_planets trajectory_interval s = Some s' ->
  frame_bodies s' 0%nat = frame_bodies s 0%nat /\
  (forall i, (1 <= i < num_planets)%nat ->
     frame_bodies s' i
     = sun_step G dt (frame_bodies s 0%nat) (frame_bodies s i)) /\
  (forall i, (num_planets <= i)%nat -> frame_bodies s' i = frame_bodies s i) /\
  frame_count s' = (frame_count s + 1)%Z.
Proof.
  unfold update_simulation. intros Hrun.
  destruct (update_trajectories _ _ _ _ _) as [trs|]; [|discriminate].
  cbn [bind] in Hrun. unfold next_frame in Hrun.
  destruct (frame_count s <? INT_MAX)%Z; [|discriminate].
  cbn [bind] in Hrun. inversion Hrun; subst s'. cbn [frame_bodies frame_count].
  assert (H0 : ~ In 0%nat (seq 1 (num_planets - 1))) by (rewrite in_seq; lia).
  destruct (sun_forces_and_update_spec G dt (seq 1 (num_planets - 1))
              (frame_bodies s) (seq_NoDup _ _) H0) as (Hin & Hout).
  split; [apply Hout, H0|]. split; [|split; [|reflexivity]].
  - intros i Hi. apply Hin. rewrite in_seq. lia.
  - intros i Hi. apply Hout. rewrite in_seq. lia.
Qed.

(** X8 on two planets, in binary64. *)
Lemma update_simulation_moves_planets_independently_witness :
  exists s',
    update_simulation 1%float 0.001%float 2 10 pair_frame64 = Some s' /\
    frame_bodies s' 0%nat = frame_bodies pair_frame64 0%nat /\
    (forall i, (1 <= i < 2)%nat ->
       frame_bodies s' i
       = sun_step 1%float 0.001%float (frame_bodies pair_frame64 0%nat)
           (frame_bodies pair_frame64 i)) /\
    (forall i, (2 <= i)%nat -> frame_bodies s' i = frame_bodies pair_frame64 i) /\
    frame_count s' = (frame_count pair_frame64 + 1)%Z.
Proof.
  destruct (update_simulation 1%float 0.001%float 2 10 pair_frame64)
    as [s'|] eqn:E.
  - exists s'. split; [reflexivity|].
    exact (update_simulation_moves_planets_independently 1%float 0.001%float
             2 10 pair_frame64 s' E).
  - exfalso. vm_compute in E. discriminate E.
Defined.

Section ExactSun.
Local Open Scope R_scope.

Lemma sum_squares_zero (a b : R) : a * a + b * b = 0 -> a = 0 /\ b = 0.
Proof. intros H. split; nra. Qed.

End ExactSun.

(** X9. [calculate_force] of the planets program: no force when planet and
    Sun coincide; otherwise neither divisor is zero, the force has the
    magnitude [G * m * M / r^2], lies on the line through the two and its
    component along the vector from the planet to the Sun is
    [G * m * M / r], so it pulls the planet towards the Sun when [G] and
    the masses are positive (exact arithmetic). *)
Theorem calculate_force_inverse_square (G : R) (planet sun : Planet R) :
  (p_x sun = p_x planet -> p_y sun = p_y planet ->
   calculate_force G planet sun = (0, 0)%R) /\
  (p_x sun <> p_x planet \/ p_y sun <> p_y planet ->
   ((p_x sun - p_x planet) * (p_x sun - p_x planet)
    + (p_y sun - p_y planet) * (p_y sun - p_y planet) <> 0)%R /\
   sqrt ((p_x sun - p_x planet) * (p_x sun - p_x planet)
         + (p_y sun - p_y planet) * (p_y sun - p_y planet)) <> 0%R /\
   (fst (calculate_force G planet sun) * fst (calculate_force G planet sun)
    + snd (calculate_force G planet sun) * snd (calculate_force G planet sun)
    = (G * p_mass planet * p_mass sun
       / ((p_x sun - p_x planet) * (p_x sun - p_x planet)
          + (p_y sun - p_y planet) * (p_y sun - p_y planet)))
      * (G * p_mass planet * p_mass sun
         / ((p_x sun - p_x planet) * (p_x sun - p_x planet)
            + (p_y sun - p_y planet) * (p_y sun - p_y planet))))%R /\
   (fst (calculate_force G planet sun) * (p_y sun - p_y planet)
    = snd (calculate_force G planet sun) * (p_x sun - p_x planet))%R /\
   (fst (calculate_force G planet sun) * (p_x sun - p_x planet)
    + snd (calculate_force G planet sun) * (p_y sun - p_y planet)
    = G * p_mass planet * p_mass sun
      / sqrt ((p_x sun - p_x planet) * (p_x sun - p_x planet)
              + (p_y sun - p_y planet) * (p_y sun - p_y planet)))%R).
Proof.
  unfold calculate_force. cbn [fadd fsub fmul fdiv feq fsqrt f0 Exact].
  set (dx := (p_x sun - p_x planet)%R). set (dy := (p_y sun - p_y planet)%R).
  split.
  - intros Hx Hy. assert (Hz : (dx * dx + dy * dy = 0)%R).
    { unfold dx, dy. rewrite Hx, Hy. ring. }
    now rewrite R_eqb_eq.
  - intros Hne.
    assert (Hd : (0 < dx * dx + dy * dy)%R).
    { destruct (Req_dec_T (dx * dx + dy * dy) 0) as [E|E].
      - apply sum_squares_zero in E. destruct E as (Ex & Ey).
        unfold dx, dy in Ex, Ey. exfalso. destruct Hne as [H|H]; apply H; lra.
      - pose proof (Rle_0_sqr dx) as Sx. pose proof (Rle_0_sqr dy) as Sy.
        unfold Rsqr in Sx, Sy. lra. }
    assert (Hnz : (dx * dx + dy * dy <> 0)%R) by lra.
    pose proof (sqrt_lt_R0 _ Hd) as Hr.
    pose proof (sqrt_sqrt _ (Rlt_le _ _ Hd)) as Hs.
    rewrite R_eqb_neq by exact Hnz. cbn [fst snd].
    set (r := sqrt (dx * dx + dy * dy)) in *.
    set (k := (G * p_mass planet * p_mass sun)%R).
    split; [exact Hnz|]. split; [lra|]. split.
    + replace (k / (dx * dx + dy * dy) * (dx / r) * (k / (dx * dx + dy * dy) * (dx / r)) +
               k / (dx * dx + dy * dy) * (dy / r) * (k / (dx * dx + dy * dy) * (dy / r)))%R
        with ((k / (dx * dx + dy * dy)) * (k / (dx * dx + dy * dy))
              * ((dx * dx + dy * dy) / (r * r)))%R
        by (field; split; lra).
      rewrite Hs. field. lra.
    + split; [unfold Rdiv; ring|]. field. split; lra.
Qed.

(** ** Initial conditions *)

Section ExactOrbits.
Local Open Scope R_scope.

(** The tables hold positive masses, and positive distances from the Sun
    for the planets proper. *)
Lemma tables_positive (i : nat) :
  (i < NUM_PLANETS)%nat ->
  0 < nth i masses 0 /\ ((1 <= i)%nat -> 0 < nth i semi_major_axes 0).
Proof.
  unfold NUM_PLANETS, masses, semi_major_axes. intros Hi.
  do 9 (destruct i as [|i]; [cbn [nth]; split; [lra|intros; try lia; lra]|]).
  lia.
Qed.

(** A planet of mass [m] at [(a, 0)] moving at [sqrt (k / a)], and a body of
    mass [M] at the origin with [G * M = k]: the pull is centripetal. *)
Lemma circular_orbit_acceleration (G k m M a vy r dt : R) :
  0 < a -> 0 < m -> G * M = k -> 0 <= k ->
  p_ax (sun_step G dt (mkPlanet M 0 0 0 0 0 0 r)
                 (mkPlanet m a 0 0 (sqrt (k / a)) 0 0 vy))
  = - (sqrt (k / a) * sqrt (k / a)) / a /\
  p_ay (sun_step G dt (mkPlanet M 0 0 0 0 0 0 r)
                 (mkPlanet m a 0 0 (sqrt (k / a)) 0 0 vy))
  = 0.
Proof.
  intros Ha Hm Hk Hk0. unfold sun_step, integrate_planet, set_acceleration.
  cbn [p_ax p_ay p_mass p_x p_y p_vx p_vy].
  unfold calculate_force.
  cbn [p_mass p_x p_y fadd fsub fmul fdiv feq fsqrt f0 Exact].
  replace ((0 - a) * (0 - a) + (0 - 0) * (0 - 0)) with (a * a) by ring.
  rewrite R_eqb_neq by nra. rewrite sqrt_square by lra. cbn [fst snd].
  rewrite sqrt_sqrt by (apply Rmult_le_pos; [lra|left; apply Rinv_0_lt_compat; lra]).
  rewrite <- Hk. split; field; lra.
Qed.

End ExactOrbits.

(** X10. [initialize_planets] puts every planet on a circular orbit for the
    force law of the stepper (G = 1, a Sun of mass 1 at the origin): the
    planet has positive mass, sits on the x axis at its semi-major axis and
    moves along y, and the acceleration of its first step is [v^2 / a]
    towards the Sun (exact arithmetic). *)
Theorem planets_start_on_circular_orbits (i : nat) (dt : R) :
  (1 <= i < NUM_PLANETS)%nat ->
  (0 < p_mass (initialize_planets i))%R /\
  (0 < p_x (initialize_planets i))%R /\
  p_y (initialize_planets i) = 0%R /\
  p_vx (initialize_planets i) = 0%R /\
  (p_x (initialize_planets 0), p_y (initialize_planets 0)) = (0, 0)%R /\
  (p_ax (sun_step 1%R dt (initialize_planets 0) (initialize_planets i))
   = - (p_vy (initialize_planets i) * p_vy (initialize_planets i))
     / p_x (initialize_planets i))%R /\
  p_ay (sun_step 1%R dt (initialize_planets 0) (initialize_planets i)) = 0%R.
Proof.
  intros (H1 & H9).
  destruct (tables_positive i H9) as (Hm & Ha). specialize (Ha H1).
  unfold initialize_planets at 1 2 3 4 5 6.
  cbn [p_mass p_x p_y p_vx].
  split; [exact Hm|]. split; [exact Ha|]. split; [reflexivity|].
  split; [reflexivity|]. split; [reflexivity|].
  unfold initialize_planets.
  destruct (Nat.eqb_spec i 0) as [->|_]; [lia|].
  cbn [Nat.eqb nth masses semi_major_axes p_vy p_x].
  apply circular_orbit_acceleration; try assumption; lra.
Qed.

(** X10 on the Earth. *)
Lemma planets_start_on_circular_orbits_witness :
  (p_ax (sun_step 1%R 1%R (initialize_planets 0) (initialize_planets 3))
   = - (p_vy (initialize_planets 3) * p_vy (initialize_planets 3))
     / p_x (initialize_planets 3))%R /\
  p_ay (sun_step 1%R 1%R (initialize_planets 0) (initialize_planets 3)) = 0%R.
Proof.
  assert (H : (1 <= 3 < NUM_PLANETS)%nat) by (unfold NUM_PLANETS; lia).
  exact (proj2 (proj2 (proj2 (proj2 (proj2
           (planets_start_on_circular_orbits 3 1%R H)))))).
Defined.

Section ExactRandom.
Local Open Scope R_scope.

Lemma unit_rand_bounds (RAND_MAX rand : Z) :
  (0 < RAND_MAX)%Z -> (0 <= rand <= RAND_MAX)%Z ->
  0 <= unit_rand RAND_MAX rand <= 1.
Proof.
  intros Hm (H0 & H1). unfold unit_rand.
  assert (Hm' : 0 < IZR RAND_MAX) by (apply IZR_lt; exact Hm).
  assert (H0' : 0 <= IZR rand) by (apply IZR_le; exact H0).
  assert (H1' : IZR rand <= IZR RAND_MAX) by (apply IZR_le; exact H1).
  split.
  - apply Rmult_le_pos; [exact H0'|]. left. apply Rinv_0_lt_compat, Hm'.
  - apply (Rmult_le_reg_r (IZR RAND_MAX)); [exact Hm'|].
    unfold Rdiv. rewrite Rmult_assoc, Rinv_l by lra. lra.
Qed.

Lemma cos_sin_square (a : R) : cos a * cos a + sin a * sin a = 1.
Proof. pose proof (sin2_cos2 a) as H. unfold Rsqr in H. lra. Qed.

(** A point at distance [r] from the origin has both coordinates within
    [r]. *)
Lemma polar_inside (r a : R) :
  0 <= r -> - r <= r * cos a <= r /\ - r <= r * sin a <= r.
Proof.
  intros Hr. pose proof (COS_bound a). pose proof (SIN_bound a).
  split; split; nra.
Qed.

End ExactRandom.

(** X11. [initialize_asteroids] of solar.c, for any results of [rand]: each
    asteroid starts between 2 and 4.5 from the origin, hence inside the
    simulation region, with a velocity perpendicular to its position and of
    the circular-orbit speed [sqrt (G / r)], and with positive mass (exact
    arithmetic). *)
Theorem asteroids_start_on_circular_orbits (G : R) (RAND_MAX : Z)
    (rands : nat -> Z) (asteroids : Store (CelestialBody R)) (i : nat) :
  (0 < G)%R -> (0 < RAND_MAX)%Z ->
  (forall k, 0 <= rands k <= RAND_MAX)%Z ->
  (i < NUM_ASTEROIDS)%nat ->
  (2 * 2 <= x (initialize_asteroids G RAND_MAX rands asteroids i)
            * x (initialize_asteroids G RAND_MAX rands asteroids i)
            + y (initialize_asteroids G RAND_MAX rands asteroids i)
              * y (initialize_asteroids G RAND_MAX rands asteroids i)
          <= 4.5 * 4.5)%R /\
  is_in_bounds (initialize_asteroids G RAND_MAX rands asteroids)
    (data (create_quadtree (-50) (-50) 100 100)%R) i = true /\
  (x (initialize_asteroids G RAND_MAX rands asteroids i)
   * vx (initialize_asteroids G RAND_MAX rands asteroids i)
   + y (initialize_asteroids G RAND_MAX rands asteroids i)
     * vy (initialize_asteroids G RAND_MAX rands asteroids i) = 0)%R /\
  (vx (initialize_asteroids G RAND_MAX rands asteroids i)
   * vx (initialize_asteroids G RAND_MAX rands asteroids i)
   + vy (initialize_asteroids G RAND_MAX rands asteroids i)
     * vy (initialize_asteroids G RAND_MAX rands asteroids i)
   = G / sqrt (x (initialize_asteroids G RAND_MAX rands asteroids i)
               * x (initialize_asteroids G RAND_MAX rands asteroids i)
               + y (initialize_asteroids G RAND_MAX rands asteroids i)
                 * y (initialize_asteroids G RAND_MAX rands asteroids i)))%R /\
  (0 < mass (initialize_asteroids G RAND_MAX rands asteroids i))%R.
Proof.
  intros HG Hmax Hr Hi.
  assert (Hinit : initialize_asteroids G RAND_MAX rands asteroids i
                  = initialize_asteroid G RAND_MAX (rands (2 * i)%nat)
                      (rands (2 * i + 1)%nat)).
  { unfold initialize_asteroids.
    destruct (Nat.ltb_spec i NUM_ASTEROIDS) as [_|?]; [reflexivity|lia]. }
  rewrite (is_in_bounds_iff (initialize_asteroids G RAND_MAX rands asteroids)).
  cbn [pos_x pos_y CelestialBody_Body].
  rewrite !Hinit. clear Hinit.
  unfold initialize_asteroid.
  pose proof (unit_rand_bounds RAND_MAX (rands (2 * i)%nat) Hmax (Hr _)) as Hu.
  set (u := unit_rand RAND_MAX (rands (2 * i)%nat)) in *.
  set (angle := (unit_rand RAND_MAX (rands (2 * i + 1)%nat) * 2 * PI)%R).
  set (r := (2 + u * 2.5)%R).
  assert (Hr2 : (2 <= r <= 4.5)%R) by (unfold r; lra).
  pose proof (cos_sin_square angle) as Hcs.
  assert (Hsq : (r * cos angle * (r * cos angle) + r * sin angle * (r * sin angle)
                 = r * r)%R).
  { replace (r * cos angle * (r * cos angle) + r * sin angle * (r * sin angle))%R
      with (r * r * (cos angle * cos angle + sin angle * sin angle))%R by ring.
    rewrite Hcs. ring. }
  cbn [x y vx vy mass].
  split; [rewrite Hsq; nra|].
  split.
  { cbn [create_quadtree data node_x node_y width height].
    destruct (polar_inside r angle ltac:(lra)) as (Hx & Hy). lra. }
  split; [ring|].
  split; [|lra].
  rewrite Hsq, sqrt_square by lra.
  assert (Hv : (0 <= G / r)%R).
  { apply Rmult_le_pos; [lra|]. left. apply Rinv_0_lt_compat. lra. }
  replace (- sqrt (G / r) * sin angle * (- sqrt (G / r) * sin angle) +
           sqrt (G / r) * cos angle * (sqrt (G / r) * cos angle))%R
    with (sqrt (G / r) * sqrt (G / r)
          * (cos angle * cos angle + sin angle * sin angle))%R by ring.
  rewrite Hcs, sqrt_sqrt by exact Hv. ring.
Qed.

(** X11 for G = 1 and a [rand] that returns 0. *)
Lemma asteroids_start_on_circular_orbits_witness :
  is_in_bounds (initialize_asteroids 1%R 32767 zero_rands zeroed_bodies)
    (data (create_quadtree (-50) (-50) 100 100)%R) 0%nat = true /\
  (0 < mass (initialize_asteroids 1%R 32767 zero_rands zeroed_bodies 0%nat))%R.
Proof.
  assert (HG : (0 < 1)%R) by lra.
  assert (Hm : (0 < 32767)%Z) by lia.
  assert (Hr : forall k, (0 <= zero_rands k <= 32767)%Z)
    by (intros k; unfold zero_rands; lia).
  assert (Hi : (0 < NUM_ASTEROIDS)%nat) by (unfold NUM_ASTEROIDS; lia).
  destruct (asteroids_start_on_circular_orbits 1%R 32767 zero_rands
              zeroed_bodies 0%nat HG Hm Hr Hi) as (_ & Hin & _ & _ & Hmass).
  split; [exact Hin|exact Hmass].
Defined.

Section ExactInitialize.
Variables G SIMULATION_SCALE : R.
Variable RAND_MAX : Z.
Variable rands : nat -> Z.
Local Open Scope R_scope.

(** The second loop writes one cell per round, from [body_count] on, and
    stops at [MAX_BODIES]. *)
Lemma initialize_simulation_asteroids_spec (todo : nat) :
  forall (i : nat) (bodies : Store (CelestialBody R)) (body_count : nat),
    (0 < body_count)%nat -> (body_count + todo <= MAX_BODIES)%nat ->
    snd (initialize_simulation_asteroids G SIMULATION_SCALE RAND_MAX rands
           todo i bodies body_count) = (body_count + todo)%nat /\
    (forall q, (q < body_count)%nat \/ (body_count + todo <= q)%nat ->
       fst (initialize_simulation_asteroids G SIMULATION_SCALE RAND_MAX rands
              todo i bodies body_count) q = bodies q) /\
    (forall k, (k < todo)%nat ->
       fst (initialize_simulation_asteroids G SIMULATION_SCALE RAND_MAX rands
              todo i bodies body_count) (body_count + k)%nat
       = initialize_simulation_asteroid G SIMULATION_SCALE RAND_MAX
           (mass (bodies 0%nat)) (bodies (body_count + k)%nat)
           (rands (5 * (i + k))%nat) (rands (5 * (i + k) + 1)%nat)
           (rands (5 * (i + k) + 2)%nat) (rands (5 * (i + k) + 3)%nat)).
Proof.
  induction todo as [|todo IH]; intros i bodies body_count Hc Hle;
    cbn [initialize_simulation_asteroids].
  - cbn [fst snd]. split; [lia|]. split; [reflexivity|]. intros k Hk. lia.
  - destruct (Nat.ltb_spec body_count MAX_BODIES) as [_|?]; [|lia].
    set (bodies1 := store_set bodies body_count _).
    destruct (IH (S i) bodies1 (S body_count) ltac:(lia) ltac:(lia))
      as (Hcount & Hout & Hin).
    assert (H0 : bodies1 0%nat = bodies 0%nat).
    { unfold bodies1, store_set.
      destruct (Nat.eqb_spec 0 body_count); [lia|reflexivity]. }
    split; [lia|]. split.
    + intros q Hq. rewrite Hout by lia. unfold bodies1, store_set.
      destruct (Nat.eqb_spec q body_count); [lia|reflexivity].
    + intros [|k] Hk.
      * rewrite Nat.add_0_r. rewrite Hout by lia.
        unfold bodies1, store_set. rewrite Nat.eqb_refl.
        rewrite Nat.add_0_r. reflexivity.
      * replace (body_count + S k)%nat with (S body_count + k)%nat by lia.
        rewrite Hin by lia. rewrite H0.
        replace (S i + k)%nat with (i + S k)%nat by lia.
        f_equal. unfold bodies1, store_set.
        destruct (Nat.eqb_spec (S body_count + k) body_count); [lia|reflexivity].
Qed.

(** The first loop writes the nine planets; from the second round on the
    mass it reads in [bodies[0]] is the Sun's. *)
Lemma initialize_simulation_planets_spec (bodies : Store (CelestialBody R))
    (body_count : nat) :
  snd (initialize_simulation_planets G SIMULATION_SCALE (seq 0 NUM_PLANETS)
         bodies body_count) = (body_count + NUM_PLANETS)%nat /\
  (forall i, (i < NUM_PLANETS)%nat ->
     fst (initialize_simulation_planets G SIMULATION_SCALE (seq 0 NUM_PLANETS)
            bodies body_count) i
     = initialize_simulation_planet G SIMULATION_SCALE (nth 0 masses 0)
         (bodies i) i) /\
  (forall q, (NUM_PLANETS <= q)%nat ->
     fst (initialize_simulation_planets G SIMULATION_SCALE (seq 0 NUM_PLANETS)
            bodies body_count) q = bodies q).
Proof.
  unfold NUM_PLANETS. cbn [seq initialize_simulation_planets fst snd].
  split; [lia|]. split.
  - intros i Hi.
    do 9 (destruct i as [|i];
          [unfold store_set; cbn [Nat.eqb]; unfold initialize_simulation_planet;
           cbn [Nat.eqb mass nth masses]; reflexivity|]).
    lia.
  - intros q Hq. unfold store_set.
    do 9 (destruct q as [|q]; [lia|]). reflexivity.
Qed.

End ExactInitialize.

Section ExactTables.
Local Open Scope R_scope.

Lemma semi_major_axes_in_region (i : nat) :
  0 <= nth i semi_major_axes 0 < 50.
Proof.
  unfold semi_major_axes.
  do 9 (destruct i as [|i]; [cbn [nth]; lra|]).
  destruct i; cbn [nth]; lra.
Qed.

Lemma masses_positive (i : nat) :
  (i < NUM_PLANETS)%nat -> 0 < nth i masses 0.
Proof.
  unfold NUM_PLANETS, masses. intros Hi.
  do 9 (destruct i as [|i]; [cbn [nth]; lra|]).
  lia.
Qed.

End ExactTables.

(** X12. [initialize_simulation] of the second program of solar.c, called
    with [*body_count = 0] and for any results of [rand]: it leaves
    [body_count = MAX_BODIES] and writes exactly the cells below it; every
    body written has positive mass (no later division by a zero mass), lies
    inside the simulation region (none is left out of the first tree) and
    moves perpendicularly to its position (exact arithmetic). *)
Theorem initialize_simulation_fills_all_bodies (G SIMULATION_SCALE : R)
    (RAND_MAX : Z) (rands : nat -> Z) (bodies : Store (CelestialBody R)) :
  (0 < RAND_MAX)%Z ->
  (forall k, 0 <= rands k <= RAND_MAX)%Z ->
  snd (initialize_simulation G SIMULATION_SCALE RAND_MAX rands bodies 0)
  = MAX_BODIES /\
  (forall i, (i < MAX_BODIES)%nat ->
     (0 < mass (fst (initialize_simulation G SIMULATION_SCALE RAND_MAX rands
                       bodies 0) i))%R /\
     is_in_bounds
       (fst (initialize_simulation G SIMULATION_SCALE RAND_MAX rands bodies 0))
       (data (create_quadtree (-50) (-50) 100 100)%R) i = true /\
     (x (fst (initialize_simulation G SIMULATION_SCALE RAND_MAX rands
                bodies 0) i)
      * vx (fst (initialize_simulation G SIMULATION_SCALE RAND_MAX rands
                   bodies 0) i)
      + y (fst (initialize_simulation G SIMULATION_SCALE RAND_MAX rands
                  bodies 0) i)
        * vy (fst (initialize_simulation G SIMULATION_SCALE RAND_MAX rands
                     bodies 0) i) = 0)%R) /\
  (forall q, (MAX_BODIES <= q)%nat ->
     fst (initialize_simulation G SIMULATION_SCALE RAND_MAX rands bodies 0) q
     = bodies q).
Proof.
  intros Hmax Hr. unfold initialize_simulation.
  destruct (initialize_simulation_planets_spec G SIMULATION_SCALE bodies 0)
    as (Pc & Pin & Pout).
  destruct (initialize_simulation_planets G SIMULATION_SCALE (seq 0 NUM_PLANETS)
              bodies 0) as [bodies1 body_count1].
  cbn [fst snd] in Pc, Pin, Pout. subst body_count1.
  destruct (initialize_simulation_asteroids_spec G SIMULATION_SCALE RAND_MAX
              rands NUM_ASTEROIDS 0 bodies1 (0 + NUM_PLANETS)
              ltac:(unfold NUM_PLANETS; lia)
              ltac:(unfold MAX_BODIES; lia)) as (Ac & Aout & Ain).
  set (final := initialize_simulation_asteroids G SIMULATION_SCALE RAND_MAX
                  rands NUM_ASTEROIDS 0 bodies1 (0 + NUM_PLANETS)) in *.
  clearbody final.
  split; [rewrite Ac; reflexivity|]. split.
  - intros i Hi.
    rewrite (is_in_bounds_iff (fst final)).
    cbn [create_quadtree data node_x node_y width height pos_x pos_y
         CelestialBody_Body].
    destruct (Nat.lt_ge_cases i NUM_PLANETS) as [Hp|Ha].
    + rewrite (Aout i) by (left; lia). rewrite (Pin i Hp).
      unfold initialize_simulation_planet. cbn [mass x y vx vy].
      pose proof (masses_positive i Hp).
      pose proof (semi_major_axes_in_region i).
      split; [assumption|]. split; [lra|ring].
    + replace i with (0 + NUM_PLANETS + (i - NUM_PLANETS))%nat by lia.
      rewrite Ain by (unfold MAX_BODIES in Hi; lia).
      unfold initialize_simulation_asteroid. cbn [mass x y vx vy].
      set (k := (i - NUM_PLANETS)%nat).
      pose proof (unit_rand_bounds RAND_MAX (rands (5 * (0 + k))%nat) Hmax (Hr _))
        as Hu1.
      pose proof (unit_rand_bounds RAND_MAX (rands (5 * (0 + k) + 2)%nat) Hmax
                    (Hr _)) as Hu3.
      set (u1 := unit_rand RAND_MAX (rands (5 * (0 + k))%nat)) in *.
      set (u3 := unit_rand RAND_MAX (rands (5 * (0 + k) + 2)%nat)) in *.
      set (angle := (2 * PI * unit_rand RAND_MAX (rands (5 * (0 + k) + 1)%nat))%R).
      destruct (polar_inside (2.2 + (3.2 - 2.2) * u1)%R angle ltac:(lra))
        as (Hx & Hy).
      split; [lra|]. split; [lra|ring].
  - intros q Hq. rewrite Aout by (right; unfold MAX_BODIES in Hq; lia).
    apply Pout. unfold MAX_BODIES in Hq. lia.
Qed.

(** X12 for G = 6.6743e-11 and a [rand] that returns 0. *)
Lemma initialize_simulation_fills_all_bodies_witness :
  snd (initialize_simulation 6.67430e-11%R 1%R 32767 zero_rands zeroed_bodies 0)
  = MAX_BODIES.
Proof.
  assert (Hm : (0 < 32767)%Z) by lia.
  assert (Hr : forall k, (0 <= zero_rands k <= 32767)%Z)
    by (intros k; unfold zero_rands; lia).
  exact (proj1 (initialize_simulation_fills_all_bodies 6.67430e-11%R 1%R 32767
                  zero_rands zeroed_bodies Hm Hr)).
Defined.

(** ** The trajectory buffer and the frames *)

Section Buffer.
Context {F : Type}.
Local Open Scope Z_scope.

Lemma in_array_iff (j : Z) :
  in_array j = true <-> 0 <= j < MAX_TRAJECTORY_POINTS.
Proof.
  unfold in_array. rewrite andb_true_iff, Z.leb_le, Z.ltb_lt. tauto.
Qed.

Lemma array_write_in (a : Z -> F) (j : Z) (v : F) :
  0 <= j < MAX_TRAJECTORY_POINTS ->
  array_write a j v = Some (fun k => if k =? j then v else a k).
Proof.
  intros H. unfold array_write. now rewrite (proj2 (in_array_iff j) H).
Qed.

Lemma array_read_in (a : Z -> F) (j : Z) :
  0 <= j < MAX_TRAJECTORY_POINTS -> array_read a j = Some (a j).
Proof.
  intros H. unfold array_read. now rewrite (proj2 (in_array_iff j) H).
Qed.

(** The shift loop over the indices [a .. a + k - 1], all below the last
    cell: it neither reads nor writes outside the arrays, and moves every
    cell of the range one place down. *)
Lemma shift_points_spec (k : nat) :
  forall (a : nat) (t : Trajectory F),
    Z.of_nat (a + k) < MAX_TRAJECTORY_POINTS ->
    exists t',
      shift_points (map Z.of_nat (seq a k)) t = Some t' /\
      trajectory_count t' = trajectory_count t /\
      forall j,
        trajectory_x t' j
        = (if (Z.of_nat a <=? j) && (j <? Z.of_nat (a + k))
           then trajectory_x t (j + 1) else trajectory_x t j) /\
        trajectory_y t' j
        = (if (Z.of_nat a <=? j) && (j <? Z.of_nat (a + k))
           then trajectory_y t (j + 1) else trajectory_y t j).
Proof.
  induction k as [|k IH]; intros a t Hle; cbn [seq map shift_points].
  - exists t. split; [reflexivity|]. split; [reflexivity|].
    intros j. replace ((Z.of_nat a <=? j) && (j <? Z.of_nat (a + 0))) with false;
      [split; reflexivity|].
    symmetry. apply andb_false_iff.
    rewrite Z.leb_gt, Z.ltb_ge. lia.
  - unfold shift_step.
    rewrite array_read_in by lia. cbn [bind].
    rewrite array_write_in by lia. cbn [bind].
    rewrite array_read_in by lia. cbn [bind].
    rewrite array_write_in by lia. cbn [bind].
    set (t1 := mkTrajectory _ _ _).
    destruct (IH (S a) t1 ltac:(lia)) as (t' & Hrun & Hc & Hcells).
    exists t'. split; [exact Hrun|]. split; [rewrite Hc; reflexivity|].
    intros j. destruct (Hcells j) as (Hx & Hy). rewrite Hx, Hy.
    unfold t1. cbn [trajectory_x trajectory_y].
    destruct (Z.leb_spec (Z.of_nat (S a)) j);
      destruct (Z.ltb_spec j (Z.of_nat (S a + k)));
      destruct (Z.leb_spec (Z.of_nat a) j);
      destruct (Z.ltb_spec j (Z.of_nat (a + S k)));
      cbn [andb]; try lia;
      destruct (Z.eqb_spec (j + 1) (Z.of_nat a));
      destruct (Z.eqb_spec j (Z.of_nat a)); try lia; subst;
      split; reflexivity.
Qed.

Lemma recorded_as_map (t : Trajectory F) :
  recorded t
  = map (fun k => (trajectory_x t (Z.of_nat k), trajectory_y t (Z.of_nat k)))
        (seq 0 (Z.to_nat (trajectory_count t))).
Proof. unfold recorded, indices. now rewrite map_map. Qed.

Lemma recorded_length (t : Trajectory F) :
  length (recorded t) = Z.to_nat (trajectory_count t).
Proof. rewrite recorded_as_map. now rewrite length_map, length_seq. Qed.

(** Recording a point keeps the count in range, touches no cell outside the
    arrays, and leaves the previous points followed by the new one, the
    oldest dropped when the buffer was full. *)
Lemma record_point_spec (t : Trajectory F) (x y : F) :
  count_in_range t ->
  exists t',
    record_point t x y = Some t' /\
    count_in_range t' /\
    trajectory_count t'
    = Z.min (trajectory_count t + 1) MAX_TRAJECTORY_POINTS /\
    recorded t'
    = last_points (Z.to_nat MAX_TRAJECTORY_POINTS) (recorded t ++ [(x, y)]).
Proof.
  intros (H0 & Hmax). unfold record_point.
  destruct (Z.ltb_spec (trajectory_count t) MAX_TRAJECTORY_POINTS) as [Hlt|Hge].
  - rewrite !array_write_in by lia. cbn [bind].
    eexists. split; [reflexivity|].
    split; [unfold count_in_range; cbn [trajectory_count]; lia|].
    split; [cbn [trajectory_count]; lia|].
    unfold last_points. rewrite length_app, recorded_length. cbn [length].
    replace (Z.to_nat (trajectory_count t) + 1 - Z.to_nat MAX_TRAJECTORY_POINTS)%nat
      with 0%nat by lia.
    cbn [skipn]. rewrite !recorded_as_map. cbn [trajectory_count trajectory_x trajectory_y].
    replace (Z.to_nat (trajectory_count t + 1))
      with (S (Z.to_nat (trajectory_count t))) by lia.
    rewrite seq_S, map_app. cbn [map Nat.add]. f_equal.
    + apply map_ext_in. intros k Hk. apply in_seq in Hk.
      destruct (Z.eqb_spec (Z.of_nat k) (trajectory_count t)); [lia|reflexivity].
    + replace (Z.of_nat (Z.to_nat (trajectory_count t)))
        with (trajectory_count t) by lia.
      now rewrite Z.eqb_refl.
  - assert (Hc : trajectory_count t = MAX_TRAJECTORY_POINTS) by lia.
    unfold indices.
    destruct (shift_points_spec (Z.to_nat (MAX_TRAJECTORY_POINTS - 1)) 0 t)
      as (t1 & Hrun & Hc1 & Hcells).
    { unfold MAX_TRAJECTORY_POINTS. lia. }
    rewrite Hrun. cbn [bind].
    rewrite !array_write_in by (unfold MAX_TRAJECTORY_POINTS; lia). cbn [bind].
    eexists. split; [reflexivity|].
    split; [unfold count_in_range; cbn [trajectory_count]; lia|].
    split; [cbn [trajectory_count]; lia|].
    unfold last_points. rewrite length_app, recorded_length, Hc. cbn [length].
    replace (Z.to_nat MAX_TRAJECTORY_POINTS + 1 - Z.to_nat MAX_TRAJECTORY_POINTS)%nat
      with 1%nat by lia.
    rewrite !recorded_as_map. cbn [trajectory_count trajectory_x trajectory_y].
    rewrite Hc1, Hc.
    assert (HN : Z.to_nat MAX_TRAJECTORY_POINTS
                 = S (Z.to_nat (MAX_TRAJECTORY_POINTS - 1)))
      by (unfold MAX_TRAJECTORY_POINTS; lia).
    rewrite HN.
    set (N := Z.to_nat (MAX_TRAJECTORY_POINTS - 1)) in *.
    assert (HNz : Z.of_nat N = MAX_TRAJECTORY_POINTS - 1)
      by (unfold N, MAX_TRAJECTORY_POINTS; lia).
    rewrite seq_S at 1. rewrite map_app.
    cbn [seq map app skipn Nat.add]. apply (f_equal2 (@app _)).
    + rewrite <- seq_shift, map_map. apply map_ext_in. intros k Hk.
      apply in_seq in Hk.
      destruct (Z.eqb_spec (Z.of_nat k) (MAX_TRAJECTORY_POINTS - 1)); [lia|].
      destruct (Hcells (Z.of_nat k)) as (Hx & Hy). rewrite Hx, Hy.
      destruct (Z.leb_spec (Z.of_nat 0) (Z.of_nat k)); [|lia].
      destruct (Z.ltb_spec (Z.of_nat k) (Z.of_nat (0 + N))); [|lia].
      cbn [andb]. replace (Z.of_nat k + 1) with (Z.of_nat (S k)) by lia.
      reflexivity.
    + rewrite HNz, Z.eqb_refl. reflexivity.
Qed.

End Buffer.

(** X13. The trajectory buffer is a sliding window: recording a point in a
    buffer whose count is in range writes inside the arrays only, keeps the
    count in range, and leaves the points recorded so far followed by the
    new point, the oldest one dropped once [MAX_TRAJECTORY_POINTS] are held
    (every arithmetic). *)
Theorem record_point_keeps_latest_points {F : Type} (t : Trajectory F)
    (x y : F) :
  count_in_range t ->
  exists t',
    record_point t x y = Some t' /\
    count_in_range t' /\
    recorded t'
    = last_points (Z.to_nat MAX_TRAJECTORY_POINTS) (recorded t ++ [(x, y)]) /\
    (length (recorded t') <= Z.to_nat MAX_TRAJECTORY_POINTS)%nat /\
    last (recorded t') (x, y) = (x, y).
Proof.
  intros Hr.
  destruct (record_point_spec t x y Hr) as (t' & Hrun & Hr' & Hc & Hrec).
  exists t'. split; [exact Hrun|]. split; [exact Hr'|]. split; [exact Hrec|].
  split.
  - rewrite recorded_length. destruct Hr' as (H0 & Hmax). lia.
  - rewrite Hrec. unfold last_points.
    generalize (length (recorded t ++ [(x, y)])
                - Z.to_nat MAX_TRAJECTORY_POINTS)%nat.
    generalize (recorded t). intros l.
    induction l as [|a l IH]; intros n.
    + destruct n as [|[|n]]; reflexivity.
    + destruct n as [|n]; [|apply IH].
      cbn [skipn]. apply last_last.
Qed.

(** X13 on the empty buffer. *)
Lemma record_point_keeps_latest_points_witness :
  exists t',
    record_point (empty_trajectory 0%R) 1%R 2%R = Some t' /\
    count_in_range t' /\
    recorded t'
    = last_points (Z.to_nat MAX_TRAJECTORY_POINTS)
        (recorded (empty_trajectory 0%R) ++ [(1%R, 2%R)]) /\
    (length (recorded t') <= Z.to_nat MAX_TRAJECTORY_POINTS)%nat /\
    last (recorded t') (1%R, 2%R) = (1%R, 2%R).
Proof.
  apply record_point_keeps_latest_points.
  unfold count_in_range, empty_trajectory, MAX_TRAJECTORY_POINTS.
  cbn [trajectory_count]. lia.
Defined.

Section Recording.
Context {F : Type} {AF : Arith F} {B : Type} {BB : Body F B}.
Local Open Scope Z_scope.

(** The trajectory loop records one point in the buffer of every listed
    body and leaves the other buffers alone. *)
Lemma record_all_spec (bodies : Store B) (ps : list ptr) :
  forall trs : Store (Trajectory F),
    NoDup ps ->
    (forall i, In i ps -> count_in_range (trs i)) ->
    exists trs',
      record_all ps bodies trs = Some trs' /\
      (forall i, In i ps ->
         record_point (trs i) (pos_x (bodies i)) (pos_y (bodies i))
         = Some (trs' i)) /\
      (forall q, ~ In q ps -> trs' q = trs q).
Proof.
  induction ps as [|k ps IH]; intros trs Hnd Hr; cbn [record_all].
  - exists trs. split; [reflexivity|]. split; [intros i []|reflexivity].
  - inversion Hnd as [|? ? Hk Hnd']; subst.
    destruct (record_point_spec (trs k) (pos_x (bodies k)) (pos_y (bodies k)))
      as (t' & Hrec & _); [apply Hr; left; reflexivity|].
    rewrite Hrec. cbn [bind].
    destruct (IH (store_set trs k t') Hnd') as (trs' & Hrun & Hin & Hout).
    { intros i Hi. unfold store_set.
      destruct (Nat.eqb_spec i k) as [->|]; [contradiction|].
      apply Hr. right; exact Hi. }
    exists trs'. split; [exact Hrun|]. split.
    + intros i [<-|Hi].
      * rewrite (Hout k Hk). unfold store_set. rewrite Nat.eqb_refl. exact Hrec.
      * specialize (Hin i Hi). unfold store_set in Hin.
        destruct (Nat.eqb_spec i k) as [E|]; [congruence|exact Hin].
    + intros q Hq. rewrite Hout by (intros Hq'; apply Hq; right; exact Hq').
      unfold store_set. destruct (Nat.eqb_spec q k) as [->|]; [|reflexivity].
      contradiction Hq. left; reflexivity.
Qed.

End Recording.

Section Cadence.
Local Open Scope Z_scope.

(** The number of multiples of [m] below [j + 1] is that below [j], plus
    one when [m] divides [j]. *)
Lemma recordings_step (m j : Z) :
  0 < m -> 0 <= j ->
  (j + 1 + m - 1) / m = (j + m - 1) / m + (if Z.rem j m =? 0 then 1 else 0).
Proof.
  intros Hm Hj. rewrite Z.rem_mod_nonneg by lia.
  pose proof (Z.div_mod j m ltac:(lia)) as Hdm.
  pose proof (Z.mod_pos_bound j m Hm) as Hr.
  set (q := j / m) in *. set (r := j mod m) in *.
  destruct (Z.eqb_spec r 0) as [E|E].
  - rewrite <- (Z.div_unique (j + 1 + m - 1) m (q + 1) 0) by lia.
    rewrite <- (Z.div_unique (j + m - 1) m q (m - 1)) by lia. lia.
  - rewrite <- (Z.div_unique (j + 1 + m - 1) m (q + 1) r) by lia.
    rewrite <- (Z.div_unique (j + m - 1) m (q + 1) (r - 1)) by lia. lia.
Qed.

Lemma recordings_nonneg (m j : Z) : 0 < m -> 0 <= j -> 0 <= (j + m - 1) / m.
Proof. intros Hm Hj. apply Z.div_pos; lia. Qed.

Context {F : Type} {AF : Arith F} {B : Type} {BB : Body F B}.

(** The trajectory block of a stepper on buffers that all hold [c] points:
    in a frame whose number the interval divides, every listed buffer gets
    one more point (it stays full when it was full); in the other frames
    nothing is recorded.  No remainder is undefined and no cell outside a
    buffer is touched. *)
Lemma update_trajectories_counts (frame trajectory_interval c : Z)
    (ps : list ptr) (bodies : Store B) (trs : Store (Trajectory F)) :
  0 < trajectory_interval -> 0 <= frame -> NoDup ps ->
  0 <= c <= MAX_TRAJECTORY_POINTS ->
  (forall i, In i ps -> trajectory_count (trs i) = c) ->
  exists trs',
    update_trajectories frame trajectory_interval ps bodies trs = Some trs' /\
    (forall i, In i ps ->
       trajectory_count (trs' i)
       = Z.min (c + (if Z.rem frame trajectory_interval =? 0 then 1 else 0))
               MAX_TRAJECTORY_POINTS) /\
    (forall q, ~ In q ps -> trs' q = trs q).
Proof.
  intros Hm Hf Hnd Hc Hcount. unfold update_trajectories.
  destruct (Z.eqb_spec trajectory_interval 0) as [|_]; [lia|].
  destruct (Z.eqb_spec frame INT_MIN) as [E|_];
    [unfold INT_MIN in E; lia|].
  cbn [orb andb].
  destruct (Z.rem frame trajectory_interval =? 0).
  - destruct (record_all_spec bodies ps trs Hnd) as (trs' & Hrun & Hin & Hout).
    { intros i Hi. unfold count_in_range. rewrite (Hcount i Hi). exact Hc. }
    exists trs'. split; [exact Hrun|]. split; [|exact Hout].
    intros i Hi.
    destruct (record_point_spec (trs i) (pos_x (bodies i)) (pos_y (bodies i)))
      as (t' & Hrec & _ & Hcnt & _).
    { unfold count_in_range. rewrite (Hcount i Hi). exact Hc. }
    rewrite (Hin i Hi) in Hrec. inversion Hrec; subst t'.
    rewrite Hcnt, (Hcount i Hi). reflexivity.
  - exists trs. split; [reflexivity|]. split; [|reflexivity].
    intros i Hi. rewrite (Hcount i Hi). lia.
Qed.

End Cadence.

Section PlanetsProgram.
Context {F : Type} {AF : Arith F}.
Variables G dt : F.
Variable num_planets : nat.
Variable trajectory_interval : Z.
Local Open Scope Z_scope.

(** One frame of the planets program, counted: the frame number goes from
    [j] to [j + 1] and the buffers from the recordings of [j] frames to
    those of [j + 1]. *)
Lemma update_simulation_counts (j : Z) (s : Frame F (Planet F)) :
  0 < trajectory_interval -> 0 <= j < INT_MAX ->
  frame_count s = j ->
  (forall i, (i < num_planets)%nat ->
     trajectory_count (frame_trajectories s i)
     = Z.min MAX_TRAJECTORY_POINTS
             ((j + trajectory_interval - 1) / trajectory_interval)) ->
  exists s',
    update_simulation G dt num_planets trajectory_interval s = Some s' /\
    frame_count s' = j + 1 /\
    (forall i, (i < num_planets)%nat ->
       trajectory_count (frame_trajectories s' i)
       = Z.min MAX_TRAJECTORY_POINTS
               ((j + 1 + trajectory_interval - 1) / trajectory_interval)).
Proof.
  intros Hm Hj Hfc Hcount. unfold update_simulation.
  pose proof (recordings_nonneg trajectory_interval j Hm ltac:(lia)) as Hn.
  destruct (update_trajectories_counts (frame_count s) trajectory_interval
              (Z.min MAX_TRAJECTORY_POINTS
                     ((j + trajectory_interval - 1) / trajectory_interval))
              (seq 0 num_planets)
              (sun_forces_and_update G dt (seq 1 (num_planets - 1))
                 (frame_bodies s))
              (frame_trajectories s) Hm ltac:(lia) (seq_NoDup _ _))
    as (trs' & Hrun & Hin & _).
  { unfold MAX_TRAJECTORY_POINTS. lia. }
  { intros i Hi. apply Hcount. apply in_seq in Hi. lia. }
  rewrite Hrun. cbn [bind]. unfold next_frame.
  destruct (Z.ltb_spec (frame_count s) INT_MAX) as [_|?]; [|lia].
  cbn [bind]. eexists. split; [reflexivity|].
  cbn [frame_count frame_trajectories]. split; [lia|].
  intros i Hi. rewrite (Hin i) by (apply in_seq; lia).
  rewrite Hfc, (recordings_step trajectory_interval j Hm) by lia.
  destruct (Z.rem j trajectory_interval =? 0); lia.
Qed.

Lemma run_frames_counts (k : nat) :
  forall (j : Z) (s : Frame F (Planet F)),
    0 < trajectory_interval -> 0 <= j -> j + Z.of_nat k <= INT_MAX ->
    frame_count s = j ->
    (forall i, (i < num_planets)%nat ->
       trajectory_count (frame_trajectories s i)
       = Z.min MAX_TRAJECTORY_POINTS
               ((j + trajectory_interval - 1) / trajectory_interval)) ->
    exists s',
      run_frames (update_simulation G dt num_planets trajectory_interval) k s
      = Some s' /\
      frame_count s' = j + Z.of_nat k /\
      (forall i, (i < num_planets)%nat ->
         trajectory_count (frame_trajectories s' i)
         = Z.min MAX_TRAJECTORY_POINTS
                 ((j + Z.of_nat k + trajectory_interval - 1)
                  / trajectory_interval)).
Proof.
  induction k as [|k IH]; intros j s Hm Hj Hk Hfc Hcount; cbn [run_frames].
  - exists s. split; [reflexivity|]. rewrite Z.add_0_r. auto.
  - destruct (update_simulation_counts j s Hm ltac:(lia) Hfc Hcount)
      as (s1 & Hstep & Hfc1 & Hc1).
    rewrite Hstep. cbn [bind].
    destruct (IH (j + 1) s1 Hm ltac:(lia) ltac:(lia) Hfc1 Hc1)
      as (s' & Hrun & Hfc' & Hc').
    exists s'. split; [exact Hrun|].
    replace (j + Z.of_nat (S k)) with (j + 1 + Z.of_nat k) by lia.
    auto.
Qed.

End PlanetsProgram.

(** X14. The planets program records a point for every planet in the frames
    whose number the interval divides, and only in them: [k] calls of
    [update_simulation] from frame 0 and empty buffers all return, without
    an undefined remainder, counter overflow or access outside a buffer,
    leave the frame counter at [k] and every buffer with
    [min (MAX_TRAJECTORY_POINTS, ceil (k / trajectory_interval))] points
    (every arithmetic). *)
Theorem planets_program_records_every_interval {F : Type} {AF : Arith F}
    (G dt : F) (num_planets : nat) (trajectory_interval : Z) (k : nat)
    (s : Frame F (Planet F)) :
  (0 < trajectory_interval)%Z ->
  (Z.of_nat k <= INT_MAX)%Z ->
  frame_count s = 0%Z ->
  (forall i, (i < num_planets)%nat ->
     trajectory_count (frame_trajectories s i) = 0%Z) ->
  exists s',
    run_frames (update_simulation G dt num_planets trajectory_interval) k s
    = Some s' /\
    frame_count s' = Z.of_nat k /\
    (forall i, (i < num_planets)%nat ->
       trajectory_count (frame_trajectories s' i)
       = Z.min MAX_TRAJECTORY_POINTS
               ((Z.of_nat k + trajectory_interval - 1) / trajectory_interval)).
Proof.
  intros Hm Hk Hfc Hcount.
  destruct (run_frames_counts G dt num_planets trajectory_interval k 0 s Hm
              ltac:(lia) ltac:(lia) Hfc) as (s' & Hrun & Hfc' & Hc').
  - intros i Hi. rewrite (Hcount i Hi).
    replace ((0 + trajectory_interval - 1) / trajectory_interval)%Z with 0%Z.
    + unfold MAX_TRAJECTORY_POINTS. lia.
    + symmetry. apply Z.div_small. lia.
  - exists s'. split; [exact Hrun|]. split; [lia|exact Hc'].
Qed.

(** X14 on two planets: 25 frames with an interval of 10 record 3 points. *)
Lemma planets_program_records_every_interval_witness :
  exists s',
    run_frames (update_simulation 1%float 0.001%float 2 10) 25 pair_frame64
    = Some s' /\
    frame_count s' = 25%Z /\
    (forall i, (i < 2)%nat ->
       trajectory_count (frame_trajectories s' i)
       = Z.min MAX_TRAJECTORY_POINTS ((25 + 10 - 1) / 10)).
Proof.
  apply (planets_program_records_every_interval 1%float 0.001%float 2 10 25
           pair_frame64).
  - lia.
  - unfold INT_MAX. lia.
  - reflexivity.
  - intros i _. reflexivity.
Defined.

Section BarnesHutFrame.
Context {F : Type} {AF : Arith F} {B : Type} {BB : Body F B}.
Local Open Scope Z_scope.

(** The trajectory block of a stepper, buffer by buffer. *)
Lemma update_trajectories_records (frame trajectory_interval : Z)
    (ps : list ptr) (bodies : Store B) (trs : Store (Trajectory F)) :
  0 < trajectory_interval -> 0 <= frame -> NoDup ps ->
  (forall i, In i ps -> count_in_range (trs i)) ->
  exists trs',
    update_trajectories frame trajectory_interval ps bodies trs = Some trs' /\
    (forall i, In i ps ->
       count_in_range (trs' i) /\
       recorded (trs' i)
       = if Z.rem frame trajectory_interval =? 0
         then last_points (Z.to_nat MAX_TRAJECTORY_POINTS)
                (recorded (trs i) ++ [(pos_x (bodies i), pos_y (bodies i))])
         else recorded (trs i)) /\
    (forall q, ~ In q ps -> trs' q = trs q).
Proof.
  intros Hm Hf Hnd Hr. unfold update_trajectories.
  destruct (Z.eqb_spec trajectory_interval 0) as [|_]; [lia|].
  destruct (Z.eqb_spec frame INT_MIN) as [E|_];
    [unfold INT_MIN in E; lia|].
  cbn [orb andb].
  destruct (Z.rem frame trajectory_interval =? 0).
  - destruct (record_all_spec bodies ps trs Hnd Hr) as (trs' & Hrun & Hin & Hout).
    exists trs'. split; [exact Hrun|]. split; [|exact Hout].
    intros i Hi.
    destruct (record_point_spec (trs i) (pos_x (bodies i)) (pos_y (bodies i))
                (Hr i Hi)) as (t' & Hrec & Hr' & _ & Hpts).
    rewrite (Hin i Hi) in Hrec. inversion Hrec; subst t'. auto.
  - exists trs. split; [reflexivity|]. split; [|reflexivity].
    intros i Hi. split; [apply Hr, Hi|reflexivity].
Qed.

End BarnesHutFrame.

(** X15. A frame of the barnes_hut unit's stepper: when its three loops
    return, the whole call returns; in a frame whose number the interval
    divides every planet's buffer receives the position the planet has
    after the integration (the oldest point dropped from a full buffer),
    in the other frames no buffer changes; the frame counter grows by one
    (every arithmetic). *)
Theorem bh_frame_records_new_positions {F : Type} {AF : Arith F}
    (fuel : nat) (G theta dt : F) (num_planets : nat)
    (trajectory_interval : Z) (s : Frame F (Planet F))
    (planets' : Store (Planet F)) :
  (0 < trajectory_interval)%Z ->
  (0 <= frame_count s < INT_MAX)%Z ->
  (forall i, (i < num_planets)%nat -> count_in_range (frame_trajectories s i)) ->
  bh_update_simulation fuel G theta dt (frame_bodies s) num_planets
  = Some planets' ->
  exists s',
    bh_update_simulation_frame fuel G theta dt num_planets trajectory_interval s
    = Some s' /\
    frame_bodies s' = planets' /\
    frame_count s' = (frame_count s + 1)%Z /\
    (forall i, (i < num_planets)%nat ->
       count_in_range (frame_trajectories s' i) /\
       recorded (frame_trajectories s' i)
       = if (Z.rem (frame_count s) trajectory_interval =? 0)%Z
         then last_points (Z.to_nat MAX_TRAJECTORY_POINTS)
                (recorded (frame_trajectories s i)
                 ++ [(p_x (planets' i), p_y (planets' i))])
         else recorded (frame_trajectories s i)) /\
    (forall i, (num_planets <= i)%nat ->
       frame_trajectories s' i = frame_trajectories s i).
Proof.
  intros Hm Hfc Hr Hplanets. unfold bh_update_simulation_frame.
  rewrite Hplanets. cbn [bind].
  destruct (update_trajectories_records (frame_count s) trajectory_interval
              (seq 0 num_planets) planets' (frame_trajectories s) Hm
              ltac:(lia) (seq_NoDup _ _))
    as (trs' & Hrun & Hin & Hout).
  { intros i Hi. apply Hr. apply in_seq in Hi. lia. }
  rewrite Hrun. cbn [bind]. unfold next_frame.
  destruct (Z.ltb_spec (frame_count s) INT_MAX) as [_|?]; [|lia].
  cbn [bind]. eexists. split; [reflexivity|].
  cbn [frame_bodies frame_count frame_trajectories].
  split; [reflexivity|]. split; [reflexivity|]. split.
  - intros i Hi. apply (Hin i). apply in_seq. lia.
  - intros i Hi. apply Hout. rewrite in_seq. lia.
Qed.

(** X15 on two planets, in binary64. *)
Lemma bh_frame_records_new_positions_witness :
  exists planets' s',
    bh_update_simulation 3 1%float 0.7%float 1%float
      (frame_bodies pair_frame64) 2 = Some planets' /\
    bh_update_simulation_frame 3 1%float 0.7%float 1%float 2 10 pair_frame64
    = Some s' /\
    frame_bodies s' = planets' /\
    frame_count s' = (frame_count pair_frame64 + 1)%Z.
Proof.
  destruct (bh_update_simulation 3 1%float 0.7%float 1%float
              (frame_bodies pair_frame64) 2) as [planets'|] eqn:E.
  - assert (Hm : (0 < 10)%Z) by lia.
    assert (Hfc : (0 <= frame_count pair_frame64 < INT_MAX)%Z)
      by (cbn [frame_count pair_frame64]; unfold INT_MAX; lia).
    assert (Hr : forall i, (i < 2)%nat ->
                   count_in_range (frame_trajectories pair_frame64 i)).
    { intros i _. unfold count_in_range, MAX_TRAJECTORY_POINTS.
      cbn [frame_trajectories pair_frame64 empty_trajectory trajectory_count].
      lia. }
    destruct (bh_frame_records_new_positions 3 1%float 0.7%float 1%float 2 10
                pair_frame64 planets' Hm Hfc Hr E)
      as (s' & Hrun & Hb & Hc & _).
    exists planets', s'. auto.
  - exfalso. vm_compute in E. discriminate E.
Defined.

(** ** The asteroid tick *)

Section AsteroidLoop.
Context {F : Type} {AF : Arith F}.

(** The logging loop is the loop of solar.c, plus one row per body: the
    state the body has right after its own update. *)
Lemma force_update_and_log_run (G theta dt time : F) (root : QuadTreeNode F)
    (ps : list ptr) :
  forall (st : Store (CelestialBody F)) (log : list (list F)),
    NoDup ps ->
    force_update_and_log G theta dt time root ps st log
    = match force_and_update G theta dt root ps st with
      | Some st' =>
        Some (st', log ++ map (fun i => log_asteroid_data (st' i) time) ps)
      | None => None
      end.
Proof.
  induction ps as [|k ps IH]; intros st log Hnd;
    cbn [force_update_and_log force_and_update map].
  - now rewrite app_nil_r.
  - destruct (calculate_force_unguarded G st k root theta (f0, f0)) as [f|];
      [|reflexivity].
    cbn [bind]. inversion Hnd as [|? ? Hk Hnd']; subst.
    rewrite (IH _ _ Hnd').
    destruct (force_and_update G theta dt root ps _) as [st'|] eqn:Hrun;
      [|reflexivity].
    destruct (force_and_update_frame G theta dt root ps _ _ Hrun) as (Hout & _).
    rewrite (Hout k Hk).
    assert (Hb : store_set st k (update_body (st k) (fst f) (snd f) dt) k
                 = update_body (st k) (fst f) (snd f) dt)
      by (unfold store_set; now rewrite Nat.eqb_refl).
    rewrite Hb, <- app_assoc. reflexivity.
Qed.

(** The loop over the cells [a .. a + n - 1], body by body. *)
Lemma force_and_update_sequential (G theta dt : F) (root : QuadTreeNode F)
    (a n : nat) (st st' : Store (CelestialBody F)) :
  force_and_update G theta dt root (seq a n) st = Some st' ->
  forall k, (k < n)%nat ->
    exists (seen : Store (CelestialBody F)) (f : F * F),
      (forall j, (j < k)%nat -> seen (a + j)%nat = st' (a + j)%nat) /\
      (forall q, (q < a)%nat \/ (a + k <= q)%nat -> seen q = st q) /\
      calculate_force_unguarded G seen (a + k)%nat root theta (f0, f0) = Some f /\
      st' (a + k)%nat = update_body (st (a + k)%nat) (fst f) (snd f) dt.
Proof.
  intros Hrun k Hk.
  assert (Hseq : seq a n = seq a k ++ (a + k)%nat :: seq (S (a + k)) (n - S k)).
  { replace n with (k + S (n - S k))%nat at 1 by lia.
    rewrite seq_app. cbn [seq]. reflexivity. }
  rewrite Hseq, force_and_update_app in Hrun.
  destruct (force_and_update G theta dt root (seq a k) st)
    as [seen|] eqn:Hpre; [|discriminate].
  cbn [bind force_and_update] in Hrun.
  destruct (calculate_force_unguarded G seen (a + k) root theta (f0, f0))
    as [f|] eqn:Hf; [|discriminate].
  cbn [bind] in Hrun.
  destruct (force_and_update_frame G theta dt root _ _ _ Hpre) as (Pout & _).
  destruct (force_and_update_frame G theta dt root _ _ _ Hrun) as (Rout & _).
  assert (Hnot : forall q, (q <= a + k)%nat ->
                           ~ In q (seq (S (a + k)) (n - S k)))
    by (intros q Hq Hin; apply in_seq in Hin; lia).
  exists seen, f. split; [|split; [|split; [exact Hf|]]].
  - intros j Hj. rewrite (Rout (a + j)%nat) by (apply Hnot; lia).
    unfold store_set. destruct (Nat.eqb_spec (a + j) (a + k)); [lia|reflexivity].
  - intros q Hq. apply Pout. rewrite in_seq. lia.
  - rewrite (Rout (a + k)%nat) by (apply Hnot; lia).
    unfold store_set. rewrite Nat.eqb_refl.
    rewrite (Pout (a + k)%nat) by (rewrite in_seq; lia). reflexivity.
Qed.

End AsteroidLoop.

(** X16. The asteroid tick of asteriod.c: the planets enter the tree as
    copies and are sources only, no copy is ever written; every asteroid is
    evaluated once, against the store in which the asteroids before it have
    already moved, integrated with that force, and logged in the state it
    has right after its own update, one row per asteroid; cells beyond
    [num_asteroids] are untouched (every arithmetic). *)
Theorem asteroid_tick_moves_asteroids_only {F : Type} {AF : Arith F}
    (fuel : nat) (G theta region dt current_time : F) (num_asteroids : nat)
    (planets : Store (Planet F)) (num_planets : nat)
    (asteroids asteroids' : Store (CelestialBody F)) (log : list (list F)) :
  update_asteroids_with_quadtree fuel G theta region dt current_time
    num_asteroids planets num_planets asteroids = Some (asteroids', log) ->
  exists root,
    insert_all fuel (asteroid_tick_store planets num_planets asteroids)
      (create_quadtree (fneg region) (fneg region) (fmul f2 region)
                       (fmul f2 region))
      (seq 0 (num_planets + num_asteroids)) = Some root /\
    (forall k, (k < num_asteroids)%nat ->
       exists (seen : Store (CelestialBody F)) (f : F * F),
         (forall q, (q < num_planets)%nat -> seen q = planet_body (planets q)) /\
         (forall j, (j < k)%nat -> seen (num_planets + j)%nat = asteroids' j) /\
         (forall j, (k <= j)%nat -> seen (num_planets + j)%nat = asteroids j) /\
         calculate_force_unguarded G seen (num_planets + k)%nat
           (calculate_center_of_mass
              (asteroid_tick_store planets num_planets asteroids) root)
           theta (f0, f0) = Some f /\
         asteroids' k = update_body (asteroids k) (fst f) (snd f) dt /\
         nth k log [] = log_asteroid_data (asteroids' k) current_time) /\
    (forall k, (num_asteroids <= k)%nat -> asteroids' k = asteroids k) /\
    length log = num_asteroids.
Proof.
  unfold update_asteroids_with_quadtree. intros Hrun.
  set (st := asteroid_tick_store planets num_planets asteroids) in *.
  destruct (insert_all fuel st _ (seq 0 (num_planets + num_asteroids)))
    as [root|]; [|discriminate].
  cbn [bind] in Hrun. exists root. split; [reflexivity|].
  set (t := calculate_center_of_mass st root) in *.
  rewrite (force_update_and_log_run G theta dt current_time t _ st []
             (seq_NoDup _ _)) in Hrun.
  destruct (force_and_update G theta dt t (seq num_planets num_asteroids) st)
    as [st'|] eqn:Hloop; [|discriminate].
  cbn [bind fst snd app] in Hrun. inversion Hrun; subst asteroids' log.
  clear Hrun.
  assert (Hst : forall j, st (num_planets + j)%nat = asteroids j).
  { intros j. unfold st, asteroid_tick_store.
    destruct (Nat.ltb_spec (num_planets + j) num_planets); [lia|].
    f_equal. lia. }
  split; [|split].
  - intros k Hk.
    destruct (force_and_update_sequential G theta dt t num_planets
                num_asteroids st st' Hloop k Hk)
      as (seen & f & Hbefore & Hrest & Hf & Hnew).
    exists seen, f.
    destruct (Nat.ltb_spec k num_asteroids) as [_|?]; [|lia].
    split; [|split; [|split; [|split; [exact Hf|split]]]].
    + intros q Hq. rewrite Hrest by lia. unfold st, asteroid_tick_store.
      destruct (Nat.ltb_spec q num_planets); [reflexivity|lia].
    + intros j Hj. destruct (Nat.ltb_spec j num_asteroids) as [_|?]; [|lia].
      apply Hbefore, Hj.
    + intros j Hj. rewrite Hrest by lia. apply Hst.
    + rewrite Hnew, Hst. reflexivity.
    + rewrite (nth_indep _ [] (log_asteroid_data (st' O) current_time))
        by (rewrite length_map, length_seq; exact Hk).
      rewrite (map_nth (fun i => log_asteroid_data (st' i) current_time)).
      rewrite seq_nth by exact Hk. reflexivity.
  - intros k Hk. destruct (Nat.ltb_spec k num_asteroids); [lia|reflexivity].
  - now rewrite length_map, length_seq.
Qed.

(** X16 on two planets and two asteroids, in binary64. *)
Lemma asteroid_tick_moves_asteroids_only_witness :
  exists asteroids' log,
    update_asteroids_with_quadtree 8 6.67430e-11%float 0.5%float 100%float
      0.001%float 0%float 2 pair_planets64 2 two_asteroids64
    = Some (asteroids', log) /\
    (forall k, (2 <= k)%nat -> asteroids' k = two_asteroids64 k) /\
    length log = 2%nat.
Proof.
  destruct (update_asteroids_with_quadtree 8 6.67430e-11%float 0.5%float
              100%float 0.001%float 0%float 2 pair_planets64 2 two_asteroids64)
    as [[asteroids' log]|] eqn:E.
  - exists asteroids', log. split; [reflexivity|].
    destruct (asteroid_tick_moves_asteroids_only 8 6.67430e-11%float 0.5%float
                100%float 0.001%float 0%float 2 pair_planets64 2
                two_asteroids64 asteroids' log E) as (_ & _ & _ & Hrest & Hlen).
    split; [exact Hrest|exact Hlen].
  - exfalso. vm_compute in E. discriminate E.
Defined.

(** ** The mouse controls *)

(** What a click does, by cases on the four buttons. *)
Lemma handle_click_cases {F : Type} {AF : Arith F}
    (c : Controls F) (x y : Z) (v : View F) :
  handle_click_nested c x y v = handle_click c x y v /\
  ((x < WIDTH - 100)%Z \/ (WIDTH - 50 < x)%Z -> handle_click c x y v = v) /\
  ((y < 20)%Z \/ (300 < y)%Z -> handle_click c x y v = v) /\
  (handle_click c x y v = v \/
   handle_click c x y v = zoom_in c v \/
   handle_click c x y v = zoom_out c v \/
   handle_click c x y v = dt_up c v \/
   handle_click c x y v = dt_down c v).
Proof.
  unfold handle_click, handle_click_nested, in_button.
  destruct (Z.leb_spec (WIDTH - 100) x); destruct (Z.leb_spec x (WIDTH - 50));
    destruct (Z.leb_spec 20 y);
    destruct (Z.leb_spec y 60); try (exfalso; lia);
    destruct (Z.leb_spec 80 y); try (exfalso; lia);
    destruct (Z.leb_spec y 120); try (exfalso; lia);
    destruct (Z.leb_spec 200 y); try (exfalso; lia);
    destruct (Z.leb_spec y 240); try (exfalso; lia);
    destruct (Z.leb_spec 260 y); try (exfalso; lia);
    destruct (Z.leb_spec y 300); try (exfalso; lia);
    cbn [andb];
    (split; [reflexivity|]);
    (split; [intros [?|?]; try lia; reflexivity|]);
    (split; [intros [?|?]; try lia; reflexivity|]); tauto.
Qed.

(** X17. A mouse click does the same in the three main loops (the tests
    nested in the second program of solar.c, in a row in the others): it
    applies at most one of the four buttons, so it changes the zoom or the
    time step but never both, and a click outside the column of the buttons
    changes nothing (every arithmetic). *)
Theorem handle_click_changes_one_control {F : Type} {AF : Arith F}
    (c : Controls F) (x y : Z) (v : View F) :
  handle_click_nested c x y v = handle_click c x y v /\
  ((x < WIDTH - 100)%Z \/ (WIDTH - 50 < x)%Z -> handle_click c x y v = v) /\
  ((y < 20)%Z \/ (300 < y)%Z -> handle_click c x y v = v) /\
  (handle_click c x y v = v \/
   handle_click c x y v = zoom_in c v \/
   handle_click c x y v = zoom_out c v \/
   handle_click c x y v = dt_up c v \/
   handle_click c x y v = dt_down c v).
Proof. apply handle_click_cases. Qed.

Section ExactControls.
Variable c : Controls R.
Hypothesis Hzoom : (min_zoom c <= max_zoom c)%R.
Hypothesis Hdt : (min_dt c <= max_dt c)%R.
Hypothesis Hzs : (0 <= zoom_step c)%R.
Hypothesis Hds : (0 <= dt_step c)%R.

Lemma view_in_range_iff (v : View R) :
  view_in_range c v <->
  (min_zoom c <= pixels_per_AU v <= max_zoom c)%R /\
  (min_dt c <= view_dt v <= max_dt c)%R.
Proof.
  unfold view_in_range. cbn [fle Exact]. rewrite !R_leb_true_iff. tauto.
Qed.

(** Each of the four buttons keeps both quantities within the limits. *)
Lemma buttons_keep_range (v : View R) :
  view_in_range c v ->
  view_in_range c (zoom_in c v) /\ view_in_range c (zoom_out c v) /\
  view_in_range c (dt_up c v) /\ view_in_range c (dt_down c v).
Proof.
  rewrite !view_in_range_iff. intros ((Z1 & Z2) & (D1 & D2)).
  unfold zoom_in, zoom_out, dt_up, dt_down.
  cbn [pixels_per_AU view_dt fadd fsub flt Exact].
  repeat split;
    try assumption;
    match goal with
    | |- context [R_ltb ?a ?b] => destruct (R_ltb a b) eqn:E; to_reals; lra
    end.
Qed.

End ExactControls.

(** X18. The clamps of the main loops: with limits in order and steps that
    are not negative, a click leaves the zoom within [min_zoom, max_zoom]
    and the time step within [min_dt, max_dt] whenever they were
    (exact arithmetic). *)
Theorem handle_click_keeps_view_in_range (c : Controls R) (x y : Z)
    (v : View R) :
  (min_zoom c <= max_zoom c)%R -> (min_dt c <= max_dt c)%R ->
  (0 <= zoom_step c)%R -> (0 <= dt_step c)%R ->
  view_in_range c v ->
  view_in_range c (handle_click c x y v) /\
  view_in_range c (handle_click_nested c x y v).
Proof.
  intros Hzoom Hdt Hzs Hds Hv.
  assert (Hb : forall w, view_in_range c w ->
                 view_in_range c (zoom_in c w) /\ view_in_range c (zoom_out c w) /\
                 view_in_range c (dt_up c w) /\ view_in_range c (dt_down c w))
    by (intros w; apply buttons_keep_range; assumption).
  destruct (handle_click_cases c x y v) as (-> & _ & _ & H).
  assert (Hflat : view_in_range c (handle_click c x y v)).
  { destruct H as [->|[->|[->|[->| ->]]]]; [exact Hv|apply Hb, Hv..]. }
  split; exact Hflat.
Qed.

(** X18 on the constants of [main], for a click on the first button. *)
Lemma handle_click_keeps_view_in_range_witness :
  view_in_range main_controls (handle_click main_controls 2320 40 main_view) /\
  view_in_range main_controls
    (handle_click_nested main_controls 2320 40 main_view).
Proof.
  apply handle_click_keeps_view_in_range;
    try (cbn [main_controls min_zoom max_zoom min_dt max_dt zoom_step dt_step];
         lra).
  apply view_in_range_iff.
  cbn [main_controls main_view min_zoom max_zoom min_dt max_dt pixels_per_AU
       view_dt]. lra.
Defined.

(** ** Drawing *)

Section Pixels.
Local Open Scope Z_scope.

Lemma in_from_to (lo hi v : Z) : In v (from_to lo hi) <-> lo <= v <= hi.
Proof.
  unfold from_to. rewrite in_map_iff. split.
  - intros (k & <- & Hk). apply in_seq in Hk. lia.
  - intros Hv. exists (Z.to_nat (v - lo)). split; [lia|].
    apply in_seq. lia.
Qed.

Lemma square_le_bound (a r : Z) : 0 <= r -> a * a <= r * r -> - r <= a <= r.
Proof. intros Hr Ha. split; nia. Qed.

Lemma int_value_in_range (z : Z) :
  INT_MIN <= z <= INT_MAX -> int_value z = Some z.
Proof.
  intros H. unfold int_value.
  destruct (Z.leb_spec INT_MIN z); [|lia].
  destruct (Z.leb_spec z INT_MAX); [reflexivity|lia].
Qed.

(** Rounds that all return draw the points of the rounds, in order. *)
Lemma draw_rounds_all (round : Z -> option (list (Z * Z)))
    (points : Z -> list (Z * Z)) (vs : list Z) :
  (forall v, In v vs -> round v = Some (points v)) ->
  draw_rounds round vs = Some (flat_map points vs).
Proof.
  induction vs as [|v vs IH]; intros H; [reflexivity|].
  cbn [draw_rounds flat_map]. rewrite (H v) by (left; reflexivity).
  cbn [bind]. rewrite IH by (intros u Hu; apply H; right; exact Hu).
  reflexivity.
Qed.

Lemma for_int_all (lo hi : Z) (round : Z -> option (list (Z * Z)))
    (points : Z -> list (Z * Z)) :
  hi < INT_MAX ->
  (forall v, lo <= v <= hi -> round v = Some (points v)) ->
  for_int lo hi round = Some (flat_map points (from_to lo hi)).
Proof.
  intros Hhi H. unfold for_int.
  destruct (Z.leb_spec INT_MAX hi); [lia|]. rewrite andb_false_r.
  apply draw_rounds_all. intros v Hv. apply H, in_from_to, Hv.
Qed.

(** Within the range, [draw_circle_border] returns the ring between the
    two radii. *)
Lemma draw_circle_border_in_range (cx cy radius border_thickness : Z) :
  position_in_range cx -> position_in_range cy ->
  length_in_range radius -> length_in_range border_thickness ->
  exists ring,
    draw_circle_border cx cy radius border_thickness = Some ring /\
    forall x y,
      In (x, y) ring <->
      0 <= radius /\
      (radius - border_thickness) * (radius - border_thickness)
      <= (x - cx) * (x - cx) + (y - cy) * (y - cy) <= radius * radius.
Proof.
  unfold position_in_range, length_in_range, draw_circle_border.
  intros Hcx Hcy Hr Hb.
  set (points := fun x y : Z =>
         if ((radius - border_thickness) * (radius - border_thickness)
             <=? (x - cx) * (x - cx) + (y - cy) * (y - cy))
            && ((x - cx) * (x - cx) + (y - cy) * (y - cy) <=? radius * radius)
         then [(x, y)] else []).
  assert (Hround : forall y x,
             cy - radius <= y <= cy + radius ->
             cx - radius <= x <= cx + radius ->
             (dx <- int_value (x - cx) ;;
              dx2 <- int_value (dx * dx) ;;
              dy <- int_value (y - cy) ;;
              dy2 <- int_value (dy * dy) ;;
              dist_sq <- int_value (dx2 + dy2) ;;
              inner <- int_value (radius - border_thickness) ;;
              inner2 <- int_value (inner * inner) ;;
              if inner2 <=? dist_sq then
                outer2 <- int_value (radius * radius) ;;
                Some (if dist_sq <=? outer2 then [(x, y)] else [])
              else Some [])
             = Some (points x y)).
  { intros y x Hy Hx. unfold INT_MIN, INT_MAX in *.
    rewrite (int_value_in_range (x - cx)) by (unfold INT_MIN, INT_MAX; lia).
    cbn [bind].
    rewrite (int_value_in_range ((x - cx) * (x - cx)))
      by (unfold INT_MIN, INT_MAX; nia).
    cbn [bind].
    rewrite (int_value_in_range (y - cy)) by (unfold INT_MIN, INT_MAX; lia).
    cbn [bind].
    rewrite (int_value_in_range ((y - cy) * (y - cy)))
      by (unfold INT_MIN, INT_MAX; nia).
    cbn [bind].
    rewrite (int_value_in_range ((x - cx) * (x - cx) + (y - cy) * (y - cy)))
      by (unfold INT_MIN, INT_MAX; nia).
    cbn [bind].
    rewrite (int_value_in_range (radius - border_thickness))
      by (unfold INT_MIN, INT_MAX; lia).
    cbn [bind].
    rewrite (int_value_in_range
               ((radius - border_thickness) * (radius - border_thickness)))
      by (unfold INT_MIN, INT_MAX; nia).
    cbn [bind]. unfold points.
    destruct (_ <=? (x - cx) * (x - cx) + (y - cy) * (y - cy));
      cbn [andb]; [|reflexivity].
    rewrite (int_value_in_range (radius * radius))
      by (unfold INT_MIN, INT_MAX; nia).
    reflexivity. }
  rewrite (int_value_in_range (cy - radius)) by (unfold INT_MIN, INT_MAX; lia).
  cbn [bind].
  rewrite (int_value_in_range (cy + radius)) by (unfold INT_MIN, INT_MAX; lia).
  cbn [bind].
  rewrite (for_int_all (cy - radius) (cy + radius) _
             (fun y => flat_map (fun x => points x y)
                         (from_to (cx - radius) (cx + radius)))).
  2:{ unfold INT_MAX. lia. }
  2:{ intros y Hy.
      rewrite (int_value_in_range (cx - radius))
        by (unfold INT_MIN, INT_MAX; lia).
      cbn [bind].
      rewrite (int_value_in_range (cx + radius))
        by (unfold INT_MIN, INT_MAX; lia).
      cbn [bind].
      apply for_int_all; [unfold INT_MAX; lia|].
      intros x Hx. apply Hround; assumption. }
  eexists. split; [reflexivity|]. intros x y.
  rewrite in_flat_map. split.
  - intros (y0 & Hy0 & Hin). apply in_flat_map in Hin.
    destruct Hin as (x0 & Hx0 & Hin).
    apply in_from_to in Hy0, Hx0. unfold points in Hin.
    destruct (_ && _) eqn:E; [|contradiction].
    destruct Hin as [Hin|[]]. inversion Hin; subst x0 y0.
    apply andb_true_iff in E. rewrite !Z.leb_le in E.
    split; [clear - Hx0; lia|exact E].
  - intros (Hr0 & H1 & H2).
    pose proof (Z.square_nonneg (x - cx)) as Sx.
    pose proof (Z.square_nonneg (y - cy)) as Sy.
    assert (Hx : (x - cx) * (x - cx) <= radius * radius) by lia.
    assert (Hy : (y - cy) * (y - cy) <= radius * radius) by lia.
    apply square_le_bound in Hx, Hy; try exact Hr0.
    exists y. split; [apply in_from_to; lia|].
    apply in_flat_map. exists x. split; [apply in_from_to; lia|].
    unfold points. replace (_ && _) with true; [left; reflexivity|].
    symmetry. apply andb_true_iff. rewrite !Z.leb_le. lia.
Qed.

(** Within the range, [draw_circle] returns the disc. *)
Lemma draw_circle_in_range (cx cy radius : Z) :
  position_in_range cx -> position_in_range cy -> length_in_range radius ->
  exists disc,
    draw_circle cx cy radius = Some disc /\
    forall x y,
      In (x, y) disc <->
      0 <= radius /\
      (x - cx) * (x - cx) + (y - cy) * (y - cy) <= radius * radius.
Proof.
  unfold position_in_range, length_in_range, draw_circle.
  intros Hcx Hcy Hr.
  set (points := fun x y : Z =>
         if x * x + y * y <=? radius * radius then [(cx + x, cy + y)] else []).
  assert (Hround : forall y x,
             - radius <= y <= radius -> - radius <= x <= radius ->
             (x2 <- int_value (x * x) ;;
              y2 <- int_value (y * y) ;;
              dist_sq <- int_value (x2 + y2) ;;
              outer2 <- int_value (radius * radius) ;;
              if dist_sq <=? outer2 then
                px <- int_value (cx + x) ;;
                py <- int_value (cy + y) ;;
                Some [(px, py)]
              else Some [])
             = Some (points x y)).
  { intros y x Hy Hx.
    rewrite (int_value_in_range (x * x)) by (unfold INT_MIN, INT_MAX; nia).
    cbn [bind].
    rewrite (int_value_in_range (y * y)) by (unfold INT_MIN, INT_MAX; nia).
    cbn [bind].
    rewrite (int_value_in_range (x * x + y * y))
      by (unfold INT_MIN, INT_MAX; nia).
    cbn [bind].
    rewrite (int_value_in_range (radius * radius))
      by (unfold INT_MIN, INT_MAX; nia).
    cbn [bind]. unfold points.
    destruct (x * x + y * y <=? radius * radius); [|reflexivity].
    rewrite (int_value_in_range (cx + x)) by (unfold INT_MIN, INT_MAX; lia).
    cbn [bind].
    rewrite (int_value_in_range (cy + y)) by (unfold INT_MIN, INT_MAX; lia).
    reflexivity. }
  rewrite (int_value_in_range (- radius)) by (unfold INT_MIN, INT_MAX; lia).
  cbn [bind].
  rewrite (for_int_all (- radius) radius _
             (fun y => flat_map (fun x => points x y)
                         (from_to (- radius) radius))).
  2:{ unfold INT_MAX. lia. }
  2:{ intros y Hy. cbn [bind].
      apply for_int_all; [unfold INT_MAX; lia|].
      intros x Hx. apply Hround; assumption. }
  eexists. split; [reflexivity|]. intros x y.
  rewrite in_flat_map. split.
  - intros (y0 & Hy0 & Hin). apply in_flat_map in Hin.
    destruct Hin as (x0 & Hx0 & Hin).
    apply in_from_to in Hy0, Hx0. unfold points in Hin.
    destruct (Z.leb_spec (x0 * x0 + y0 * y0) (radius * radius)); [|contradiction].
    destruct Hin as [Hin|[]]. inversion Hin; subst x y.
    split; [lia|]. replace (cx + x0 - cx) with x0 by lia.
    replace (cy + y0 - cy) with y0 by lia. assumption.
  - intros (Hr0 & H).
    pose proof (Z.square_nonneg (x - cx)) as Sx.
    pose proof (Z.square_nonneg (y - cy)) as Sy.
    assert (Hx : (x - cx) * (x - cx) <= radius * radius) by lia.
    assert (Hy : (y - cy) * (y - cy) <= radius * radius) by lia.
    apply square_le_bound in Hx, Hy; try exact Hr0.
    exists (y - cy). split; [apply in_from_to; lia|].
    apply in_flat_map. exists (x - cx). split; [apply in_from_to; lia|].
    unfold points.
    destruct (Z.leb_spec ((x - cx) * (x - cx) + (y - cy) * (y - cy))
                         (radius * radius)); [|lia].
    left. f_equal; lia.
Qed.

End Pixels.

(** X19. The drawing routines, as sets of points, for a centre within a
    thousand million and a radius and a thickness within ten thousand (so
    that no [int] expression overflows): [draw_circle_border] draws exactly
    the points whose squared distance from the centre lies between
    [(radius - border_thickness)^2] and [radius^2], [draw_circle] exactly
    those within [radius^2], and neither draws anything for a negative
    radius.  Outside that range an expression can overflow, which is
    undefined behaviour: [draw_circle_border] with radius 1 and thickness
    -49999 squares 50000. *)
Theorem drawing_routines_draw_ring_and_disc
    (cx cy radius border_thickness : Z) :
  position_in_range cx -> position_in_range cy ->
  length_in_range radius -> length_in_range border_thickness ->
  (exists ring,
      draw_circle_border cx cy radius border_thickness = Some ring /\
      (forall x y,
          In (x, y) ring <->
          (0 <= radius)%Z /\
          ((radius - border_thickness) * (radius - border_thickness)
           <= (x - cx) * (x - cx) + (y - cy) * (y - cy)
           <= radius * radius)%Z) /\
      (radius < 0 -> ring = [])%Z) /\
  (exists disc,
      draw_circle cx cy radius = Some disc /\
      (forall x y,
          In (x, y) disc <->
          (0 <= radius)%Z /\
          ((x - cx) * (x - cx) + (y - cy) * (y - cy) <= radius * radius)%Z) /\
      (radius < 0 -> disc = [])%Z /\
      ((0 <= radius)%Z -> In (cx, cy) disc)) /\
  draw_circle_border 0 0 1 (-49999) = None.
Proof.
  intros Hcx Hcy Hr Hb. split; [|split].
  - destruct (draw_circle_border_in_range cx cy radius border_thickness
                Hcx Hcy Hr Hb) as (ring & Hring & Hin).
    exists ring. split; [exact Hring|]. split; [exact Hin|].
    intros Hneg. destruct ring as [|[px py] l]; [reflexivity|].
    exfalso. assert (H : In (px, py) ((px, py) :: l)) by (left; reflexivity).
    apply Hin in H. lia.
  - destruct (draw_circle_in_range cx cy radius Hcx Hcy Hr)
      as (disc & Hdisc & Hin).
    exists disc. split; [exact Hdisc|]. split; [exact Hin|]. split.
    + intros Hneg. destruct disc as [|[px py] l]; [reflexivity|].
      exfalso. assert (H : In (px, py) ((px, py) :: l)) by (left; reflexivity).
      apply Hin in H. lia.
    + intros Hpos. apply Hin. split; [exact Hpos|]. nia.
  - vm_compute. reflexivity.
Qed.

(** X19 for a planet of radius 15 in the middle of the window. *)
Lemma drawing_routines_draw_ring_and_disc_witness :
  exists ring,
    draw_circle_border 1200 1200 15 2 = Some ring /\
    forall x y,
      In (x, y) ring <->
      (0 <= 15)%Z /\
      ((15 - 2) * (15 - 2)
       <= (x - 1200) * (x - 1200) + (y - 1200) * (y - 1200) <= 15 * 15)%Z.
Proof.
  assert (Hc : position_in_range 1200) by (unfold position_in_range; lia).
  assert (Hr : length_in_range 15) by (unfold length_in_range; lia).
  assert (Hb : length_in_range 2) by (unfold length_in_range; lia).
  destruct (proj1 (drawing_routines_draw_ring_and_disc 1200 1200 15 2
                     Hc Hc Hr Hb)) as (ring & Hring & Hin & _).
  exists ring. split; [exact Hring|exact Hin].
Defined.

(** X20. The visibility test of [render_bodies] hides no visible pixel:
    for a screen position within a thousand million and a radius within
    ten thousand the body is drawn without an overflow, and a point of the
    window is drawn for it exactly when the drawing routine would draw it
    without the test. *)
Theorem culling_hides_no_visible_pixel (is_planet : bool)
    (screen_x screen_y radius : Z) :
  position_in_range screen_x -> position_in_range screen_y ->
  length_in_range radius ->
  exists shown drawn,
    render_body is_planet screen_x screen_y radius = Some shown /\
    (if is_planet then draw_circle_border screen_x screen_y radius 2
     else draw_circle screen_x screen_y radius) = Some drawn /\
    forall p, on_screen p -> (In p shown <-> In p drawn).
Proof.
  intros Hx Hy Hr.
  assert (Hdrawn : exists drawn,
             (if is_planet then draw_circle_border screen_x screen_y radius 2
              else draw_circle screen_x screen_y radius) = Some drawn /\
             forall px py,
               In (px, py) drawn ->
               (0 <= radius /\
                (px - screen_x) * (px - screen_x)
                + (py - screen_y) * (py - screen_y) <= radius * radius)%Z).
  { destruct is_planet.
    - assert (Hb : length_in_range 2) by (unfold length_in_range; lia).
      destruct (draw_circle_border_in_range screen_x screen_y radius 2
                  Hx Hy Hr Hb) as (ring & Hring & Hin).
      exists ring. split; [exact Hring|]. intros px py H.
      apply Hin in H. lia.
    - destruct (draw_circle_in_range screen_x screen_y radius Hx Hy Hr)
        as (disc & Hdisc & Hin).
      exists disc. split; [exact Hdisc|]. intros px py H. apply Hin, H. }
  destruct Hdrawn as (drawn & Hdrawn & Hin).
  assert (Hnone : forall p,
             on_screen p ->
             (screen_x < - radius \/ WIDTH + radius <= screen_x \/
              screen_y < - radius \/ HEIGHT + radius <= screen_y)%Z ->
             (In p [] <-> In p drawn)).
  { intros [px py] ((X0 & X1) & (Y0 & Y1)) Hout. cbn [fst snd] in *.
    split; [intros []|]. intros H. exfalso. apply Hin in H.
    destruct H as (Hr0 & Hd).
    pose proof (Z.square_nonneg (px - screen_x)) as Sx.
    pose proof (Z.square_nonneg (py - screen_y)) as Sy.
    assert (Hpx : ((px - screen_x) * (px - screen_x) <= radius * radius)%Z)
      by lia.
    assert (Hpy : ((py - screen_y) * (py - screen_y) <= radius * radius)%Z)
      by lia.
    apply square_le_bound in Hpx, Hpy; try exact Hr0.
    unfold WIDTH, HEIGHT in *. lia. }
  unfold position_in_range, length_in_range in *.
  unfold render_body.
  rewrite (int_value_in_range (- radius)%Z)
    by (unfold INT_MIN, INT_MAX; lia).
  cbn [bind].
  rewrite (int_value_in_range (WIDTH + radius)%Z)
    by (unfold INT_MIN, INT_MAX, WIDTH; lia).
  rewrite (int_value_in_range (HEIGHT + radius)%Z)
    by (unfold INT_MIN, INT_MAX, HEIGHT; lia).
  cbn [bind].
  destruct (Z.ltb_spec screen_x (- radius)).
  { exists [], drawn. split; [reflexivity|]. split; [exact Hdrawn|].
    intros p Hp. apply Hnone; [exact Hp|]. lia. }
  destruct (Z.leb_spec (WIDTH + radius) screen_x).
  { exists [], drawn. split; [reflexivity|]. split; [exact Hdrawn|].
    intros p Hp. apply Hnone; [exact Hp|]. lia. }
  destruct (Z.ltb_spec screen_y (- radius)).
  { exists [], drawn. split; [reflexivity|]. split; [exact Hdrawn|].
    intros p Hp. apply Hnone; [exact Hp|]. lia. }
  destruct (Z.leb_spec (HEIGHT + radius) screen_y).
  { exists [], drawn. split; [reflexivity|]. split; [exact Hdrawn|].
    intros p Hp. apply Hnone; [exact Hp|]. lia. }
  exists drawn, drawn. split; [exact Hdrawn|]. split; [exact Hdrawn|].
  intros p _. reflexivity.
Qed.

(** X20 on a planet left of the window. *)
Lemma culling_hides_no_visible_pixel_witness :
  exists shown drawn,
    render_body true (-30) 10 5 = Some shown /\
    draw_circle_border (-30) 10 5 2 = Some drawn /\
    forall p, on_screen p -> (In p shown <-> In p drawn).
Proof.
  apply (culling_hides_no_visible_pixel true (-30) 10 5);
    unfold position_in_range, length_in_range; lia.
Defined.

Section Colours.
Local Open Scope Z_scope.

(** Every shade of grey that [initialize_simulation] can pick is packed and
    extracted without loss; checked shade by shade. *)
Lemma grey_shades_round_trip (gray : Z) :
  150 <= gray <= 229 ->
  color_channels (Z.lor (Z.lor (Z.shiftl gray 16) (Z.shiftl gray 8)) gray)
  = (gray, gray, gray) /\
  0 <= Z.lor (Z.lor (Z.shiftl gray 16) (Z.shiftl gray 8)) gray <= 16777215.
Proof.
  intros Hg.
  assert (Hall :
    forallb
      (fun g =>
         let c := Z.lor (Z.lor (Z.shiftl g 16) (Z.shiftl g 8)) g in
         let '(r1, g1, b1) := color_channels c in
         (r1 =? g) && (g1 =? g) && (b1 =? g) && (0 <=? c) && (c <=? 16777215))
      (from_to 150 229) = true) by (vm_compute; reflexivity).
  rewrite forallb_forall in Hall.
  specialize (Hall gray (proj2 (in_from_to 150 229 gray) Hg)).
  cbv zeta in Hall.
  destruct (color_channels _) as [[r1 g1] b1].
  rewrite !andb_true_iff, !Z.eqb_eq, !Z.leb_le in Hall.
  destruct Hall as ((((-> & ->) & ->) & H0) & H1). split; [reflexivity|lia].
Qed.

End Colours.

(** X21. The colour of an asteroid survives the round trip from
    [initialize_simulation] to the renderer: for every result of [rand] the
    three channels extracted from the packed colour are the shade
    [150 + rand % 80] itself, a grey between 150 and 229, and the packed
    value fits in 24 bits. *)
Theorem asteroid_colour_is_grey (rand : Z) :
  (0 <= rand)%Z ->
  color_channels (asteroid_color rand)
  = ((150 + rand mod 80)%Z, (150 + rand mod 80)%Z, (150 + rand mod 80)%Z) /\
  (150 <= 150 + rand mod 80 <= 229)%Z /\
  (0 <= asteroid_color rand <= 16777215)%Z.
Proof.
  intros Hr. unfold asteroid_color. rewrite Z.rem_mod_nonneg by lia.
  pose proof (Z.mod_pos_bound rand 80 ltac:(lia)) as Hm.
  assert (Hg : (150 <= 150 + rand mod 80 <= 229)%Z) by lia.
  destruct (grey_shades_round_trip _ Hg) as (Hc & Hrange).
  split; [exact Hc|]. split; [exact Hg|exact Hrange].
Qed.

(** X21 for a [rand] that returns 0. *)
Lemma asteroid_colour_is_grey_witness :
  color_channels (asteroid_color 0) = (150, 150, 150)%Z.
Proof.
  assert (H : (0 <= 0)%Z) by lia.
  exact (proj1 (asteroid_colour_is_grey 0 H)).
Defined.

(** ** Aggregating again *)

(** X22. [calculate_center_of_mass] overwrites every aggregate it finds:
    run on a tree that was already aggregated, even for other masses and
    positions of the bodies, it gives the tree it gives on the fresh one.
    In particular a second run changes nothing (every arithmetic). *)
Theorem aggregation_overwrites_stale_values {F : Type} {AF : Arith F}
    {B : Type} {BB : Body F B} (st st' : Store B) (t : QuadTreeNode F) :
  calculate_center_of_mass st (calculate_center_of_mass st' t)
  = calculate_center_of_mass st t /\
  calculate_center_of_mass st (calculate_center_of_mass st t)
  = calculate_center_of_mass st t.
Proof.
  assert (H : forall s s' u,
             calculate_center_of_mass s (calculate_center_of_mass s' u)
             = calculate_center_of_mass s u).
  { intros s s' u.
    induction u as [d | d nw IHnw ne IHne sw IHsw se IHse].
    - cbn [calculate_center_of_mass].
      destruct (body d) as [p|] eqn:Hb;
        cbn [calculate_center_of_mass set_aggregate body node_x node_y width
             height]; rewrite ?Hb; reflexivity.
    - cbn [calculate_center_of_mass].
      destruct (add_child _ (calculate_center_of_mass s' se)) as [[m' cx'] cy'].
      destruct (flt f0 m');
        cbn [calculate_center_of_mass]; rewrite IHnw, IHne, IHsw, IHse;
        destruct (add_child _ (calculate_center_of_mass s se)) as [[m cx] cy];
        destruct (flt f0 m); reflexivity. }
  split; apply H.
Qed.
